(** * Encrypted content-encoding (nodejs/ece.js): a shallow embedding

    The module [ece.js] turns a byte string into a sequence of AES-128-GCM
    records and back.  This development embeds its functions as Rocq
    functions over byte lists and settles the properties that the
    specification states about them.

    Conventions of the embedding:
    - a [Buffer] is a [list byte];
    - a JavaScript string is the [string] of the bytes of its UTF-8
      encoding, so an ASCII string is the [string] of its characters;
    - a JavaScript number that the code uses as an integer is a [Z]
      (exact for magnitudes below 2^53, which covers every length, counter
      and record size a Buffer can give rise to; a larger integer stands
      for the number nearest to it);
    - a function that can [throw] returns an [outcome], with one [error]
      constructor per [throw] site of the source and one per kind of
      exception raised by the Node runtime ([TypeError], [RangeError], ...);
    - the process-wide objects [savedKeys] and [keyLabels] are the two fields
      of an explicit [keystore] that is passed to the functions reading it;
      they are plain objects, so a read also finds what they inherit from
      their prototype, and the name ["__proto__"] gives access to the
      prototype itself;
    - the primitives of Node's [crypto] module and of [urlsafe-base64]
      (HMAC-SHA-256, AES-128-GCM, ECDH, base64url decoding) are parameters
      of the development, and so is what the runtime finds on the prototype
      chain of a Buffer or of an ECDH handle;
    - [console.warn] and [keylog] only write to the console and are left out. *)

From Stdlib Require Import ZArith Lia List String Ascii.
From Stdlib.Strings Require Import Byte.
From stdpp Require Import gmap strings list.

Local Open Scope Z_scope.

(* ================================================================== *)
(** * Bytes and Buffers *)

Definition bytes := list byte.

Definition Z_of_byte (b : byte) : Z := Z.of_N (Byte.to_N b).

Definition byte_of_Z (z : Z) : byte :=
  match Byte.of_N (Z.to_N (z mod 256)) with
  | Some b => b
  | None => x00
  end.

(** [buffer.length] *)
Definition blen (b : bytes) : Z := Z.of_nat (length b).

(** [Buffer.from(str)]: the UTF-8 encoding of the string. *)
Definition utf8_bytes (s : string) : bytes := list_byte_of_string s.

(** The UTF-16 code units of a string, read off its UTF-8 bytes and cut to
    their low eight bits.  [pending] is the number of continuation bytes
    that the character being read still needs and [point] what has been
    read of its code point.  A character above U+FFFF is two code units, a
    surrogate pair.  (A [string] that is not well-formed UTF-8 stands for no
    JavaScript string; a sequence that breaks off gives nothing.) *)
Definition code_unit_bytes (point : Z) : bytes :=
  if point <? 65536 then [byte_of_Z point]
  else
    let v := point - 65536 in
    [byte_of_Z (55296 + Z.shiftr v 10); byte_of_Z (56320 + Z.land v 1023)].

(** A lead byte of a multi-byte character: the number of continuation
    bytes that follow it and the bits of the code point it carries. *)
Definition utf8_lead (x : Z) : nat * Z :=
  if x <? 224 then (1%nat, Z.land x 31)
  else if x <? 240 then (2%nat, Z.land x 15)
  else (3%nat, Z.land x 7).

Fixpoint low_bytes (pending : nat) (point : Z) (l : bytes) : bytes :=
  match l with
  | [] => []
  | b :: l' =>
      let x := Z_of_byte b in
      if (128 <=? x) && (x <? 192) then
        match pending with
        | O => low_bytes O 0 l'
        | S O => code_unit_bytes (point * 64 + Z.land x 63) ++ low_bytes O 0 l'
        | S k => low_bytes k (point * 64 + Z.land x 63) l'
        end
      else if x <? 128 then b :: low_bytes O 0 l'
      else let '(k, p) := utf8_lead x in low_bytes k p l'
  end.

(** [new Buffer(str, 'ascii')]: one byte per UTF-16 code unit of the
    string, its low eight bits; for an ASCII string, its characters. *)
Definition ascii_bytes (s : string) : bytes := low_bytes O 0 (list_byte_of_string s).

(** Whether every character of the string is a 7-bit one. *)
Definition is_ascii (s : string) : bool :=
  forallb (fun b => Z_of_byte b <? 128) (list_byte_of_string s).


(** Big-endian value of a run of bytes, and the [n]-byte big-endian
    encoding of a value (its low [8n] bits). *)
Definition be_decode (l : bytes) : Z :=
  fold_left (fun acc b => acc * 256 + Z_of_byte b) l 0.

Fixpoint be_encode (n : nat) (v : Z) : bytes :=
  match n with
  | O => []
  | S k => byte_of_Z (Z.shiftr v (8 * Z.of_nat k)) :: be_encode k v
  end.

(* ================================================================== *)
(** * Errors *)

Inductive error : Type :=
| NoKnownDHKey (keyid : string)      (* 'No known DH key for ' + keyid *)
| NoKnownDHKeyLabel (keyid : string) (* 'No known DH key label for ' + keyid *)
| UnknownMode                        (* 'Unknown mode only encrypt and decrypt supported' *)
| BadKeyLength                       (* 'An explicit key must be 16 bytes' *)
| UnableToDetermineKey               (* 'Unable to determine key' *)
| MissingSaltFor                     (* 'must include a salt parameter for ' + type *)
| BadRecordSize (padSize : Z)        (* 'The rs parameter has to be greater than ' + padSize *)
| SaltRequired                       (* 'A salt is required' *)
| BadSaltLength                      (* 'The salt parameter must be 16 bytes' *)
| PaddingExceedsBlock                (* 'padding exceeds block size' *)
| InvalidPadding                     (* 'invalid padding' *)
| TruncatedPayload                   (* 'Truncated payload' *)
| BlockTooSmall (i : Z)              (* 'Invalid block: too small at ' + i *)
| InvalidTag                         (* 'invalid tag generated' *)
| KeyidTooLarge                      (* 'keyid is too large' *)
| UnableToPad (remaining : Z)        (* 'Unable to pad by requested amount, ...' *)
| TypeError                          (* runtime: a method of a value that lacks it *)
| RangeError                         (* runtime: Buffer index, size or value out of range *)
| AuthenticationFailed               (* runtime: gcm.final() on a bad tag *)
| CryptoError                        (* runtime: the ECDH backend refuses its input *)
| OutOfFuel.                         (* no exception: the bound of an embedded loop was hit *)

Inductive outcome (A : Type) : Type :=
| Ok (a : A)
| Err (e : error).
Arguments Ok {A} a.
Arguments Err {A} e.

#[global] Instance outcome_ret : MRet outcome := fun A a => Ok a.
#[global] Instance outcome_bind : MBind outcome := fun A B k r =>
  match r with
  | Ok a => k a
  | Err e => Err e
  end.

#[global] Instance outcome_fmap : FMap outcome := fun A B f r =>
  match r with
  | Ok a => Ok (f a)
  | Err e => Err e
  end.

Definition is_ok {A : Type} (r : outcome A) : bool :=
  match r with Ok _ => true | Err _ => false end.

(* ================================================================== *)
(** * The parts of the JavaScript runtime that the module relies on *)

(** ** Buffer methods *)

(** One index argument of [Buffer.prototype.slice]: [undefined] takes the
    default, a negative index counts from the end, and the result is clamped
    to the buffer. *)
Definition slice_index (len : Z) (dflt : Z) (i : option Z) : Z :=
  match i with
  | None => dflt
  | Some i => if i <? 0 then Z.max (len + i) 0 else Z.min i len
  end.

(** [buffer.slice(start, end)] *)
Definition Buffer_slice (b : bytes) (start stop : option Z) : bytes :=
  let len := blen b in
  let s := slice_index len 0 start in
  let e := slice_index len len stop in
  take (Z.to_nat (e - s)) (drop (Z.to_nat s) b).

(** [buffer.readUIntBE(offset, byteLength)]; out of range it throws. *)
Definition readUIntBE (b : bytes) (offset byteLength : Z) : outcome Z :=
  if (offset <? 0) || (blen b <? offset + byteLength) then Err RangeError
  else Ok (be_decode (take (Z.to_nat byteLength) (drop (Z.to_nat offset) b))).

(** [buffer.writeUIntBE(value, offset, byteLength)]; the value has to fit
    the field and the field has to lie within the buffer.  The buffer is
    mutated in place; the embedding returns its new contents. *)
Definition writeUIntBE (b : bytes) (value offset byteLength : Z) : outcome bytes :=
  if (value <? 0) || (2 ^ (8 * byteLength) <=? value) then Err RangeError
  else if (offset <? 0) || (blen b <? offset + byteLength) then Err RangeError
  else Ok (take (Z.to_nat offset) b ++ be_encode (Z.to_nat byteLength) value
             ++ drop (Z.to_nat (offset + byteLength)) b).

(** [new Buffer(size)] followed by [fill(0)]; a negative size throws. *)
Definition Buffer_zeroed (size : Z) : outcome bytes :=
  if size <? 0 then Err RangeError else Ok (repeat x00 (Z.to_nat size)).

(** [a.compare(b)]: lexicographic order on the byte values, as -1, 0 or 1. *)
Fixpoint Buffer_compare (a b : bytes) : Z :=
  match a, b with
  | [], [] => 0
  | [], _ :: _ => -1
  | _ :: _, [] => 1
  | x :: a', y :: b' =>
      if Z_of_byte x <? Z_of_byte y then -1
      else if Z_of_byte y <? Z_of_byte x then 1
      else Buffer_compare a' b'
  end.

(** ** Number operators *)

(** [ToInt32] of an integral number. *)
Definition toInt32 (z : Z) : Z := (z + 2 ^ 31) mod 2 ^ 32 - 2 ^ 31.

(** [a ^ b], [a & b] and [a << n] of the language: the operands go through
    [ToInt32] (the shift count is taken modulo 32). *)
Definition js_xor (a b : Z) : Z := Z.lxor (toInt32 a) (toInt32 b).
Definition js_and (a b : Z) : Z := Z.land (toInt32 a) (toInt32 b).
Definition js_shl (a n : Z) : Z := toInt32 (Z.shiftl (toInt32 a) (n mod 32)).

(** [a / d] where only the integer part of the quotient is used afterwards
    (the quotient is the operand of a bit operator, which truncates). *)
Definition js_div_trunc (a d : Z) : Z := Z.quot a d.

(** A value passed for a numeric option ([rs], [pad], [padSize]): nothing,
    an integral number, or a string. *)
Inductive jsval : Type :=
| JUndefined
| JNumber (n : Z)
| JString (s : string).

(** ** The text of a number *)

Definition digit_char (d : Z) : ascii := ascii_of_nat (48 + Z.to_nat d).

(** The decimal digits of a non-negative integer, put in front of [acc]. *)
Fixpoint decimal_digits (fuel : nat) (n : Z) (acc : string) : string :=
  let acc := String (digit_char (n mod 10)) acc in
  match fuel with
  | O => acc
  | S fuel' => if n <? 10 then acc else decimal_digits fuel' (n / 10) acc
  end.

Definition decimal (n : Z) : string :=
  decimal_digits (Z.to_nat (Z.log2 n)) n EmptyString.

(** The Number that a positive integer denotes: the nearest one with 53
    significant bits, a tie going to the even significand; [None] is
    [Infinity].  Below 2^53 every integer is a Number. *)
Definition nearest_Number (n : Z) : option Z :=
  let e := Z.log2 n - 52 in
  if e <=? 0 then Some n
  else
    let q := Z.shiftr n e in
    let r := n - Z.shiftl q e in
    let half := 2 ^ (e - 1) in
    let q := if (half <? r) || ((r =? half) && Z.odd q) then q + 1 else q in
    let x := Z.shiftl q e in
    if 2 ^ 1024 <=? x then None else Some x.

(** Whether the integer [v] denotes the Number [x] (here [2^53 <= x]): it lies
    within half a step of [x], the step below a power of two being half the
    step above it, and a value half-way belongs to the even significand. *)
Definition reads_back (x v : Z) : bool :=
  let e := Z.log2 x - 52 in
  let m := Z.shiftr x e in
  let up := 2 ^ (e - 1) in
  let down := if m =? 2 ^ 52 then 2 ^ (e - 2) else 2 ^ (e - 1) in
  if Z.even m then (x - down <=? v) && (v <=? x + up)
  else (x - down <? v) && (v <? x + up).

(** The integer with the fewest significant digits that denotes [x], the
    nearest to [x] if there are several; [unit] is the weight of the last
    significant digit tried, from the leading digit of [x] down. *)
Fixpoint shortest (fuel : nat) (x unit : Z) : Z :=
  let below := x / unit * unit in
  let above := below + unit in
  let nearer :=
    if x - below <? above - x then below
    else if above - x <? x - below then above
    else if Z.even (x / unit) then below else above in
  match reads_back x below, reads_back x above with
  | true, true => nearer
  | true, false => below
  | false, true => above
  | false, false =>
      match fuel with
      | O => x
      | S fuel' => shortest fuel' x (unit / 10)
      end
  end.

Fixpoint strip_zeros (s : string) : string :=
  match s with
  | EmptyString => EmptyString
  | String c s' =>
      match strip_zeros s' with
      | EmptyString => if (c =? "0")%char then EmptyString else String c EmptyString
      | t => String c t
      end
  end.

(** The exponent notation of an integer: its significant digits, a point
    after the first if there are more, and the power of ten. *)
Definition exponent_text (v : Z) : string :=
  let digits := decimal v in
  let e := decimal (Z.of_nat (String.length digits) - 1) in
  match strip_zeros digits with
  | EmptyString => EmptyString
  | String d EmptyString => String d ("e+" ++ e)
  | String d more => String d ("." ++ more ++ "e+" ++ e)
  end.

(** [String(n)] for an integral number: the digits of the shortest integer
    that denotes the number, which below 2^53 is the number itself, written
    in full below 10^21 and in exponent notation from there on. *)
Definition Number_toString (n : Z) : string :=
  let text (a : Z) : string :=
    match nearest_Number a with
    | None => "Infinity"
    | Some x =>
        if x <? 2 ^ 53 then decimal x
        else
          let v := shortest 17 x (10 ^ (Z.of_nat (String.length (decimal x)) - 1)) in
          if v <? 10 ^ 21 then decimal v else exponent_text v
    end in
  if n <? 0 then String "-" (text (- n)) else text n.

(** ** parseInt *)

Definition is_space (c : ascii) : bool :=
  let n := nat_of_ascii c in
  ((9 <=? n)%nat && (n <=? 13)%nat) || (n =? 32)%nat.

Definition digit_of (c : ascii) : option Z :=
  let n := nat_of_ascii c in
  if ((48 <=? n)%nat && (n <=? 57)%nat)%bool then Some (Z.of_nat (n - 48)) else None.

(** Whether the third byte of a character that starts [E2 80] makes it a
    space or a line end: U+2000 to U+200A, U+2028, U+2029 and U+202F. *)
Definition is_space_E2_80 (c : ascii) : bool :=
  let n := nat_of_ascii c in
  ((128 <=? n)%nat && (n <=? 138)%nat) || (n =? 168)%nat || (n =? 169)%nat
  || (n =? 175)%nat.

(** The string without its leading white space and line ends; outside
    ASCII these are U+00A0, U+1680, U+2000 to U+200A, U+2028, U+2029, U+202F,
    U+205F, U+3000 and U+FEFF. *)
Fixpoint skip_spaces (s : string) : string :=
  match s with
  | EmptyString => s
  | String c s' =>
      if is_space c then skip_spaces s'
      else
        match s with
        | String "194" (String "160" r) => skip_spaces r
        | String "225" (String "154" (String "128" r)) => skip_spaces r
        | String "226" (String "128" (String c3 r)) =>
            if is_space_E2_80 c3 then skip_spaces r else s
        | String "226" (String "129" (String "159" r)) => skip_spaces r
        | String "227" (String "128" (String "128" r)) => skip_spaces r
        | String "239" (String "187" (String "191" r)) => skip_spaces r
        | _ => s
        end
  end.

(** The longest prefix of decimal digits, as a number; [None] without one. *)
Fixpoint parse_digits (s : string) (acc : option Z) : option Z :=
  match s with
  | String c s' =>
      match digit_of c with
      | Some d => parse_digits s' (Some (match acc with Some a => a * 10 + d | None => d end))
      | None => acc
      end
  | EmptyString => acc
  end.

(** The Number that a run of digits denotes; beyond the largest Number the
    embedding keeps the integer, where JavaScript has [Infinity]. *)
Definition digits_Number (v : Z) : Z :=
  match nearest_Number v with
  | Some x => x
  | None => v
  end.

(** [parseInt(string, 10)]; [None] is [NaN]. *)
Definition parseInt_string (s : string) : option Z :=
  match skip_spaces s with
  | String "-"%char s' => option_map (fun v => - digits_Number v) (parse_digits s' None)
  | String "+"%char s' => option_map digits_Number (parse_digits s' None)
  | s' => option_map digits_Number (parse_digits s' None)
  end.

(** [parseInt(v, 10)]; [None] is [NaN].  The argument is turned into a
    string first, so a number is read back from its text. *)
Definition parseInt (v : jsval) : option Z :=
  match v with
  | JUndefined => None
  | JNumber n => parseInt_string (Number_toString n)
  | JString s => parseInt_string s
  end.

(** Truthiness of an optional string option such as [params.salt]. *)
Definition truthy (s : option string) : bool :=
  match s with
  | Some (String _ _) => true
  | _ => false
  end.

(* ================================================================== *)
(** * Constants of the module *)

Inductive variant : Type := aes128gcm | aesgcm | aesgcm128.

Definition PAD_SIZE (t : variant) : Z :=
  match t with
  | aes128gcm => 2
  | aesgcm => 2
  | aesgcm128 => 1
  end.

Definition TAG_LENGTH : Z := 16.
Definition KEY_LENGTH : Z := 16.
Definition NONCE_LENGTH : Z := 12.
Definition SHA_256_LENGTH : Z := 32.

Inductive mode : Type := MODE_ENCRYPT | MODE_DECRYPT.

(* ================================================================== *)
(** * Nonce generator *)

Definition generateNonce (base : bytes) (counter : Z) : outcome bytes :=
  let nonce := base in
  m ← readUIntBE nonce (blen nonce - 6) 6;
  let x := js_and (js_xor m counter) 0xffffff +
           js_and (js_xor (js_div_trunc m 0x1000000) (js_div_trunc counter 0x1000000))
                  0xffffff * 0x1000000 in
  writeUIntBE nonce x (blen nonce - 6) 6.

(** Byte-wise XOR of two buffers, the reading of the nonce rule that the
    specification gives. *)
Definition xor_byte (a b : byte) : byte :=
  byte_of_Z (Z.lxor (Z_of_byte a) (Z_of_byte b)).

Fixpoint xor_bytes (a b : bytes) : bytes :=
  match a, b with
  | x :: a', y :: b' => xor_byte x y :: xor_bytes a' b'
  | _, _ => []
  end.

(* ================================================================== *)
(** * Values in the place of key material *)

(** What the module can find where it expects a key: a Buffer, an ECDH
    handle ([E] is their type), or anything else that is truthy, a function
    or an object of the runtime whose prototype chain ends in
    [Object.prototype].  The last kind turns up when an identifier names
    something that the key store inherits from its prototype; the module
    can use nothing of it. *)
Inductive keyval_of (E : Type) : Type :=
| RawKey (b : bytes)
| ECDHKey (k : E)
| Foreign.
Arguments RawKey {E} b.
Arguments ECDHKey {E} k.
Arguments Foreign {E}.

(** What an assignment [o[name] = v] does when [o] does not own [name] and
    the prototype chain of [o] is asked. *)
Inductive assignment : Type :=
| AssignOwn                  (* [o] gets the property, as for a name found nowhere *)
| AssignThrows (e : error)   (* the chain holds it read-only: strict mode throws *)
| AssignElement (b : bytes). (* a typed array on the chain takes the value as one of
                                its elements and holds [b] afterwards *)

(* ================================================================== *)
(** * External collaborators

    What the module takes from [crypto] and [urlsafe-base64].  The GCM
    cipher is a stream cipher under the hood: the outputs of successive
    [update] calls concatenate to the ciphertext of the concatenated input,
    so one call on the whole record stands for them.

    The last two describe the objects of the runtime.  Once a Buffer or an
    ECDH handle has become the prototype of a key store, a name that the
    store does not own is looked up on the chain of that value; what is
    found there depends on the version of Node. *)

Class Crypto : Type := {
  (** the handle returned by [crypto.createECDH] *)
  ecdh : Type;
  (** [createHmac('sha256', key).update(input).digest()] *)
  HMAC_SHA256 : bytes -> bytes -> bytes;
  (** [createCipheriv('aes-128-gcm', key, nonce)]: ciphertext and tag *)
  gcm_encrypt : bytes -> bytes -> bytes -> bytes * bytes;
  (** [createDecipheriv('aes-128-gcm', key, nonce)] with [setAuthTag]:
      the plaintext, or [None] when [final()] throws *)
  gcm_decrypt : bytes -> bytes -> bytes -> bytes -> option bytes;
  (** [base64.decode] of [urlsafe-base64] *)
  base64_decode : string -> bytes;
  (** [buffer.toString()], which [base64.decode] applies to a Buffer argument *)
  Buffer_toString : bytes -> string;
  (** [key.getPublicKey()] *)
  getPublicKey : ecdh -> bytes;
  (** [key.computeSecret(share)]; [None] when the share is refused *)
  computeSecret : ecdh -> bytes -> option bytes;
  (** [o[name]] for a name that [o] does not own, when the prototype of [o]
      is the value [p]: what is found from [p] on, [None] for [undefined] or
      another falsy value; a getter on the chain can throw *)
  inherited : keyval_of ecdh -> string -> outcome (option (keyval_of ecdh));
  (** [o[name] = v] in the same situation *)
  assign_through : keyval_of ecdh -> string -> keyval_of ecdh -> assignment
}.

(* ================================================================== *)
(** * Data model *)

(** A value stored by [saveKey] or read from the key store. *)
Definition keyval `{Crypto} : Type := keyval_of ecdh.

(** The two module-level objects [savedKeys] and [keyLabels], each as the
    map of what has been assigned to it.  The entry under ["__proto__"] is
    the prototype of the object: an assignment to that name creates no
    property but replaces the prototype, and a read of that name gives the
    prototype back.  Without such an entry the prototype is the initial
    one, [Object.prototype]. *)
Record keystore `{Crypto} : Type := {
  savedKeys : gmap string keyval;
  keyLabels : gmap string bytes
}.

(** The [params] object given to [encrypt] and [decrypt]. *)
Record params : Type := {
  params_salt : option string;
  params_rs : jsval;
  params_keyid : option string;
  params_key : option string;
  params_dh : option string;
  params_authSecret : option string;
  params_pad : jsval;
  params_padSize : jsval
}.

(** The [header] object built by [parseParams] and [readHeader].  Neither
    of them sets a [len] property. *)
Record header : Type := {
  header_type : variant;
  header_salt : option bytes;
  header_rs : Z;
  header_keyid : option string;
  header_key : option bytes;
  header_dh : option bytes;
  header_authSecret : option bytes
}.

(** The header with its [authSecret] property removed. *)
Definition clear_authSecret (h : header) : header :=
  {| header_type := header_type h;
     header_salt := header_salt h;
     header_rs := header_rs h;
     header_keyid := header_keyid h;
     header_key := header_key h;
     header_dh := header_dh h;
     header_authSecret := None |}.

(** The params with their [pad] property removed. *)
Definition clear_pad (p : params) : params :=
  {| params_salt := params_salt p;
     params_rs := params_rs p;
     params_keyid := params_keyid p;
     params_key := params_key p;
     params_dh := params_dh p;
     params_authSecret := params_authSecret p;
     params_pad := JUndefined;
     params_padSize := params_padSize p |}.

(** [header.len]: the property is never assigned, so it reads [undefined]. *)
Definition header_len (h : header) : option Z := None.

(** The result of [extractDH] and [extractSecretAndContext]. *)
Record secret_and_context `{Crypto} : Type := {
  secret : keyval;
  context : bytes
}.

(** The result of [deriveKeyAndNonce]. *)
Record key_and_nonce : Type := {
  kn_key : bytes;
  kn_nonce : bytes
}.

(** A first argument of [readHeader]: the call site and the declaration
    disagree on the order, so either kind of object can arrive. *)
Inductive jsobj : Type :=
| OBuffer (b : bytes)
| OParams (p : params).

(** The property name that an optional string indexes an object with. *)
Definition prop_key (k : option string) : string :=
  match k with
  | Some s => s
  | None => "undefined"
  end.

(** The names that a plain object inherits from [Object.prototype]; each
    reads as a function, and ["__proto__"] as [Object.prototype] itself. *)
Definition Object_prototype : list string :=
  ["constructor"; "__defineGetter__"; "__defineSetter__"; "hasOwnProperty";
   "__lookupGetter__"; "__lookupSetter__"; "isPrototypeOf";
   "propertyIsEnumerable"; "toString"; "valueOf"; "__proto__";
   "toLocaleString"].

Definition inherits_from_Object (name : string) : bool :=
  existsb (String.eqb name) Object_prototype.

Section Ece.
Context `{Crypto}.

(* ================================================================== *)
(** * HKDF *)

Definition HMAC_hash (key input : bytes) : bytes := HMAC_SHA256 key input.

Definition HKDF_extract (salt ikm : bytes) : bytes := HMAC_hash salt ikm.

(** The [while] loop of [HKDF_expand].  The counter is written into the
    one-byte buffer [cbuf], which throws once it reaches 256. *)
Fixpoint HKDF_expand_loop (fuel : nat) (prk info : bytes) (l : Z)
    (output T : bytes) (counter : Z) : outcome bytes :=
  if blen output <? l then
    match fuel with
    | O => Err OutOfFuel
    | S fuel' =>
        let counter := counter + 1 in
        cbuf ← writeUIntBE [x00] counter 0 1;
        let T := HMAC_hash prk (T ++ info ++ cbuf) in
        let output := output ++ T in
        HKDF_expand_loop fuel' prk info l output T counter
    end
  else Ok output.

Definition HKDF_expand (prk info : bytes) (l : Z) : outcome bytes :=
  output ← HKDF_expand_loop 256 prk info l [] [] 0;
  Ok (Buffer_slice output (Some 0) (Some l)).

Definition HKDF (salt ikm info : bytes) (len : Z) : outcome bytes :=
  HKDF_expand (HKDF_extract salt ikm) info len.

(** [T(i)] and [T(1) || ... || T(n)] as the specification defines them. *)
Fixpoint spec_T (prk info : bytes) (i : nat) : bytes :=
  match i with
  | O => []
  | S j => HMAC_SHA256 prk (spec_T prk info j ++ info ++ [byte_of_Z (Z.of_nat i)])
  end.

Fixpoint spec_T_concat (prk info : bytes) (n : nat) : bytes :=
  match n with
  | O => []
  | S m => spec_T_concat prk info m ++ spec_T prk info n
  end.

(* ================================================================== *)
(** * Context builder *)

Definition info (base : string) (context : bytes) : bytes :=
  ascii_bytes ("Content-Encoding: " ++ base ++ String zero EmptyString) ++ context.

Definition lengthPrefix (buffer : bytes) : outcome bytes :=
  let b := repeat x00 2 ++ buffer in
  writeUIntBE b (blen buffer) 0 2.

(* ================================================================== *)
(** * Key schedule *)

(** The bytes an HMAC call reads from a value; only a Buffer has any, and
    anything else makes [hmac.update] throw. *)
Definition keyval_bytes (v : keyval) : outcome bytes :=
  match v with
  | RawKey b => Ok b
  | _ => Err TypeError
  end.

(** [o[name]] for one of the two stores, [None] for [undefined]: the value
    assigned under the name, or else what the prototype chain has for it.
    [value] tells what kind of value the store holds. *)
Definition property {V : Type} (value : V -> keyval) (o : gmap string V)
    (name : string) : outcome (option keyval) :=
  match o !! name with
  | Some v => Ok (Some (value v))
  | None =>
      match o !! "__proto__" with
      | Some p => inherited (value p) name
      | None => Ok (if inherits_from_Object name then Some Foreign else None)
      end
  end.

(** [o[name] = v] for one of the two stores: the new state of the object
    and the exception, if one is thrown.  A name that the object owns, or
    that no replaced prototype stands behind, is written in the object;
    for ["__proto__"] that means that [v] becomes the prototype. *)
Definition assign {V : Type} (value : V -> keyval) (element : bytes -> V)
    (o : gmap string V) (name : string) (v : V) : gmap string V * option error :=
  match o !! name, o !! "__proto__" with
  | None, Some p =>
      match assign_through (value p) name (value v) with
      | AssignOwn => (<[name := v]> o, None)
      | AssignThrows e => (o, Some e)
      | AssignElement b => (<["__proto__" := element b]> o, None)
      end
  | _, _ => (<[name := v]> o, None)
  end.

Definition extractDH (ks : keystore) (keyid : option string) (share : bytes)
    (mode : mode) : outcome secret_and_context :=
  key ← property (fun v => v) (savedKeys ks) (prop_key keyid);
  match key with
  | None => Err (NoKnownDHKey (prop_key keyid))
  | Some key =>
      label ← property RawKey (keyLabels ks) (prop_key keyid);
      match label with
      | None => Err (NoKnownDHKeyLabel (prop_key keyid))
      | Some label =>
          match key with
          | ECDHKey key =>
              let '(senderPubKey, receiverPubKey) :=
                match mode with
                | MODE_ENCRYPT => (getPublicKey key, share)
                | MODE_DECRYPT => (share, getPublicKey key)
                end in
              match computeSecret key share with
              | None => Err CryptoError
              | Some sec =>
                  r ← lengthPrefix receiverPubKey;
                  s ← lengthPrefix senderPubKey;
                  match label with
                  | RawKey label =>
                      Ok {| secret := RawKey sec; context := label ++ r ++ s |}
                  | _ => Err TypeError
                  end
              end
          | _ => Err TypeError
          end
      end
  end.

Definition extractSecretAndContext (ks : keystore) (header : header) (mode : mode)
  : outcome secret_and_context :=
  result ←
    match header_key header with
    | Some key =>
        if negb (blen key =? KEY_LENGTH) then Err BadKeyLength
        else Ok {| secret := RawKey key; context := [] |}
    | None =>
        match header_dh header with
        | Some dh => extractDH ks (header_keyid header) dh mode
        | None =>
            if truthy (header_keyid header) then
              v ← property (fun v => v) (savedKeys ks) (prop_key (header_keyid header));
              match v with
              | Some v => Ok {| secret := v; context := [] |}
              | None => Err UnableToDetermineKey
              end
            else Err UnableToDetermineKey
        end
    end;
  match header_authSecret header with
  | Some authSecret =>
      ikm ← keyval_bytes (secret result);
      s ← HKDF (base64_decode (Buffer_toString authSecret)) ikm
               (info "auth" []) SHA_256_LENGTH;
      Ok {| secret := RawKey s; context := context result |}
  | None => Ok result
  end.

Definition deriveKeyAndNonce (ks : keystore) (header : header) (mode : mode)
  : outcome key_and_nonce :=
  match header_salt header with
  | None => Err MissingSaltFor
  | Some salt =>
      s ← extractSecretAndContext ks header mode;
      ikm ← keyval_bytes (secret s);
      let prk := HKDF_extract salt ikm in
      let '(keyInfo, nonceInfo) :=
        match header_type header with
        | aesgcm128 =>
            (ascii_bytes "Content-Encoding: aesgcm128",
             ascii_bytes "Content-Encoding: nonce")
        | aesgcm => (info "aesgcm" (context s), info "nonce" (context s))
        | aes128gcm =>
            (ascii_bytes ("Content-Encoding: aesgcm128" ++ String zero EmptyString),
             ascii_bytes ("Content-Encoding: nonce" ++ String zero EmptyString))
        end in
      key ← HKDF_expand prk keyInfo KEY_LENGTH;
      nonce ← HKDF_expand prk nonceInfo NONCE_LENGTH;
      Ok {| kn_key := key; kn_nonce := nonce |}
  end.

(* ================================================================== *)
(** * Parameters and header *)

Definition determineRecordSize (rs : jsval) (type : variant) : outcome Z :=
  match parseInt rs with
  | None => Ok 4096
  | Some rs =>
      let padSize := PAD_SIZE type in
      if rs <=? padSize then Err (BadRecordSize padSize) else Ok rs
  end.

Definition extractSalt (salt : option string) : outcome bytes :=
  if negb (truthy salt) then Err SaltRequired
  else
    let salt := base64_decode (prop_key salt) in
    if negb (blen salt =? KEY_LENGTH) then Err BadSaltLength else Ok salt.

(** [p.x ? base64.decode(p.x) : undefined] *)
Definition decode_opt (s : option string) : option bytes :=
  if truthy s then Some (base64_decode (prop_key s)) else None.

(** A string property of the first argument of [readHeader]; a Buffer has
    none of them. *)
Definition obj_field (o : jsobj) (f : params -> option string) : option string :=
  match o with
  | OParams p => f p
  | OBuffer _ => None
  end.

Definition readHeader (params buffer : jsobj) : outcome header :=
  match buffer with
  | OParams _ => Err TypeError
  | OBuffer buffer =>
      idsz ← readUIntBE buffer 20 1;
      rs ← readUIntBE buffer KEY_LENGTH 4;
      Ok {| header_type := aes128gcm;
            header_salt := Some (Buffer_slice buffer (Some 0) (Some KEY_LENGTH));
            header_rs := rs;
            header_keyid :=
              Some (Buffer_toString (Buffer_slice buffer (Some 21) (Some (21 + idsz))));
            header_key := decode_opt (obj_field params params_key);
            header_dh := decode_opt (obj_field params params_dh);
            header_authSecret := decode_opt (obj_field params params_authSecret) |}
  end.

Definition parseParams (params : params) : outcome header :=
  let type :=
    match params_padSize params with
    | JNumber 1 => aesgcm128
    | _ => aesgcm
    end in
  salt ← (if truthy (params_salt params)
          then Some <$> extractSalt (params_salt params)
          else Ok None);
  rs ← determineRecordSize (params_rs params) type;
  Ok {| header_type := type;
        header_salt := salt;
        header_rs := rs;
        header_keyid := params_keyid params;
        header_key := decode_opt (params_key params);
        header_dh := decode_opt (params_dh params);
        header_authSecret := decode_opt (params_authSecret params) |}.

(* ================================================================== *)
(** * Record codec *)

Definition decryptRecord (key : key_and_nonce) (counter : Z) (buffer : bytes)
    (header : header) : outcome bytes :=
  nonce ← generateNonce (kn_nonce key) counter;
  let tag := Buffer_slice buffer (Some (blen buffer - TAG_LENGTH)) None in
  let body := Buffer_slice buffer (Some 0) (Some (blen buffer - TAG_LENGTH)) in
  match gcm_decrypt (kn_key key) nonce body tag with
  | None => Err AuthenticationFailed
  | Some data =>
      let padSize := PAD_SIZE (header_type header) in
      pad ← readUIntBE data 0 padSize;
      if blen data <? pad + padSize then Err PaddingExceedsBlock
      else
        padCheck ← Buffer_zeroed pad;
        if negb (Buffer_compare padCheck
                   (Buffer_slice data (Some padSize) (Some (padSize + pad))) =? 0)
        then Err InvalidPadding
        else Ok (Buffer_slice data (Some (padSize + pad)) None)
  end.

(** The local [padding] of [encryptRecord]: [pad + padSize] zero bytes with
    the pad count written over the first [padSize] of them. *)
Definition record_padding (pad padSize : Z) : outcome bytes :=
  padding ← Buffer_zeroed (pad + padSize);
  writeUIntBE padding pad 0 padSize.

Definition encryptRecord (key : key_and_nonce) (counter : Z) (buffer : bytes)
    (pad padSize : Z) : outcome bytes :=
  nonce ← generateNonce (kn_nonce key) counter;
  padding ← record_padding pad padSize;
  let '(encrypted, tag) := gcm_encrypt (kn_key key) nonce (padding ++ buffer) in
  if negb (blen tag =? TAG_LENGTH) then Err InvalidTag
  else Ok (encrypted ++ tag).

(* ================================================================== *)
(** * Framing *)

(** The [for] loop of [decrypt]; [i], [start] and [result] are its
    variables. *)
Fixpoint decrypt_loop (fuel : nat) (key : key_and_nonce) (header : header)
    (buffer : bytes) (i start : Z) (result : bytes) : outcome bytes :=
  if start <? blen buffer then
    match fuel with
    | O => Err OutOfFuel
    | S fuel' =>
        let end_ := start + header_rs header + TAG_LENGTH in
        if end_ =? blen buffer then Err TruncatedPayload
        else
          let end_ := Z.min end_ (blen buffer) in
          if end_ - start <=? TAG_LENGTH then Err (BlockTooSmall i)
          else
            block ← decryptRecord key i
                      (Buffer_slice buffer (Some start) (Some end_)) header;
            decrypt_loop fuel' key header buffer (i + 1) end_ (result ++ block)
    end
  else Ok result.

Definition decrypt (ks : keystore) (buffer : bytes) (params : params)
  : outcome bytes :=
  header ← (if truthy (params_salt params)
            then parseParams params
            else readHeader (OBuffer buffer) (OParams params));
  key ← deriveKeyAndNonce ks header MODE_DECRYPT;
  let buffer := Buffer_slice buffer (header_len header) None in
  decrypt_loop (S (length buffer)) key header buffer 0 0 [].

Definition encodeHeader (header : header) : outcome bytes :=
  let ints := repeat x00 5 in
  let keyid := utf8_bytes (if truthy (header_keyid header)
                           then prop_key (header_keyid header) else "") in
  if 255 <? blen keyid then Err KeyidTooLarge
  else
    ints ← writeUIntBE ints (header_rs header) 0 4;
    ints ← writeUIntBE ints (blen keyid) 4 1;
    match header_salt header with
    | None => Err TypeError
    | Some salt => Ok (salt ++ ints ++ keyid)
    end.

(** The [for] loop of [encrypt]; [i], [start], [pad] and [result] are its
    variables.  It hands back the pad budget that is left with the output. *)
Fixpoint encrypt_loop (fuel : nat) (key : key_and_nonce) (rs padSize : Z)
    (buffer : bytes) (i start pad : Z) (result : bytes) : outcome (Z * bytes) :=
  if start <=? blen buffer then
    match fuel with
    | O => Err OutOfFuel
    | S fuel' =>
        let recordPad := Z.min (js_shl 1 (padSize * 8) - 1)
                               (Z.min (rs - padSize - 1) pad) in
        let pad := pad - recordPad in
        let end_ := Z.min (start + rs - padSize - recordPad) (blen buffer) in
        block ← encryptRecord key i (Buffer_slice buffer (Some start) (Some end_))
                  recordPad padSize;
        encrypt_loop fuel' key rs padSize buffer (i + 1)
          (start + (rs - padSize - recordPad)) pad (result ++ block)
    end
  else Ok (pad, result).

(** The loop of [encrypt] with the check that follows it. *)
Definition encrypt_records (key : key_and_nonce) (rs padSize : Z) (buffer : bytes)
    (pad : Z) (result : bytes) : outcome bytes :=
  let start := 0 in
  '(pad, result) ← encrypt_loop (S (S (length buffer))) key rs padSize buffer
                     0 start pad result;
  if negb (pad =? 0) then Err (UnableToPad pad) else Ok result.

(** [encrypt]; [random] stands for the bytes that
    [crypto.randomBytes(KEY_LENGTH)] returns in this call. *)
Definition encrypt (ks : keystore) (random : bytes) (buffer : bytes)
    (params : params) : outcome bytes :=
  header ← parseParams params;
  '(header, result) ←
    (if truthy (params_salt params) then Ok (header, [])
     else
       let header :=
         {| header_type := aes128gcm;
            header_salt := Some random;
            header_rs := header_rs header;
            header_keyid := header_keyid header;
            header_key := header_key header;
            header_dh := header_dh header;
            header_authSecret := header_authSecret header |} in
       result ← encodeHeader header;
       Ok (header, result));
  rs ← determineRecordSize (params_rs params) (header_type header);
  let header :=
    {| header_type := header_type header;
       header_salt := header_salt header;
       header_rs := rs;
       header_keyid := header_keyid header;
       header_key := header_key header;
       header_dh := header_dh header;
       header_authSecret := header_authSecret header |} in
  key ← deriveKeyAndNonce ks header MODE_ENCRYPT;
  let padSize := PAD_SIZE (header_type header) in
  let pad := match parseInt (params_pad params) with
             | None => 0
             | Some pad => pad
             end in
  encrypt_records key (header_rs header) padSize buffer pad result.

(** ** The framing as the specification words it *)

(** The records of an encryption: where each starts in the plaintext and
    how much padding it gets, from the position [start] and the pad budget
    [remaining] on; [leftover] is the budget that no record took. *)
Inductive spec_records (rs padSize len : Z)
  : Z -> Z -> list (Z * Z) -> Z -> Prop :=
| spec_records_done start remaining :
    len < start ->
    spec_records rs padSize len start remaining [] remaining
| spec_records_next start remaining recordPad records leftover :
    start <= len ->
    recordPad = Z.min (2 ^ (8 * padSize) - 1) (Z.min (rs - padSize - 1) remaining) ->
    spec_records rs padSize len (start + (rs - padSize - recordPad))
      (remaining - recordPad) records leftover ->
    spec_records rs padSize len start remaining ((start, recordPad) :: records) leftover.

(** Sealing the records of such a list one after the other, numbered from
    [i], behind what is already in [result]. *)
Fixpoint seal_records (key : key_and_nonce) (rs padSize : Z) (buffer : bytes)
    (i : Z) (records : list (Z * Z)) (result : bytes) : outcome bytes :=
  match records with
  | [] => Ok result
  | (start, recordPad) :: records' =>
      let end_ := Z.min (start + rs - padSize - recordPad) (blen buffer) in
      block ← encryptRecord key i (Buffer_slice buffer (Some start) (Some end_))
                recordPad padSize;
      seal_records key rs padSize buffer (i + 1) records' (result ++ block)
  end.

(** The decrypt loop walks from one state to another over full records
    that decrypt: each is [rs + TAG_LENGTH] long and ends before the end of
    the buffer. *)
Inductive walks (key : key_and_nonce) (header : header) (buffer : bytes)
  : Z -> Z -> bytes -> Z -> Z -> bytes -> Prop :=
| walks_here i start result :
    walks key header buffer i start result i start result
| walks_record i start result block i' start' result' :
    0 < header_rs header ->
    start + header_rs header + TAG_LENGTH < blen buffer ->
    decryptRecord key i
      (Buffer_slice buffer (Some start)
         (Some (start + header_rs header + TAG_LENGTH))) header = Ok block ->
    walks key header buffer (i + 1) (start + header_rs header + TAG_LENGTH)
      (result ++ block) i' start' result' ->
    walks key header buffer i start result i' start' result'.

(** Modelled from the spec: the delimiter of section 4.7, the high bit of
    the first padding byte of a record; the source has no such notion. *)
Definition delimiter_set (record : bytes) : bool :=
  match record with
  | b :: _ => Z.testbit (Z_of_byte b) 7
  | [] => false
  end.

(* ================================================================== *)
(** * Key store *)

(** [saveKey(id, key, dhLabel)]: the store after the call and the
    exception, if the call throws; an absent or empty label is falsy.  The
    second assignment is not reached when the first one throws. *)
Definition saveKey (ks : keystore) (id : string) (key : keyval)
    (dhLabel : option string) : keystore * option error :=
  let '(savedKeys', thrown) := assign (fun v => v) RawKey (savedKeys ks) id key in
  match thrown with
  | Some e => ({| savedKeys := savedKeys'; keyLabels := keyLabels ks |}, Some e)
  | None =>
      if truthy dhLabel then
        let '(keyLabels', thrown) :=
          assign RawKey (fun b => b) (keyLabels ks) id
            (ascii_bytes (prop_key dhLabel ++ String zero EmptyString)) in
        ({| savedKeys := savedKeys'; keyLabels := keyLabels' |}, thrown)
      else ({| savedKeys := savedKeys'; keyLabels := keyLabels ks |}, None)
  end.

End Ece.

(* ================================================================== *)
(** * A small instance of the collaborators

    Stand-ins with the shape of the real primitives, on which the embedding
    can be run: a keyed digest of 32 bytes, a cipher that keeps the length
    of its input and produces a 16-byte tag, a base64url decoder, and a
    key agreement in which both sides reach the same secret. *)

Definition demo_hmac (key input : bytes) : bytes :=
  take 32 (input ++ key ++ repeat x00 32).

Definition demo_tag (key nonce : bytes) : bytes :=
  take 16 (nonce ++ key ++ repeat x00 16).

Definition demo_gcm_encrypt (key nonce plaintext : bytes) : bytes * bytes :=
  (map (xor_byte x2a) plaintext, demo_tag key nonce).

Definition demo_gcm_decrypt (key nonce body tag : bytes) : option bytes :=
  if Buffer_compare tag (demo_tag key nonce) =? 0
  then Some (map (xor_byte x2a) body)
  else None.

(** The value of a character of the base64 alphabets (standard and
    URL-safe), [None] for any other character. *)
Definition base64_value (c : ascii) : option Z :=
  let n := Z.of_nat (nat_of_ascii c) in
  if (65 <=? n) && (n <=? 90) then Some (n - 65)
  else if (97 <=? n) && (n <=? 122) then Some (n - 71)
  else if (48 <=? n) && (n <=? 57) then Some (n + 4)
  else if (n =? 45) || (n =? 43) then Some 62
  else if (n =? 95) || (n =? 47) then Some 63
  else None.

Fixpoint base64_sextets (s : string) : list Z :=
  match s with
  | EmptyString => []
  | String c s' =>
      match base64_value c with
      | Some v => v :: base64_sextets s'
      | None => base64_sextets s'
      end
  end.

Fixpoint base64_groups (l : list Z) : bytes :=
  match l with
  | a :: b :: c :: d :: l' =>
      be_encode 3 (((a * 64 + b) * 64 + c) * 64 + d) ++ base64_groups l'
  | [a; b; c] => be_encode 2 (Z.shiftr ((a * 64 + b) * 64 + c) 2)
  | [a; b] => be_encode 1 (Z.shiftr (a * 64 + b) 4)
  | _ => []
  end.

Definition demo_base64_decode (s : string) : bytes :=
  base64_groups (base64_sextets s).

(** What the stand-in runtime finds on a prototype chain: on that of a
    Buffer the methods that the module itself calls on Buffers, on that of
    an ECDH handle the methods of a key pair, and on each the names of
    [Object.prototype]. *)
Definition demo_methods (p : keyval_of bytes) : list string :=
  match p with
  | RawKey _ => ["readUIntBE"; "writeUIntBE"; "slice"; "compare"; "fill"]
  | ECDHKey _ => ["generateKeys"; "computeSecret"; "getPublicKey";
                  "getPrivateKey"; "setPublicKey"; "setPrivateKey"]
  | Foreign => []
  end.

Definition demo_inherited (p : keyval_of bytes) (name : string)
  : outcome (option (keyval_of bytes)) :=
  Ok (if existsb (String.eqb name) (demo_methods p) || inherits_from_Object name
      then Some Foreign else None).

#[global] Instance demo_crypto : Crypto := {|
  ecdh := bytes;
  HMAC_SHA256 := demo_hmac;
  gcm_encrypt := demo_gcm_encrypt;
  gcm_decrypt := demo_gcm_decrypt;
  base64_decode := demo_base64_decode;
  Buffer_toString := string_of_list_byte;
  getPublicKey := fun k => k;
  computeSecret := fun k share => Some (xor_bytes k share);
  inherited := demo_inherited;
  assign_through := fun _ _ _ => AssignOwn
|}.

(** ** Inputs on which the embedding is run *)

Definition demo_store : keystore := {| savedKeys := ∅; keyLabels := ∅ |}.

Definition demo_params (salt : option string) (rs pad padSize : jsval) : params :=
  {| params_salt := salt;
     params_rs := rs;
     params_keyid := None;
     params_key := Some "AAECAwQFBgcICQoLDA0ODw";
     params_dh := None;
     params_authSecret := None;
     params_pad := pad;
     params_padSize := padSize |}.

Definition demo_salt : option string := Some "EBESExQVFhcYGRobHB0eHw".

Definition demo_kn : key_and_nonce :=
  {| kn_key := repeat x01 16; kn_nonce := repeat x02 12 |}.

Definition demo_header (type : variant) (rs : Z) : header :=
  {| header_type := type; header_salt := None; header_rs := rs;
     header_keyid := None; header_key := None; header_dh := None;
     header_authSecret := None |}.

(** A sealed [aesgcm] record: pad count 1, one zero byte, the data "A". *)
Definition demo_record : bytes :=
  map (xor_byte x2a) [x00; x01; x00; x41] ++ demo_tag (repeat x01 16) (repeat x02 12).

Definition ok_or {A : Type} (d : A) (r : outcome A) : A :=
  match r with Ok a => a | Err _ => d end.

Definition demo_parsed (p : params) : header :=
  ok_or (demo_header aesgcm 0) (parseParams (H := demo_crypto) p).

Definition demo_derived (p : params) (m : mode) : key_and_nonce :=
  ok_or demo_kn (deriveKeyAndNonce (H := demo_crypto) demo_store (demo_parsed p) m).

Definition demo_legacy : params := demo_params demo_salt (JNumber 4) (JNumber 1) JUndefined.

Definition demo_modern : params := demo_params None (JNumber 4096) JUndefined JUndefined.

Definition demo_modern_ciphertext : bytes :=
  ok_or [] (encrypt (H := demo_crypto) demo_store (repeat x07 16) [x41; x42] demo_modern).

Definition demo_auth_header : header :=
  {| header_type := aesgcm;
     header_salt := Some (repeat x03 16);
     header_rs := 4096;
     header_keyid := None;
     header_key := Some (repeat x01 16);
     header_dh := None;
     header_authSecret := Some (repeat x41 16) |}.


Definition demo_labelled : keystore (H := demo_crypto) :=
  fst (saveKey (H := demo_crypto) demo_store "k" (ECDHKey [x05]) (Some "P-256")).

(** The key identifier as [encodeHeader] writes it. *)
Definition keyid_bytes (h : header) : bytes :=
  utf8_bytes (if truthy (header_keyid h) then prop_key (header_keyid h) else "").

(** Three bytes of plaintext: with [demo_legacy] ([rs = 4], one byte of
    padding) they make three records. *)
Definition demo_message : bytes := [x41; x42; x43].

(** Two parties: Alice holds the key pair [x01 x02 x03], Bob [x04 x05 x06];
    in the small instance a public key is the key itself. *)
Definition demo_alice : keystore (H := demo_crypto) :=
  fst (saveKey (H := demo_crypto) demo_store "alice"
         (ECDHKey [x01; x02; x03]) (Some "P-256")).

Definition demo_bob : keystore (H := demo_crypto) :=
  fst (saveKey (H := demo_crypto) demo_store "bob"
         (ECDHKey [x04; x05; x06]) (Some "P-256")).

Definition demo_dh_params (keyid dh : string) : params :=
  {| params_salt := demo_salt;
     params_rs := JNumber 4;
     params_keyid := Some keyid;
     params_key := None;
     params_dh := Some dh;
     params_authSecret := Some "c2VjcmV0";
     params_pad := JNumber 1;
     params_padSize := JUndefined |}.

Definition demo_to_bob : params := demo_dh_params "alice" "BAUG".

Definition demo_from_alice : params := demo_dh_params "bob" "AQID".

Definition demo_dh_key : key_and_nonce :=
  ok_or demo_kn (deriveKeyAndNonce (H := demo_crypto) demo_alice
                   (demo_parsed demo_to_bob) MODE_ENCRYPT).

(** A header that asks for the key saved as ["getPublicKey"]. *)
Definition demo_method_header : header :=
  {| header_type := aesgcm;
     header_salt := Some (repeat x03 16);
     header_rs := 4096;
     header_keyid := Some "getPublicKey";
     header_key := None;
     header_dh := None;
     header_authSecret := None |}.

(** A header that asks for a key under the name of a function that every
    object inherits. *)
Definition demo_inherited_header : header :=
  {| header_type := aesgcm;
     header_salt := Some (repeat x03 16);
     header_rs := 4096;
     header_keyid := Some "constructor";
     header_key := None;
     header_dh := None;
     header_authSecret := None |}.

(** Parameters for [aes128gcm] that name the key ["a1"]. *)
Definition demo_named : params :=
  {| params_salt := None;
     params_rs := JNumber 4096;
     params_keyid := Some "a1";
     params_key := Some "AAECAwQFBgcICQoLDA0ODw";
     params_dh := None;
     params_authSecret := None;
     params_pad := JUndefined;
     params_padSize := JUndefined |}.

Definition demo_named_ciphertext : bytes :=
  ok_or [] (encrypt (H := demo_crypto) demo_store (repeat x07 16) [x41; x42] demo_named).

Definition demo_keyid_header : header :=
  {| header_type := aesgcm;
     header_salt := Some (repeat x03 16);
     header_rs := 4096;
     header_keyid := Some "k1";
     header_key := None;
     header_dh := None;
     header_authSecret := None |}.

(* ================================================================== *)
(** * Properties *)

(** ** Bytes *)

Lemma Z_of_byte_range (b : byte) : 0 <= Z_of_byte b < 256.
Proof.
  unfold Z_of_byte. pose proof (Byte.to_N_bounded b). lia.
Qed.

Lemma Z_of_byte_of_Z (z : Z) : Z_of_byte (byte_of_Z z) = z mod 256.
Proof.
  unfold Z_of_byte, byte_of_Z.
  pose proof (Z.mod_pos_bound z 256 ltac:(lia)) as Hr.
  destruct (Byte.of_N (Z.to_N (z mod 256))) as [b|] eqn:E.
  - apply Byte.to_of_N in E. rewrite E. lia.
  - apply Byte.of_N_None_iff in E. lia.
Qed.

Lemma byte_of_Z_of_byte (b : byte) : byte_of_Z (Z_of_byte b) = b.
Proof.
  unfold byte_of_Z, Z_of_byte.
  pose proof (Byte.to_N_bounded b).
  rewrite Z.mod_small by lia.
  rewrite N2Z.id, Byte.of_to_N. reflexivity.
Qed.

Lemma Z_of_byte_inj (a b : byte) : Z_of_byte a = Z_of_byte b -> a = b.
Proof.
  intros E. rewrite <- (byte_of_Z_of_byte a), <- (byte_of_Z_of_byte b).
  now rewrite E.
Qed.

Lemma byte_of_Z_mod (z : Z) : byte_of_Z (z mod 256) = byte_of_Z z.
Proof.
  unfold byte_of_Z. now rewrite Z.mod_mod by lia.
Qed.

Lemma blen_nonneg (b : bytes) : 0 <= blen b.
Proof. unfold blen. lia. Qed.

Lemma blen_app (a b : bytes) : blen (a ++ b) = blen a + blen b.
Proof. unfold blen. rewrite length_app. lia. Qed.

Lemma be_encode_length (n : nat) (v : Z) : length (be_encode n v) = n.
Proof. induction n; simpl; congruence. Qed.

(** ** Big-endian fields and XOR *)

Lemma mod256_lxor (x y : Z) :
  Z.lxor x y mod 256 = Z.lxor (x mod 256) (y mod 256) mod 256.
Proof.
  change 256 with (2 ^ 8).
  apply Z.bits_inj'. intros n Hn.
  rewrite !Z.testbit_mod_pow2, !Z.lxor_spec, !Z.testbit_mod_pow2 by lia.
  destruct (n <? 8); reflexivity.
Qed.

Lemma byte_of_Z_lxor (x y : Z) :
  byte_of_Z (Z.lxor x y) = xor_byte (byte_of_Z x) (byte_of_Z y).
Proof.
  unfold xor_byte. apply Z_of_byte_inj.
  rewrite !Z_of_byte_of_Z. apply mod256_lxor.
Qed.

Lemma be_encode_lxor (n : nat) (a b : Z) :
  be_encode n (Z.lxor a b) = xor_bytes (be_encode n a) (be_encode n b).
Proof.
  induction n as [|n IH]; simpl; [reflexivity|].
  rewrite Z.shiftr_lxor, byte_of_Z_lxor, IH. reflexivity.
Qed.

Lemma be_encode_high (k : nat) (c v : Z) :
  be_encode k (c * 2 ^ (8 * Z.of_nat k) + v) = be_encode k v.
Proof.
  revert c. induction k as [|k IH]; intros c; simpl be_encode; [reflexivity|].
  f_equal.
  - rewrite !Z.shiftr_div_pow2 by lia.
    replace (8 * Z.of_nat (S k)) with (8 + 8 * Z.of_nat k) by lia.
    rewrite Z.pow_add_r by lia.
    replace (c * (2 ^ 8 * 2 ^ (8 * Z.of_nat k)) + v)
      with (v + (c * 2 ^ 8) * 2 ^ (8 * Z.of_nat k)) by ring.
    rewrite Z.div_add by (apply Z.pow_nonzero; lia).
    rewrite <- byte_of_Z_mod. change (2 ^ 8) with 256.
    rewrite Z.mod_add by lia. apply byte_of_Z_mod.
  - replace (8 * Z.of_nat (S k)) with (8 + 8 * Z.of_nat k) by lia.
    rewrite Z.pow_add_r by lia.
    replace (c * (2 ^ 8 * 2 ^ (8 * Z.of_nat k)) + v)
      with ((c * 2 ^ 8) * 2 ^ (8 * Z.of_nat k) + v) by ring.
    apply IH.
Qed.

Lemma be_decode_acc (l : bytes) (acc : Z) :
  fold_left (fun a b => a * 256 + Z_of_byte b) l acc
  = acc * 2 ^ (8 * Z.of_nat (length l)) + be_decode l.
Proof.
  unfold be_decode. revert acc.
  induction l as [|b l IH]; intros acc; simpl fold_left.
  - simpl. lia.
  - rewrite IH, (IH (0 * 256 + Z_of_byte b)).
    replace (8 * Z.of_nat (length (b :: l))) with (8 + 8 * Z.of_nat (length l))
      by (simpl length; lia).
    rewrite Z.pow_add_r by lia. change (2 ^ 8) with 256. ring.
Qed.

Lemma be_decode_cons (b : byte) (l : bytes) :
  be_decode (b :: l) = Z_of_byte b * 2 ^ (8 * Z.of_nat (length l)) + be_decode l.
Proof.
  unfold be_decode at 1. simpl fold_left. rewrite be_decode_acc. lia.
Qed.

Lemma be_decode_range (l : bytes) :
  0 <= be_decode l < 2 ^ (8 * Z.of_nat (length l)).
Proof.
  induction l as [|b l IH].
  - unfold be_decode. simpl. lia.
  - rewrite be_decode_cons.
    replace (8 * Z.of_nat (length (b :: l))) with (8 + 8 * Z.of_nat (length l))
      by (simpl length; lia).
    rewrite Z.pow_add_r by lia. change (2 ^ 8) with 256.
    pose proof (Z_of_byte_range b). nia.
Qed.

Lemma be_encode_decode (l : bytes) : be_encode (length l) (be_decode l) = l.
Proof.
  induction l as [|b l IH]; [reflexivity|].
  simpl length. simpl be_encode. rewrite be_decode_cons. f_equal.
  - rewrite Z.shiftr_div_pow2 by lia.
    pose proof (be_decode_range l) as Hr.
    rewrite Z.add_comm, Z.div_add by (apply Z.pow_nonzero; lia).
    rewrite Z.div_small by lia. apply byte_of_Z_of_byte.
  - rewrite be_encode_high. exact IH.
Qed.

(** ** The nonce arithmetic *)

Lemma toInt32_small (z : Z) : - 2 ^ 31 <= z < 2 ^ 31 -> toInt32 z = z.
Proof. intros Hz. unfold toInt32. rewrite Z.mod_small; lia. Qed.

Lemma toInt32_testbit (z n : Z) :
  0 <= n < 32 -> Z.testbit (toInt32 z) n = Z.testbit z n.
Proof.
  intros Hn.
  rewrite <- (Z.mod_pow2_bits_low (toInt32 z) 32 n), <- (Z.mod_pow2_bits_low z 32 n) by lia.
  f_equal. unfold toInt32.
  rewrite Zminus_mod, Z.mod_mod by lia.
  rewrite <- Zminus_mod. f_equal. lia.
Qed.

Lemma lxor_mod_pow2 (a b k : Z) :
  0 <= k -> Z.lxor a b mod 2 ^ k = Z.lxor (a mod 2 ^ k) (b mod 2 ^ k).
Proof.
  intros Hk. apply Z.bits_inj'. intros n Hn.
  rewrite Z.lxor_spec, !Z.testbit_mod_pow2, Z.lxor_spec by lia.
  destruct (n <? k); reflexivity.
Qed.

Lemma lxor_range (a b k : Z) :
  0 <= k -> 0 <= a < 2 ^ k -> 0 <= b < 2 ^ k -> 0 <= Z.lxor a b < 2 ^ k.
Proof.
  intros Hk Ha Hb.
  rewrite <- (Z.mod_small a (2 ^ k)), <- (Z.mod_small b (2 ^ k)) by lia.
  rewrite <- lxor_mod_pow2 by lia.
  apply Z.mod_pos_bound. apply Z.pow_pos_nonneg; lia.
Qed.

Lemma nonce_xor_arith (m i : Z) :
  0 <= m < 2 ^ 48 -> 0 <= i < 2 ^ 48 ->
  js_and (js_xor m i) 0xffffff +
  js_and (js_xor (js_div_trunc m 0x1000000) (js_div_trunc i 0x1000000)) 0xffffff
    * 0x1000000
  = Z.lxor m i.
Proof.
  intros Hm Hi.
  assert (Hq : forall a, 0 <= a < 2 ^ 48 -> 0 <= a / 2 ^ 24 < 2 ^ 24).
  { intros a Ha. split; [apply Z.div_pos; lia|]. apply Z.div_lt_upper_bound; lia. }
  unfold js_and, js_xor, js_div_trunc.
  rewrite !Z.quot_div_nonneg by lia.
  change 0x1000000 with (2 ^ 24).
  replace (toInt32 0xffffff) with (Z.ones 24) by reflexivity.
  pose proof (Hq m Hm) as Hqm. pose proof (Hq i Hi) as Hqi.
  rewrite !Z.land_ones by lia.
  rewrite (toInt32_small (m / 2 ^ 24)), (toInt32_small (i / 2 ^ 24)) by lia.
  pose proof (lxor_range (m / 2 ^ 24) (i / 2 ^ 24) 24 ltac:(lia) Hqm Hqi) as Hhi.
  rewrite (toInt32_small (Z.lxor (m / 2 ^ 24) (i / 2 ^ 24))) by lia.
  rewrite (Z.mod_small (Z.lxor (m / 2 ^ 24) (i / 2 ^ 24))) by lia.
  rewrite <- !Z.shiftr_div_pow2, <- Z.shiftr_lxor, Z.shiftr_div_pow2 by lia.
  assert (Hlo : toInt32 (Z.lxor (toInt32 m) (toInt32 i)) mod 2 ^ 24
                = Z.lxor m i mod 2 ^ 24).
  { apply Z.bits_inj'. intros n Hn.
    rewrite !Z.testbit_mod_pow2 by lia.
    destruct (Z.ltb_spec n 24) as [Hlt|Hge]; [|reflexivity].
    simpl andb.
    rewrite toInt32_testbit, !Z.lxor_spec, !toInt32_testbit by lia.
    reflexivity. }
  rewrite Hlo.
  pose proof (Z.div_mod (Z.lxor m i) (2 ^ 24) ltac:(lia)). lia.
Qed.

Lemma take_drop_all {A} (l : list A) (n k : nat) :
  length l = (n + k)%nat -> take k (drop n l) = drop n l.
Proof. intros Hl. apply take_ge. rewrite length_drop. lia. Qed.

(** ** Buffer reads and writes within range *)

Lemma readUIntBE_ok (b : bytes) (offset byteLength : Z) :
  0 <= offset -> offset + byteLength <= blen b ->
  readUIntBE b offset byteLength
  = Ok (be_decode (take (Z.to_nat byteLength) (drop (Z.to_nat offset) b))).
Proof.
  intros Ho Hl. unfold readUIntBE.
  destruct (Z.ltb_spec offset 0); [lia|].
  destruct (Z.ltb_spec (blen b) (offset + byteLength)); [lia|]. reflexivity.
Qed.

Lemma writeUIntBE_ok (b : bytes) (value offset byteLength : Z) :
  0 <= value < 2 ^ (8 * byteLength) ->
  0 <= offset -> offset + byteLength <= blen b ->
  writeUIntBE b value offset byteLength
  = Ok (take (Z.to_nat offset) b ++ be_encode (Z.to_nat byteLength) value
          ++ drop (Z.to_nat (offset + byteLength)) b).
Proof.
  intros Hv Ho Hl. unfold writeUIntBE.
  destruct (Z.ltb_spec value 0); [lia|].
  destruct (Z.leb_spec (2 ^ (8 * byteLength)) value); [lia|].
  destruct (Z.ltb_spec offset 0); [lia|].
  destruct (Z.ltb_spec (blen b) (offset + byteLength)); [lia|]. reflexivity.
Qed.

(** The nonce as a number: the last six bytes hold the XOR of their
    big-endian value with the counter. *)
Lemma generateNonce_lxor (base : bytes) (i : Z) :
  length base = 12%nat ->
  0 <= i < 2 ^ 48 ->
  generateNonce base i
  = Ok (take 6 base ++ be_encode 6 (Z.lxor (be_decode (drop 6 base)) i)).
Proof.
  intros Hlen Hi.
  assert (Hb : blen base = 12) by (unfold blen; lia).
  unfold generateNonce. rewrite Hb. change (12 - 6) with 6.
  rewrite readUIntBE_ok by lia. cbn [mbind outcome_bind].
  change (Z.to_nat 6) with 6%nat.
  rewrite (take_drop_all base 6 6) by lia.
  pose proof (be_decode_range (drop 6 base)) as Hm.
  rewrite length_drop, Hlen in Hm. change (8 * Z.of_nat (12 - 6)) with 48 in Hm.
  rewrite nonce_xor_arith by lia.
  pose proof (lxor_range _ _ 48 ltac:(lia) Hm Hi) as Hx.
  rewrite writeUIntBE_ok by (change (8 * 6) with 48; lia).
  f_equal. f_equal.
  change (Z.to_nat 6) with 6%nat. change (Z.to_nat (6 + 6)) with 12%nat.
  rewrite (drop_ge base 12) by lia. now rewrite app_nil_r.
Qed.

(** C3.  For a 12-byte nonce base and a record counter [i] below 2^48,
    [generateNonce] returns the base with its first 6 bytes unchanged and
    its last 6 bytes XORed with the 6-byte big-endian encoding of [i]: the
    arithmetic on two 24-bit halves is the byte-wise XOR. *)
Theorem generateNonce_xor (base : bytes) (i : Z) :
  length base = 12%nat ->
  0 <= i < 2 ^ 48 ->
  generateNonce base i
  = Ok (take 6 base ++ xor_bytes (drop 6 base) (be_encode 6 i)).
Proof.
  intros Hlen Hi. rewrite generateNonce_lxor by assumption.
  do 2 f_equal. rewrite (be_encode_lxor 6). f_equal.
  pose proof (be_encode_decode (drop 6 base)) as E.
  rewrite length_drop, Hlen in E. exact E.
Qed.

Lemma generateNonce_xor_witness :
  length (repeat xff 12) = 12%nat /\ 0 <= 258 < 2 ^ 48 /\
  generateNonce (repeat xff 12) 258
  = Ok (take 6 (repeat xff 12) ++ xor_bytes (drop 6 (repeat xff 12)) (be_encode 6 258)).
Proof.
  split; [reflexivity|]. split; [lia|].
  apply generateNonce_xor; [reflexivity|lia].
Defined.

(** ** Slices *)

Lemma Buffer_slice_range (b : bytes) (s e : Z) :
  0 <= s -> 0 <= e ->
  Buffer_slice b (Some s) (Some e) = take (Z.to_nat (e - s)) (drop (Z.to_nat s) b).
Proof.
  intros Hs He. unfold Buffer_slice, slice_index.
  destruct (Z.ltb_spec s 0); [lia|]. destruct (Z.ltb_spec e 0); [lia|].
  unfold blen.
  destruct (Z.le_gt_cases s (Z.of_nat (length b))) as [Hsl|Hsl].
  - rewrite (Z.min_l s) by lia.
    destruct (Z.le_gt_cases e (Z.of_nat (length b))) as [Hel|Hel].
    + rewrite (Z.min_l e) by lia. reflexivity.
    + rewrite (Z.min_r e) by lia.
      rewrite !take_ge; [reflexivity| |]; rewrite length_drop; lia.
  - rewrite (Z.min_r s) by lia. rewrite Nat2Z.id.
    rewrite !drop_ge by lia. now rewrite !take_nil.
Qed.

Lemma Buffer_slice_from (b : bytes) (s : Z) :
  0 <= s -> Buffer_slice b (Some s) None = drop (Z.to_nat s) b.
Proof.
  intros Hs. unfold Buffer_slice, slice_index.
  destruct (Z.ltb_spec s 0); [lia|]. unfold blen.
  destruct (Z.le_gt_cases s (Z.of_nat (length b))) as [Hsl|Hsl].
  - rewrite (Z.min_l s) by lia. apply take_ge. rewrite length_drop. lia.
  - rewrite (Z.min_r s) by lia. rewrite Nat2Z.id.
    rewrite !drop_ge by lia. now rewrite take_nil.
Qed.

(** ** HKDF *)

Section HKDF.
Context `{Crypto}.
Hypothesis HMAC_length : forall key input, length (HMAC_SHA256 key input) = 32%nat.

Lemma spec_T_concat_length prk info n :
  length (spec_T_concat prk info n) = (32 * n)%nat.
Proof using HMAC_length.
  induction n as [|n IH]; [reflexivity|].
  cbn [spec_T_concat spec_T]. rewrite length_app, IH, HMAC_length. lia.
Qed.

Lemma spec_T_concat_prefix prk info c n :
  (c <= n)%nat ->
  exists rest, spec_T_concat prk info n = spec_T_concat prk info c ++ rest.
Proof.
  induction 1 as [|n Hle [rest IH]].
  - exists []. now rewrite app_nil_r.
  - exists (rest ++ spec_T prk info (S n)).
    cbn [spec_T_concat]. rewrite IH. now rewrite app_assoc.
Qed.

Lemma HKDF_expand_loop_spec prk info l n fuel c :
  (n <= 255)%nat -> l <= 32 * Z.of_nat n -> (c <= n)%nat -> (n - c < fuel)%nat ->
  exists c', (c <= c' <= n)%nat /\ l <= 32 * Z.of_nat c' /\
    HKDF_expand_loop fuel prk info l (spec_T_concat prk info c) (spec_T prk info c)
      (Z.of_nat c)
    = Ok (spec_T_concat prk info c').
Proof using HMAC_length.
  intros Hn Hl. revert c.
  induction fuel as [|fuel IH]; intros c Hc Hfuel; [lia|].
  cbn [HKDF_expand_loop].
  unfold blen at 1. rewrite spec_T_concat_length.
  destruct (Z.ltb_spec (Z.of_nat (32 * c)) l) as [Hlt|Hge].
  - assert (c < n)%nat by lia.
    rewrite writeUIntBE_ok by (unfold blen; simpl; lia).
    cbn [mbind outcome_bind].
    change (Z.to_nat 0) with 0%nat. change (Z.to_nat 1) with 1%nat.
    change (Z.to_nat (0 + 1)) with 1%nat.
    cbn [take drop be_encode app].
    change (8 * Z.of_nat 0) with 0. rewrite Z.shiftr_0_r.
    replace (Z.of_nat c + 1) with (Z.of_nat (S c)) by lia.
    destruct (IH (S c) ltac:(lia) ltac:(lia)) as (c' & Hc' & Hl' & E).
    exists c'. split; [lia|]. split; [exact Hl'|].
    rewrite <- E. reflexivity.
  - exists c. split; [lia|]. split; [lia|]. reflexivity.
Qed.

Lemma HKDF_expand_blocks prk info l n :
  0 <= l -> l <= 32 * Z.of_nat n -> (n <= 255)%nat ->
  HKDF_expand prk info l = Ok (take (Z.to_nat l) (spec_T_concat prk info n)).
Proof using HMAC_length.
  intros Hl0 Hl Hn. unfold HKDF_expand.
  destruct (HKDF_expand_loop_spec prk info l n 256 0 Hn Hl ltac:(lia) ltac:(lia))
    as (c' & Hc' & Hl' & E).
  change (HKDF_expand_loop 256 prk info l [] [] 0 = Ok (spec_T_concat prk info c')) in E.
  rewrite E. cbn [mbind outcome_bind]. f_equal.
  rewrite Buffer_slice_range by lia.
  rewrite Z.sub_0_r. cbn [Z.to_nat drop].
  destruct (spec_T_concat_prefix prk info c' n ltac:(lia)) as [rest ->].
  rewrite take_app_le; [reflexivity|].
  rewrite spec_T_concat_length. lia.
Qed.

Lemma blocks_needed (l : Z) :
  0 <= l <= 255 * 32 ->
  l <= 32 * Z.of_nat (Z.to_nat ((l + 31) / 32)) /\
  (Z.to_nat ((l + 31) / 32) <= 255)%nat.
Proof.
  intros Hl. split.
  - rewrite Z2Nat.id by (apply Z.div_pos; lia).
    pose proof (Z.div_mod (l + 31) 32 ltac:(lia)).
    pose proof (Z.mod_pos_bound (l + 31) 32 ltac:(lia)). lia.
  - apply Nat2Z.inj_le. rewrite Z2Nat.id by (apply Z.div_pos; lia).
    change (Z.of_nat 255) with 255.
    assert ((l + 31) / 32 < 256) by (apply Z.div_lt_upper_bound; lia). lia.
Qed.

Lemma HKDF_expand_length prk info l out :
  0 <= l <= 255 * 32 -> HKDF_expand prk info l = Ok out -> blen out = l.
Proof using HMAC_length.
  intros Hl. destruct (blocks_needed l Hl) as [Hn1 Hn2].
  set (n := Z.to_nat ((l + 31) / 32)) in *.
  rewrite (HKDF_expand_blocks prk info l n) by (try exact Hn2; lia).
  intros E. injection E as <-.
  unfold blen. rewrite length_take, spec_T_concat_length.
  clearbody n. lia.
Qed.

(** C8.  With a 32-byte HMAC, for every [prk], [info] and [L] from 0 to
    255 * 32, [HKDF_expand prk info L] returns the first [L] bytes of
    [T(1) || T(2) || ...], where [T(0)] is empty and
    [T(i) = HMAC(prk, T(i-1) || info || byte(i))]: any [n <= 255] blocks
    that cover [L] bytes give the same prefix, and 255 blocks always do. *)
Theorem HKDF_expand_spec prk info l :
  0 <= l <= 255 * 32 ->
  (forall n, l <= 32 * Z.of_nat n -> (n <= 255)%nat ->
     HKDF_expand prk info l = Ok (take (Z.to_nat l) (spec_T_concat prk info n))) /\
  exists n, l <= 32 * Z.of_nat n /\ (n <= 255)%nat.
Proof using HMAC_length.
  intros Hl. split.
  - intros n Hn1 Hn2. apply HKDF_expand_blocks; [lia|exact Hn1|exact Hn2].
  - exists (Z.to_nat ((l + 31) / 32)). apply blocks_needed, Hl.
Qed.

End HKDF.

(** ** The record codec *)

Lemma Buffer_compare_eq (a b : bytes) : Buffer_compare a b = 0 <-> a = b.
Proof.
  revert b. induction a as [|x a IH]; intros [|y b]; simpl; try (split; [lia|discriminate]).
  - tauto.
  - destruct (Z.ltb_spec (Z_of_byte x) (Z_of_byte y)) as [Hlt|Hge].
    + split; [lia|]. intros [= -> _]. lia.
    + destruct (Z.ltb_spec (Z_of_byte y) (Z_of_byte x)) as [Hlt'|Hge'].
      * split; [lia|]. intros [= -> _]. lia.
      * assert (x = y) as -> by (apply Z_of_byte_inj; lia).
        rewrite IH. split; [now intros ->|now intros [= ->]].
Qed.

Lemma Forall_zero_repeat (l : bytes) :
  Forall (fun b => b = x00) l <-> l = repeat x00 (length l).
Proof.
  induction l as [|b l IH]; simpl.
  - split; [reflexivity|constructor].
  - split.
    + intros Hf. inversion Hf as [|? ? -> Hl]. f_equal. now apply IH.
    + intros [= -> E]. constructor; [reflexivity|]. now apply IH.
Qed.

Lemma PAD_SIZE_range (t : variant) : 1 <= PAD_SIZE t <= 2.
Proof. destruct t; simpl; lia. Qed.

Lemma be_decode_encode_mod (n : nat) (v : Z) :
  be_decode (be_encode n v) = v mod 2 ^ (8 * Z.of_nat n).
Proof.
  induction n as [|n IH].
  - simpl. now rewrite Z.mod_1_r.
  - cbn [be_encode]. rewrite be_decode_cons, IH, be_encode_length, Z_of_byte_of_Z.
    rewrite Z.shiftr_div_pow2 by lia.
    replace (8 * Z.of_nat (S n)) with (8 * Z.of_nat n + 8) by lia.
    rewrite Z.pow_add_r by lia. change (2 ^ 8) with 256.
    rewrite Z.rem_mul_r by (try apply Z.pow_nonzero; lia). lia.
Qed.

Lemma be_decode_encode (n : Z) (v : Z) :
  0 <= n -> 0 <= v < 2 ^ (8 * n) -> be_decode (be_encode (Z.to_nat n) v) = v.
Proof.
  intros Hn Hv. rewrite be_decode_encode_mod, Z2Nat.id by lia.
  apply Z.mod_small. lia.
Qed.

Lemma record_padding_ok (pad padSize : Z) :
  0 <= padSize -> 0 <= pad < 2 ^ (8 * padSize) ->
  record_padding pad padSize
  = Ok (be_encode (Z.to_nat padSize) pad ++ repeat x00 (Z.to_nat pad)).
Proof.
  intros HpS Hpad. unfold record_padding, Buffer_zeroed.
  destruct (Z.ltb_spec (pad + padSize) 0); [lia|]. cbn [mbind outcome_bind].
  rewrite writeUIntBE_ok; [|lia|lia|unfold blen; rewrite repeat_length; lia].
  change (Z.to_nat 0) with 0%nat. rewrite take_0. cbn [app]. do 2 f_equal.
  replace (Z.to_nat (pad + padSize)) with (Z.to_nat padSize + Z.to_nat pad)%nat by lia.
  rewrite repeat_app, Z.add_0_l.
  rewrite drop_app_length'; [reflexivity|]. now rewrite repeat_length.
Qed.

Lemma generateNonce_ok (base : bytes) (i : Z) :
  6 <= blen base -> exists nonce, generateNonce base i = Ok nonce.
Proof.
  intros Hlen. unfold generateNonce.
  rewrite readUIntBE_ok by lia. cbn [mbind outcome_bind].
  set (m := be_decode _).
  assert (Hand : forall a, 0 <= js_and a 0xffffff < 2 ^ 24).
  { intros a. unfold js_and.
    replace (toInt32 0xffffff) with (Z.ones 24) by reflexivity.
    rewrite Z.land_ones by lia. apply Z.mod_pos_bound. lia. }
  pose proof (Hand (js_xor m i)).
  pose proof (Hand (js_xor (js_div_trunc m 16777216) (js_div_trunc i 16777216))).
  rewrite writeUIntBE_ok; [eauto| |lia|lia].
  change (8 * 6) with 48. lia.
Qed.

Section Record.
Context `{Crypto}.

(** What [decryptRecord] does with a record that passed authentication
    and is long enough to hold the pad count. *)
Lemma decryptRecord_opened key counter buffer header nonce data :
  generateNonce (kn_nonce key) counter = Ok nonce ->
  gcm_decrypt (kn_key key) nonce
    (Buffer_slice buffer (Some 0) (Some (blen buffer - TAG_LENGTH)))
    (Buffer_slice buffer (Some (blen buffer - TAG_LENGTH)) None) = Some data ->
  PAD_SIZE (header_type header) <= blen data ->
  decryptRecord key counter buffer header
  = let padSize := PAD_SIZE (header_type header) in
    let pad := be_decode (take (Z.to_nat padSize) data) in
    if blen data <? pad + padSize then Err PaddingExceedsBlock
    else if negb (Buffer_compare (repeat x00 (Z.to_nat pad))
                    (take (Z.to_nat pad) (drop (Z.to_nat padSize) data)) =? 0)
         then Err InvalidPadding
         else Ok (drop (Z.to_nat (padSize + pad)) data).
Proof.
  intros Hnonce Hgcm Hlong.
  pose proof (PAD_SIZE_range (header_type header)) as HpS.
  unfold decryptRecord. rewrite Hnonce. cbn [mbind outcome_bind]. rewrite Hgcm.
  cbv zeta.
  set (padSize := PAD_SIZE (header_type header)) in *.
  rewrite readUIntBE_ok by lia. cbn [mbind outcome_bind].
  change (Z.to_nat 0) with 0%nat. rewrite drop_0.
  set (pad := be_decode (take (Z.to_nat padSize) data)).
  assert (Hpad : 0 <= pad) by apply be_decode_range.
  destruct (Z.ltb_spec (blen data) (pad + padSize)); [reflexivity|].
  unfold Buffer_zeroed. destruct (Z.ltb_spec pad 0); [lia|].
  cbn [mbind outcome_bind].
  rewrite Buffer_slice_range by lia.
  replace (padSize + pad - padSize) with pad by lia.
  rewrite Buffer_slice_from by lia. reflexivity.
Qed.

(** C6.  For a record that passes GCM authentication, [decryptRecord]
    reads the leading [padSize] bytes as a big-endian pad count; it rejects
    the record when [pad + padSize] exceeds the decrypted length, rejects it
    when one of the [pad] bytes after the count is not zero, and otherwise
    returns exactly the bytes from position [padSize + pad] on.  (A
    decrypted text too short to hold the count is rejected by the read.) *)
Theorem decryptRecord_padding key counter buffer header nonce data :
  generateNonce (kn_nonce key) counter = Ok nonce ->
  gcm_decrypt (kn_key key) nonce
    (Buffer_slice buffer (Some 0) (Some (blen buffer - TAG_LENGTH)))
    (Buffer_slice buffer (Some (blen buffer - TAG_LENGTH)) None) = Some data ->
  let padSize := PAD_SIZE (header_type header) in
  let pad := be_decode (take (Z.to_nat padSize) data) in
  let padding := take (Z.to_nat pad) (drop (Z.to_nat padSize) data) in
  (blen data < padSize ->
     decryptRecord key counter buffer header = Err RangeError) /\
  (padSize <= blen data -> blen data < pad + padSize ->
     decryptRecord key counter buffer header = Err PaddingExceedsBlock) /\
  (pad + padSize <= blen data -> Exists (fun b => b <> x00) padding ->
     decryptRecord key counter buffer header = Err InvalidPadding) /\
  (pad + padSize <= blen data -> Forall (fun b => b = x00) padding ->
     decryptRecord key counter buffer header
     = Ok (drop (Z.to_nat (padSize + pad)) data)).
Proof.
  intros Hnonce Hgcm padSize pad padding.
  pose proof (PAD_SIZE_range (header_type header)) as HpS. fold padSize in HpS.
  assert (Hpad : 0 <= pad) by apply be_decode_range.
  pose proof (decryptRecord_opened key counter buffer header nonce data Hnonce Hgcm)
    as Hopen. cbv zeta in Hopen. fold padSize pad padding in Hopen.
  split; [|split; [|split]].
  - intros Hshort. unfold decryptRecord. rewrite Hnonce. cbn [mbind outcome_bind].
    rewrite Hgcm. fold padSize. unfold readUIntBE.
    destruct (Z.ltb_spec (blen data) (0 + padSize)); [|lia]. reflexivity.
  - intros Hlong Hexc. rewrite Hopen by exact Hlong.
    destruct (Z.ltb_spec (blen data) (pad + padSize)); [reflexivity|lia].
  - intros Hfit Hex. rewrite Hopen by lia.
    destruct (Z.ltb_spec (blen data) (pad + padSize)); [lia|].
    destruct (Z.eqb_spec (Buffer_compare (repeat x00 (Z.to_nat pad)) padding) 0)
      as [E|E]; [|reflexivity].
    apply Buffer_compare_eq in E. exfalso.
    apply Exists_exists in Hex as (b & Hin & Hb).
    rewrite <- E in Hin. apply list_elem_of_In, repeat_spec in Hin. contradiction.
  - intros Hfit Hall. rewrite Hopen by lia.
    destruct (Z.ltb_spec (blen data) (pad + padSize)); [lia|].
    apply Forall_zero_repeat in Hall.
    assert (Hlen : length padding = Z.to_nat pad).
    { unfold padding. rewrite length_take, length_drop. unfold blen in Hfit. lia. }
    rewrite Hlen in Hall. rewrite <- Hall.
    destruct (Z.eqb_spec (Buffer_compare padding padding) 0) as [E|E]; [reflexivity|].
    exfalso. apply E. now apply Buffer_compare_eq.
Qed.

Section Sealing.
Hypothesis gcm_tag_length : forall key nonce plaintext,
  length (snd (gcm_encrypt key nonce plaintext)) = 16%nat.

Lemma encryptRecord_sealed key counter buffer pad padSize nonce :
  generateNonce (kn_nonce key) counter = Ok nonce ->
  0 <= padSize -> 0 <= pad < 2 ^ (8 * padSize) ->
  encryptRecord key counter buffer pad padSize
  = Ok (fst (gcm_encrypt (kn_key key) nonce
               (be_encode (Z.to_nat padSize) pad ++ repeat x00 (Z.to_nat pad) ++ buffer))
        ++ snd (gcm_encrypt (kn_key key) nonce
               (be_encode (Z.to_nat padSize) pad ++ repeat x00 (Z.to_nat pad) ++ buffer))).
Proof using gcm_tag_length.
  intros Hnonce HpS Hpad. unfold encryptRecord.
  rewrite Hnonce. cbn [mbind outcome_bind].
  rewrite record_padding_ok by lia. cbn [mbind outcome_bind].
  rewrite <- app_assoc.
  pose proof (gcm_tag_length (kn_key key) nonce
    (be_encode (Z.to_nat padSize) pad ++ repeat x00 (Z.to_nat pad) ++ buffer)) as Htag.
  destruct (gcm_encrypt _ _ _) as [body tag]. cbn [fst snd] in *.
  unfold blen, TAG_LENGTH. rewrite Htag. reflexivity.
Qed.

Hypothesis gcm_correct : forall key nonce plaintext body tag,
  gcm_encrypt key nonce plaintext = (body, tag) ->
  gcm_decrypt key nonce body tag = Some plaintext.

Lemma decryptRecord_sealed key counter buffer pad header nonce block :
  generateNonce (kn_nonce key) counter = Ok nonce ->
  0 <= pad < 2 ^ (8 * PAD_SIZE (header_type header)) ->
  encryptRecord key counter buffer pad (PAD_SIZE (header_type header)) = Ok block ->
  decryptRecord key counter block header = Ok buffer.
Proof using gcm_correct gcm_tag_length.
  intros Hnonce Hpad Henc.
  pose proof (PAD_SIZE_range (header_type header)) as HpS.
  set (padSize := PAD_SIZE (header_type header)) in *.
  rewrite (encryptRecord_sealed _ _ _ _ _ nonce Hnonce) in Henc by lia.
  set (plain := be_encode (Z.to_nat padSize) pad ++ repeat x00 (Z.to_nat pad) ++ buffer) in *.
  pose proof (gcm_tag_length (kn_key key) nonce plain) as Htag.
  pose proof (gcm_correct (kn_key key) nonce plain) as Hdec.
  destruct (gcm_encrypt (kn_key key) nonce plain) as [body tag]. cbn [fst snd] in *.
  injection Henc as <-.
  specialize (Hdec body tag eq_refl).
  assert (Hbody : Buffer_slice (body ++ tag) (Some 0)
                    (Some (blen (body ++ tag) - TAG_LENGTH)) = body).
  { rewrite Buffer_slice_range by (rewrite ?blen_app; unfold blen, TAG_LENGTH; lia).
    rewrite blen_app. unfold blen at 2, TAG_LENGTH. rewrite Htag.
    change (Z.to_nat 0) with 0%nat. rewrite drop_0.
    replace (Z.to_nat (blen body + Z.of_nat 16 - 16 - 0)) with (length body)
      by (unfold blen; lia).
    now rewrite take_app_length. }
  assert (Htg : Buffer_slice (body ++ tag) (Some (blen (body ++ tag) - TAG_LENGTH)) None
                = tag).
  { rewrite Buffer_slice_from by (rewrite ?blen_app; unfold blen, TAG_LENGTH; lia).
    rewrite blen_app. unfold blen at 2, TAG_LENGTH. rewrite Htag.
    replace (Z.to_nat (blen body + Z.of_nat 16 - 16)) with (length body)
      by (unfold blen; lia).
    now rewrite drop_app_length. }
  assert (Hlen : length (be_encode (Z.to_nat padSize) pad) = Z.to_nat padSize)
    by apply be_encode_length.
  assert (Hpadval : be_decode (take (Z.to_nat padSize) plain) = pad).
  { unfold plain. rewrite take_app_length' by (now rewrite Hlen).
    apply be_decode_encode; lia. }
  assert (Hdrop : drop (Z.to_nat padSize) plain = repeat x00 (Z.to_nat pad) ++ buffer).
  { unfold plain. now rewrite drop_app_length' by (now rewrite Hlen). }
  assert (Hplen : blen plain = padSize + pad + blen buffer).
  { unfold plain. rewrite !blen_app. unfold blen.
    rewrite Hlen, repeat_length. lia. }
  pose proof (blen_nonneg buffer) as Hbuf.
  pose proof (decryptRecord_opened key counter (body ++ tag) header nonce plain Hnonce)
    as Hrec.
  rewrite Htg, Hbody in Hrec. specialize (Hrec Hdec). cbv zeta in Hrec.
  fold padSize in Hrec. rewrite Hpadval, Hdrop in Hrec.
  rewrite take_app_length' in Hrec by (rewrite repeat_length; lia).
  rewrite Hrec by lia.
  destruct (Z.ltb_spec (blen plain) (pad + padSize)); [lia|].
  destruct (Z.eqb_spec (Buffer_compare (repeat x00 (Z.to_nat pad))
                          (repeat x00 (Z.to_nat pad))) 0) as [E|E].
  - cbn [negb]. f_equal.
    replace (Z.to_nat (padSize + pad)) with (Z.to_nat padSize + Z.to_nat pad)%nat by lia.
    rewrite <- drop_drop, Hdrop.
    rewrite drop_app_length'; [reflexivity|]. now rewrite repeat_length.
  - exfalso. apply E. now apply Buffer_compare_eq.
Qed.

End Sealing.
End Record.

(** ** Framing on decrypt *)

Lemma Buffer_slice_all (b : bytes) : Buffer_slice b None None = b.
Proof.
  unfold Buffer_slice, slice_index, blen.
  rewrite Z.sub_0_r, Nat2Z.id. change (Z.to_nat 0) with 0%nat.
  rewrite drop_0. apply take_ge. lia.
Qed.

Section Framing.
Context `{Crypto}.

Lemma walks_loop key header buffer i start result i' start' result' :
  walks key header buffer i start result i' start' result' ->
  forall fuel, blen buffer - start <= Z.of_nat fuel ->
  exists fuel', blen buffer - start' <= Z.of_nat fuel' /\
    decrypt_loop fuel key header buffer i start result
    = decrypt_loop fuel' key header buffer i' start' result'.
Proof.
  induction 1 as [|i start result block i' start' result' Hrs Hend Hblock _ IH];
    intros fuel Hfuel.
  - exists fuel. split; [exact Hfuel|reflexivity].
  - unfold TAG_LENGTH in *.
    destruct fuel as [|fuel]; [lia|].
    destruct (IH fuel ltac:(lia)) as (fuel' & Hfuel' & E).
    exists fuel'. split; [exact Hfuel'|].
    rewrite <- E. cbn [decrypt_loop]. unfold TAG_LENGTH.
    destruct (Z.ltb_spec start (blen buffer)); [|lia].
    destruct (Z.eqb_spec (start + header_rs header + 16) (blen buffer)); [lia|].
    rewrite Z.min_l by lia.
    destruct (Z.leb_spec (start + header_rs header + 16 - start) 16); [lia|].
    rewrite Hblock. reflexivity.
Qed.

Lemma decrypt_legacy ks buffer params header key :
  truthy (params_salt params) = true ->
  parseParams params = Ok header ->
  deriveKeyAndNonce ks header MODE_DECRYPT = Ok key ->
  decrypt ks buffer params
  = decrypt_loop (S (length buffer)) key header buffer 0 0 [].
Proof.
  intros Hsalt Hparse Hkey. unfold decrypt.
  rewrite Hsalt, Hparse. cbn [mbind outcome_bind]. rewrite Hkey.
  cbn [mbind outcome_bind]. unfold header_len. now rewrite Buffer_slice_all.
Qed.

(** C7.  Legacy variants ([params.salt] given).  When the decrypt loop has
    walked over full records of [rs + 16] bytes and stands at [start],
    before the end of the buffer: if the next record would end exactly at
    the end of the buffer, [decrypt] fails with [TruncatedPayload]; if what
    is left is shorter than [rs + 16] but longer than the 16-byte tag, it is
    decrypted as the last record and ends the output; if what is left is 16
    bytes or fewer, [decrypt] fails with [BlockTooSmall]. *)
Theorem decrypt_legacy_framing ks buffer params header key i start result :
  truthy (params_salt params) = true ->
  parseParams params = Ok header ->
  deriveKeyAndNonce ks header MODE_DECRYPT = Ok key ->
  walks key header buffer 0 0 [] i start result ->
  start < blen buffer ->
  let record := header_rs header + TAG_LENGTH in
  (start + record = blen buffer ->
     decrypt ks buffer params = Err TruncatedPayload) /\
  (blen buffer < start + record -> TAG_LENGTH < blen buffer - start ->
     decrypt ks buffer params
     = (block ← decryptRecord key i (drop (Z.to_nat start) buffer) header;
        Ok (result ++ block))) /\
  (blen buffer < start + record -> blen buffer - start <= TAG_LENGTH ->
     decrypt ks buffer params = Err (BlockTooSmall i)).
Proof.
  intros Hsalt Hparse Hkey Hwalk Hstart record.
  rewrite (decrypt_legacy ks buffer params header key Hsalt Hparse Hkey).
  destruct (walks_loop _ _ _ _ _ _ _ _ _ Hwalk (S (length buffer)))
    as (fuel & Hfuel & ->); [unfold blen; lia|].
  assert (Hstart0 : 0 <= start).
  { clear -Hwalk. remember 0 as s0 eqn:Hs0 in Hwalk.
    assert (0 <= s0) as Hs by lia. clear Hs0.
    induction Hwalk; [exact Hs|]. apply IHHwalk. unfold TAG_LENGTH. lia. }
  destruct fuel as [|fuel]; [lia|].
  unfold record, TAG_LENGTH in *. cbn [decrypt_loop]. unfold TAG_LENGTH.
  destruct (Z.ltb_spec start (blen buffer)); [|lia].
  split; [|split].
  - intros Hend. destruct (Z.eqb_spec (start + header_rs header + 16) (blen buffer));
      [reflexivity|lia].
  - intros Hshort Htag.
    destruct (Z.eqb_spec (start + header_rs header + 16) (blen buffer)); [lia|].
    rewrite Z.min_r by lia.
    destruct (Z.leb_spec (blen buffer - start) 16); [lia|].
    rewrite Buffer_slice_range by lia.
    rewrite take_ge by (rewrite length_drop; unfold blen; lia).
    destruct (decryptRecord key i (drop (Z.to_nat start) buffer) header) as [block|e];
      cbn [mbind outcome_bind]; [|reflexivity].
    destruct fuel; cbn [decrypt_loop]; rewrite Z.ltb_irrefl; reflexivity.
  - intros Hshort Htag.
    destruct (Z.eqb_spec (start + header_rs header + 16) (blen buffer)); [lia|].
    rewrite Z.min_r by lia.
    destruct (Z.leb_spec (blen buffer - start) 16); [reflexivity|lia].
Qed.

End Framing.

(** ** Framing on encrypt *)

Lemma max_pad_shift (padSize : Z) :
  padSize = 1 \/ padSize = 2 -> js_shl 1 (padSize * 8) - 1 = 2 ^ (8 * padSize) - 1.
Proof. intros [-> | ->]; reflexivity. Qed.

Section Encrypt.
Context `{Crypto}.

Lemma encrypt_loop_records key rs padSize buffer start remaining records leftover :
  padSize = 1 \/ padSize = 2 -> padSize < rs ->
  spec_records rs padSize (blen buffer) start remaining records leftover ->
  forall fuel i result,
    blen buffer - start + 1 < Z.of_nat fuel ->
    encrypt_loop fuel key rs padSize buffer i start remaining result
    = (result' ← seal_records key rs padSize buffer i records result;
       Ok (leftover, result')).
Proof.
  intros HpS Hrs Hrec.
  induction Hrec as [start remaining Hdone
                    |start remaining recordPad records leftover Hin -> _ IH];
    intros fuel i result Hfuel.
  - destruct fuel; cbn [encrypt_loop seal_records mbind outcome_bind];
      destruct (Z.leb_spec start (blen buffer)); try lia; reflexivity.
  - destruct fuel as [|fuel]; [lia|].
    cbn [encrypt_loop seal_records].
    destruct (Z.leb_spec start (blen buffer)); [|lia].
    rewrite max_pad_shift by exact HpS.
    set (recordPad := Z.min (2 ^ (8 * padSize) - 1) (Z.min (rs - padSize - 1) remaining)).
    destruct (encryptRecord key i _ recordPad padSize) as [block|e];
      cbn [mbind outcome_bind]; [|reflexivity].
    apply IH. subst recordPad. lia.
Qed.


End Encrypt.

Lemma spec_records_total rs padSize len :
  padSize < rs ->
  forall n start remaining, len - start < Z.of_nat n ->
  exists records leftover, spec_records rs padSize len start remaining records leftover.
Proof.
  intros Hrs. induction n as [|n IH]; intros start remaining Hn.
  - exists [], remaining. constructor. lia.
  - destruct (Z.le_gt_cases start len) as [Hin|Hout].
    + set (recordPad := Z.min (2 ^ (8 * padSize) - 1) (Z.min (rs - padSize - 1) remaining)).
      destruct (IH (start + (rs - padSize - recordPad)) (remaining - recordPad))
        as (records & leftover & Hrec); [subst recordPad; lia|].
      exists ((start, recordPad) :: records), leftover.
      now apply spec_records_next.
    + exists [], remaining. constructor. lia.
Qed.

Lemma spec_records_functional rs padSize len start remaining records leftover
    records' leftover' :
  spec_records rs padSize len start remaining records leftover ->
  spec_records rs padSize len start remaining records' leftover' ->
  records = records' /\ leftover = leftover'.
Proof.
  intros Hrec. revert records' leftover'.
  induction Hrec as [|start remaining recordPad records leftover Hin -> _ IH];
    intros records' leftover' Hrec'; inversion Hrec'; subst; try lia.
  - tauto.
  - destruct (IH _ _ ltac:(eassumption)) as [-> ->]. tauto.
Qed.

(** ** Encrypt, then decrypt *)

Section StreamRoundTrip.
Context `{Crypto}.
Hypothesis HMAC_length : forall key input, length (HMAC_SHA256 key input) = 32%nat.
Hypothesis gcm_correct : forall key nonce plaintext body tag,
  gcm_encrypt key nonce plaintext = (body, tag) ->
  gcm_decrypt key nonce body tag = Some plaintext.
Hypothesis gcm_tag_length : forall key nonce plaintext,
  length (snd (gcm_encrypt key nonce plaintext)) = 16%nat.
Hypothesis gcm_body_length : forall key nonce plaintext,
  length (fst (gcm_encrypt key nonce plaintext)) = length plaintext.

Lemma encryptRecord_length key counter buffer pad padSize block :
  6 <= blen (kn_nonce key) ->
  0 <= padSize -> 0 <= pad < 2 ^ (8 * padSize) ->
  encryptRecord key counter buffer pad padSize = Ok block ->
  blen block = padSize + pad + blen buffer + 16.
Proof using gcm_tag_length gcm_body_length.
  intros Hn HpS Hpad Henc.
  destruct (generateNonce_ok (kn_nonce key) counter Hn) as [nonce Hnonce].
  rewrite (encryptRecord_sealed gcm_tag_length _ _ _ _ _ nonce Hnonce) in Henc by lia.
  injection Henc as <-.
  rewrite blen_app. unfold blen.
  rewrite gcm_body_length, gcm_tag_length, !length_app, be_encode_length, repeat_length.
  lia.
Qed.

Lemma seal_records_acc key rs padSize buffer records :
  forall i result,
  seal_records key rs padSize buffer i records result
  = (tail ← seal_records key rs padSize buffer i records []; Ok (result ++ tail)).
Proof.
  induction records as [|[start recordPad] records IH]; intros i result.
  - cbn. now rewrite app_nil_r.
  - cbn [seal_records].
    destruct (encryptRecord key i _ recordPad padSize) as [block|e];
      cbn [mbind outcome_bind]; [|reflexivity].
    rewrite IH, (IH (i + 1) ([] ++ block)).
    destruct (seal_records key rs padSize buffer (i + 1) records []) as [tail|e];
      cbn [mbind outcome_bind]; [|reflexivity].
    now rewrite app_assoc.
Qed.

Lemma sealed_stream_decrypts key header m start remaining records leftover :
  spec_records (header_rs header) (PAD_SIZE (header_type header)) (blen m)
    start remaining records leftover ->
  6 <= blen (kn_nonce key) ->
  PAD_SIZE (header_type header) < header_rs header ->
  0 <= start -> 0 <= remaining ->
  forall i tail,
    seal_records key (header_rs header) (PAD_SIZE (header_type header)) m i records []
    = Ok tail ->
  forall pre acc fuel,
    blen tail < Z.of_nat fuel ->
    decrypt_loop fuel key header (pre ++ tail) i (blen pre) acc
    = Ok (acc ++ drop (Z.to_nat start) m).
Proof using gcm_correct gcm_tag_length gcm_body_length.
  intros Hrec Hnonce Hrs.
  pose proof (PAD_SIZE_range (header_type header)) as HpS.
  set (rs := header_rs header) in *. set (padSize := PAD_SIZE (header_type header)) in *.
  induction Hrec as [start remaining Hdone
                    |start remaining recordPad records leftover Hin HrP Hrec IH];
    intros Hstart Hrem i tail Hseal pre acc fuel Hfuel.
  - cbn in Hseal. injection Hseal as <-. rewrite app_nil_r.
    rewrite drop_ge by (unfold blen in Hdone; lia). rewrite app_nil_r.
    destruct fuel; cbn [decrypt_loop]; rewrite Z.ltb_irrefl; reflexivity.
  - assert (HmaxPad : 2 ^ (8 * padSize) - 1 >= 255).
    { destruct HpS as [? ?]. assert (padSize = 1 \/ padSize = 2) as [-> | ->] by lia;
        cbn; lia. }
    assert (HrP0 : 0 <= recordPad < 2 ^ (8 * padSize)).
    { clearbody rs padSize. set (top := 2 ^ (8 * padSize)) in *. clearbody top. lia. }
    assert (Hstep : 1 <= rs - padSize - recordPad) by lia.
    cbn [seal_records] in Hseal. fold rs padSize in Hseal.
    set (e := Z.min (start + rs - padSize - recordPad) (blen m)) in *.
    set (data := Buffer_slice m (Some start) (Some e)) in *.
    destruct (encryptRecord key i data recordPad padSize) as [block|err] eqn:Henc;
      cbn [mbind outcome_bind] in Hseal; [|discriminate].
    rewrite seal_records_acc in Hseal.
    destruct (seal_records key rs padSize m (i + 1) records []) as [tail'|err] eqn:Hseal';
      cbn [mbind outcome_bind] in Hseal; [|discriminate].
    injection Hseal as <-. cbn [app] in *.
    assert (HpS0 : 0 <= padSize) by lia.
    pose proof (encryptRecord_length _ _ _ _ _ _ Hnonce HpS0 HrP0 Henc) as Hblen.
    assert (Hdata : data = take (Z.to_nat (e - start)) (drop (Z.to_nat start) m)).
    { unfold data. apply Buffer_slice_range; unfold e; lia. }
    assert (Hdlen : blen data = e - start).
    { rewrite Hdata. unfold blen. rewrite length_take, length_drop.
      unfold e, blen. unfold blen in Hin. lia. }
    rewrite Hdlen in Hblen.
    destruct (generateNonce_ok (kn_nonce key) i Hnonce) as [nonce Hn].
    pose proof (decryptRecord_sealed gcm_tag_length gcm_correct key i data recordPad
                  header nonce block Hn HrP0 Henc) as Hdec.
    destruct fuel as [|fuel]; [rewrite !blen_app in Hfuel; pose proof (blen_nonneg tail'); lia|].
    cbn [decrypt_loop]. fold rs. unfold TAG_LENGTH.
    rewrite !blen_app.
    pose proof (blen_nonneg tail') as Ht'. pose proof (blen_nonneg pre) as Hpre.
    destruct (Z.ltb_spec (blen pre) (blen pre + (blen block + blen tail'))); [|lia].
    assert (Hslice : forall stop, blen pre + blen block <= stop ->
              (stop <= blen pre + blen block \/ tail' = []) ->
              Buffer_slice (pre ++ block ++ tail') (Some (blen pre)) (Some stop) = block).
    { intros stop Hs1 Hs2. rewrite Buffer_slice_range by lia.
      replace (Z.to_nat (blen pre)) with (length pre) by (unfold blen; lia).
      rewrite drop_app_length.
      destruct Hs2 as [Hs2 | ->].
      - replace (Z.to_nat (stop - blen pre)) with (length block) by (unfold blen in *; lia).
        now rewrite take_app_length.
      - rewrite app_nil_r. apply take_ge. unfold blen in *. lia. }
    destruct (Z.le_gt_cases (start + (rs - padSize - recordPad)) (blen m)) as [Hmore|Hlast].
    + (* a full record, followed by another one *)
      assert (He : e = start + (rs - padSize - recordPad)) by (unfold e; lia).
      assert (Htail' : 16 <= blen tail').
      { inversion Hrec as [? ? Hout|s' r' rp' recs' l' ? ? Hrec']; subst; [lia|].
        cbn [seal_records] in Hseal'.
        destruct (encryptRecord key (i + 1) _ _ _) as [block'|?] eqn:Henc';
          cbn [mbind outcome_bind] in Hseal'; [|discriminate].
        rewrite seal_records_acc in Hseal'.
        destruct (seal_records _ _ _ _ _ recs' []) as [tail''|?];
          cbn [mbind outcome_bind] in Hseal'; [|discriminate].
        injection Hseal' as <-. cbn [app]. rewrite blen_app.
        fold rs padSize in Henc'.
        destruct (generateNonce_ok (kn_nonce key) (i + 1) Hnonce) as [nonce' Hn'].
        rewrite (encryptRecord_sealed gcm_tag_length _ _ _ _ _ nonce' Hn') in Henc'
          by lia.
        injection Henc' as <-. rewrite blen_app. unfold blen.
        rewrite gcm_tag_length. lia. }
      destruct (Z.eqb_spec (blen pre + rs + 16) (blen pre + (blen block + blen tail')));
        [lia|].
      rewrite Z.min_l by lia.
      destruct (Z.leb_spec (blen pre + rs + 16 - blen pre) 16); [lia|].
      rewrite Hslice by lia. rewrite Hdec. cbn [mbind outcome_bind].
      replace (blen pre + rs + 16) with (blen (pre ++ block)) by (rewrite blen_app; lia).
      rewrite (app_assoc pre block tail').
      rewrite (IH ltac:(lia) ltac:(lia) (i + 1) tail' Hseal' (pre ++ block) (acc ++ data) fuel)
        by (rewrite blen_app in Hfuel; lia).
      rewrite <- app_assoc. f_equal. rewrite Hdata, He.
      replace (Z.to_nat (start + (rs - padSize - recordPad)))
        with (Z.to_nat start + Z.to_nat (rs - padSize - recordPad))%nat by lia.
      rewrite <- drop_drop.
      replace (Z.to_nat (start + (rs - padSize - recordPad) - start))
        with (Z.to_nat (rs - padSize - recordPad)) by lia.
      now rewrite take_drop.
    + (* the last record *)
      assert (He : e = blen m) by (unfold e; lia).
      assert (Htail' : tail' = []).
      { inversion Hrec; subst; [|lia]. cbn in Hseal'. now injection Hseal' as <-. }
      subst tail'. change (blen []) with 0. rewrite Z.add_0_r.
      destruct (Z.eqb_spec (blen pre + rs + 16) (blen pre + blen block)); [lia|].
      rewrite Z.min_r by lia.
      destruct (Z.leb_spec (blen pre + blen block - blen pre) 16); [lia|].
      rewrite Hslice by (try right; try reflexivity; lia).
      rewrite Hdec. cbn [mbind outcome_bind].
      assert (Hd : data = drop (Z.to_nat start) m).
      { rewrite Hdata. apply take_ge. rewrite length_drop. unfold blen in *. lia. }
      rewrite Hd.
      rewrite app_nil_r.
      destruct fuel; cbn [decrypt_loop];
        (destruct (Z.ltb_spec (blen pre + blen block) (blen (pre ++ block)));
         [rewrite blen_app in *; lia|reflexivity]).
Qed.

Lemma determineRecordSize_above rs type n :
  determineRecordSize rs type = Ok n -> PAD_SIZE type < n.
Proof.
  unfold determineRecordSize. destruct (parseInt rs) as [v|].
  - destruct (Z.leb_spec v (PAD_SIZE type)); [discriminate|]. intros [= <-]. lia.
  - intros [= <-]. destruct type; cbn; lia.
Qed.

Lemma bind_Ok_inv {A B : Type} (r : outcome A) (k : A -> outcome B) (b : B) :
  r ≫= k = Ok b -> exists a, r = Ok a /\ k a = Ok b.
Proof. destruct r as [a|e]; [eauto|discriminate]. Qed.

Lemma deriveKeyAndNonce_expands ks header mode key :
  deriveKeyAndNonce ks header mode = Ok key ->
  exists prk keyInfo nonceInfo,
    HKDF_expand prk keyInfo KEY_LENGTH = Ok (kn_key key) /\
    HKDF_expand prk nonceInfo NONCE_LENGTH = Ok (kn_nonce key).
Proof.
  unfold deriveKeyAndNonce.
  destruct (header_salt header) as [salt|]; [|discriminate].
  intros Hd.
  apply bind_Ok_inv in Hd as (s & _ & Hd).
  apply bind_Ok_inv in Hd as (ikm & _ & Hd).
  revert Hd. generalize (HKDF_extract salt ikm). intros prk.
  destruct (match header_type header with
            | aes128gcm => _ | aesgcm => _ | aesgcm128 => _ end)
    as [keyInfo nonceInfo].
  intros Hd.
  apply bind_Ok_inv in Hd as (k & Ek & Hd).
  apply bind_Ok_inv in Hd as (n & En & Hd).
  injection Hd as <-. exists prk, keyInfo, nonceInfo. split; assumption.
Qed.

Lemma deriveKeyAndNonce_lengths ks header mode key :
  deriveKeyAndNonce ks header mode = Ok key ->
  blen (kn_key key) = 16 /\ blen (kn_nonce key) = 12.
Proof using HMAC_length.
  intros Hkey.
  destruct (deriveKeyAndNonce_expands ks header mode key Hkey)
    as (prk & keyInfo & nonceInfo & Ek & En).
  apply (HKDF_expand_length HMAC_length) in Ek; [|unfold KEY_LENGTH; lia].
  apply (HKDF_expand_length HMAC_length) in En; [|unfold NONCE_LENGTH; lia].
  split; assumption.
Qed.

Lemma parseParams_rs params header :
  parseParams params = Ok header ->
  determineRecordSize (params_rs params) (header_type header) = Ok (header_rs header).
Proof.
  unfold parseParams.
  destruct (if truthy (params_salt params) then _ else _) as [salt|]; [|discriminate].
  cbn [mbind outcome_bind].
  destruct (determineRecordSize _ _) as [rs|] eqn:E; [|discriminate].
  cbn [mbind outcome_bind]. intros [= <-]. exact E.
Qed.

Lemma header_eta (h : header) :
  {| header_type := header_type h; header_salt := header_salt h;
     header_rs := header_rs h; header_keyid := header_keyid h;
     header_key := header_key h; header_dh := header_dh h;
     header_authSecret := header_authSecret h |} = h.
Proof. destruct h; reflexivity. Qed.

Lemma seal_records_ok key rs padSize m start remaining records leftover :
  spec_records rs padSize (blen m) start remaining records leftover ->
  6 <= blen (kn_nonce key) -> padSize = 1 \/ padSize = 2 -> padSize < rs ->
  0 <= remaining ->
  forall i, exists tail, seal_records key rs padSize m i records [] = Ok tail.
Proof using gcm_tag_length.
  intros Hrec Hnonce HpS Hrs.
  induction Hrec as [|start remaining recordPad records leftover Hin HrP _ IH];
    intros Hrem i.
  - exists []. reflexivity.
  - assert (HrP0 : 0 <= recordPad < 2 ^ (8 * padSize)).
    { destruct HpS as [-> | ->]; change (2 ^ (8 * 1)) with 256 in *;
        change (2 ^ (8 * 2)) with 65536 in *; lia. }
    cbn [seal_records].
    destruct (generateNonce_ok (kn_nonce key) i Hnonce) as [nonce Hn].
    rewrite (encryptRecord_sealed gcm_tag_length _ _ _ _ _ nonce Hn) by lia.
    cbn [mbind outcome_bind]. rewrite seal_records_acc.
    destruct (IH ltac:(lia) (i + 1)) as [tail ->]. cbn [mbind outcome_bind]. eauto.
Qed.

End StreamRoundTrip.

Section RoundTrip.
Context `{Crypto}.
Hypothesis HMAC_length : forall key input, length (HMAC_SHA256 key input) = 32%nat.
Hypothesis gcm_correct : forall key nonce plaintext body tag,
  gcm_encrypt key nonce plaintext = (body, tag) ->
  gcm_decrypt key nonce body tag = Some plaintext.
Hypothesis gcm_tag_length : forall key nonce plaintext,
  length (snd (gcm_encrypt key nonce plaintext)) = 16%nat.
Hypothesis gcm_body_length : forall key nonce plaintext,
  length (fst (gcm_encrypt key nonce plaintext)) = length plaintext.

(** The two sides of a legacy exchange: whenever they agree on the variant,
    the record size, the key and the nonce base, the receiver reads what the
    sender wrote. *)
Lemma round_trip_two_sides ksE ksD random m paramsE paramsD headerE headerD key records :
  truthy (params_salt paramsE) = true ->
  truthy (params_salt paramsD) = true ->
  parseParams paramsE = Ok headerE ->
  parseParams paramsD = Ok headerD ->
  header_type headerE = header_type headerD ->
  header_rs headerE = header_rs headerD ->
  deriveKeyAndNonce ksE headerE MODE_ENCRYPT = Ok key ->
  deriveKeyAndNonce ksD headerD MODE_DECRYPT = Ok key ->
  0 <= match parseInt (params_pad paramsE) with Some p => p | None => 0 end ->
  spec_records (header_rs headerE) (PAD_SIZE (header_type headerE)) (blen m) 0
    (match parseInt (params_pad paramsE) with Some p => p | None => 0 end) records 0 ->
  exists ciphertext,
    encrypt ksE random m paramsE = Ok ciphertext /\
    decrypt ksD ciphertext paramsD = Ok m.
Proof using HMAC_length gcm_correct gcm_tag_length gcm_body_length.
  intros HsaltE HsaltD HparseE HparseD Htype Hrseq HkeyE HkeyD Hpad Hrec.
  set (pad := match parseInt (params_pad paramsE) with Some p => p | None => 0 end) in *.
  pose proof (parseParams_rs _ _ HparseE) as Hrs.
  pose proof (determineRecordSize_above _ _ _ Hrs) as Hrs'.
  destruct (deriveKeyAndNonce_lengths HMAC_length _ _ _ _ HkeyE) as [_ Hnonce].
  assert (Hnonce6 : 6 <= blen (kn_nonce key)) by lia.
  assert (HpS : PAD_SIZE (header_type headerE) = 1 \/ PAD_SIZE (header_type headerE) = 2)
    by (destruct (header_type headerE); cbn; lia).
  destruct (seal_records_ok gcm_tag_length key _ _ m 0 pad records 0 Hrec Hnonce6 HpS
              Hrs' Hpad 0) as [ct Hseal].
  exists ct. split.
  - unfold encrypt. rewrite HparseE. cbn [mbind outcome_bind]. rewrite HsaltE.
    cbn [mbind outcome_bind]. rewrite Hrs. cbn [mbind outcome_bind].
    rewrite header_eta, HkeyE. cbn [mbind outcome_bind]. fold pad.
    unfold encrypt_records.
    rewrite (encrypt_loop_records key _ _ m 0 pad records 0 HpS Hrs' Hrec)
      by (unfold blen; lia).
    rewrite Hseal. reflexivity.
  - rewrite (decrypt_legacy ksD ct paramsD headerD key HsaltD HparseD HkeyD).
    rewrite Htype, Hrseq in *.
    apply (sealed_stream_decrypts gcm_correct gcm_tag_length gcm_body_length
             key headerD m 0 pad records 0 Hrec Hnonce6 Hrs' ltac:(lia) Hpad 0 ct Hseal
             [] [] (S (length ct))).
    unfold blen. lia.
Qed.

(** C2, as amended.  For [aes128gcm], no delimiter is written or checked:
    the padding of every record, last or not, is the 2-byte big-endian pad
    count followed by that many zero bytes, so the high bit of its first
    byte is set exactly when the pad count is at least 32768; and
    [decryptRecord] accepts every record that [encryptRecord] sealed,
    whatever its position. *)
Theorem aes128gcm_no_delimiter key counter buffer pad nonce :
  generateNonce (kn_nonce key) counter = Ok nonce ->
  0 <= pad <= 65535 ->
  record_padding pad (PAD_SIZE aes128gcm)
  = Ok (be_encode 2 pad ++ repeat x00 (Z.to_nat pad)) /\
  delimiter_set (be_encode 2 pad ++ repeat x00 (Z.to_nat pad)) = (32768 <=? pad) /\
  (forall header block,
     header_type header = aes128gcm ->
     encryptRecord key counter buffer pad (PAD_SIZE aes128gcm) = Ok block ->
     decryptRecord key counter block header = Ok buffer).
Proof using gcm_correct gcm_tag_length.
  intros Hnonce Hpad. split; [|split].
  - apply (record_padding_ok pad 2); cbn; lia.
  - cbn [be_encode app delimiter_set]. rewrite Z_of_byte_of_Z.
    change (8 * Z.of_nat 1) with 8. change 256 with (2 ^ 8).
    rewrite Z.testbit_mod_pow2 by lia. cbn [Z.ltb Z.compare andb].
    rewrite Z.shiftr_spec by lia. change (7 + 8) with 15.
    rewrite Z.testbit_eqb by lia.
    assert (Hq : 0 <= pad / 2 ^ 15 < 2).
    { split; [apply Z.div_pos; lia|apply Z.div_lt_upper_bound; lia]. }
    destruct (Z.leb_spec 32768 pad) as [Hge|Hlt].
    + assert (pad / 2 ^ 15 = 1) as ->; [|reflexivity].
      assert (1 <= pad / 2 ^ 15) by (apply Z.div_le_lower_bound; lia). lia.
    + rewrite Z.div_small by lia. reflexivity.
  - intros header block Htype Henc.
    apply (decryptRecord_sealed gcm_tag_length gcm_correct key counter buffer pad
             header nonce block Hnonce); rewrite Htype; [cbn; lia|exact Henc].
Qed.

End RoundTrip.

Lemma writeUIntBE_overflow (b : bytes) (value offset byteLength : Z) :
  2 ^ (8 * byteLength) <= value ->
  writeUIntBE b value offset byteLength = Err RangeError.
Proof.
  intros Hv. unfold writeUIntBE.
  destruct (Z.leb_spec (2 ^ (8 * byteLength)) value); [|lia].
  now rewrite orb_true_r.
Qed.

(** ** Numbers and their text *)









(** From 10^21 on the text of a number is in exponent notation, of which
    [parseInt] reads the digits in front of the point or of the exponent. *)
Lemma parseInt_exponent_notation :
  (Number_toString (10 ^ 21) = "1e+21"%string) /\
  (parseInt (JNumber (10 ^ 21)) = Some 1) /\
  (Number_toString (2 ^ 70) = "1.1805916207174113e+21"%string) /\
  (parseInt (JNumber (2 ^ 70)) = Some 1) /\
  (Number_toString (2 ^ 64) = "18446744073709552000"%string) /\
  (parseInt (JNumber (2 ^ 64)) = Some (2 ^ 64)).
Proof. vm_compute. repeat split. Qed.


(** ** Strings and their bytes *)

Lemma list_byte_of_string_app (s t : string) :
  list_byte_of_string (s ++ t) = list_byte_of_string s ++ list_byte_of_string t.
Proof.
  unfold list_byte_of_string.
  induction s as [|c s IH]; [reflexivity|].
  change (map byte_of_ascii (list_ascii_of_string (String c s +:+ t)))
    with (byte_of_ascii c :: map byte_of_ascii (list_ascii_of_string (s +:+ t))).
  now rewrite IH.
Qed.

(** A NUL character is a code unit of its own, whatever precedes it. *)
Lemma low_bytes_nul (l : bytes) :
  forall pending point,
  low_bytes pending point (l ++ [x00]) = low_bytes pending point l ++ [x00].
Proof.
  induction l as [|b l IH]; intros pending point.
  - destruct pending; reflexivity.
  - cbn [app low_bytes].
    destruct ((128 <=? Z_of_byte b) && (Z_of_byte b <? 192)).
    + destruct pending as [|[|k]]; rewrite ?IH; [reflexivity| |reflexivity].
      now rewrite <- app_assoc.
    + destruct (Z_of_byte b <? 128); [now rewrite IH|].
      destruct (utf8_lead (Z_of_byte b)) as [k q]. apply IH.
Qed.

Lemma ascii_bytes_nul_end (s : string) :
  ascii_bytes (s ++ String zero EmptyString) = ascii_bytes s ++ [x00].
Proof.
  unfold ascii_bytes. rewrite list_byte_of_string_app. apply low_bytes_nul.
Qed.

(** On 7-bit characters the two encodings agree. *)
Lemma low_bytes_ascii (l : bytes) :
  forallb (fun b => Z_of_byte b <? 128) l = true -> low_bytes O 0 l = l.
Proof.
  induction l as [|b l IH]; [reflexivity|].
  cbn [forallb low_bytes]. intros Hl. apply andb_prop in Hl as [Hb Hl].
  rewrite Hb. apply Z.ltb_lt in Hb.
  destruct (Z.leb_spec 128 (Z_of_byte b)); [lia|].
  cbn [andb]. now rewrite IH.
Qed.

Lemma ascii_bytes_ascii (s : string) :
  is_ascii s = true -> ascii_bytes s = utf8_bytes s.
Proof. apply low_bytes_ascii. Qed.

(** Outside ASCII they differ: U+00E9 is two bytes in UTF-8 and one code
    unit, U+20AC is three bytes and one code unit, of which the low byte is
    kept, and U+1F600 is four bytes and a surrogate pair. *)
Lemma ascii_bytes_code_units :
  ascii_bytes (String "195" (String "169" EmptyString)) = [xe9] /\
  ascii_bytes (String "226" (String "130" (String "172" EmptyString))) = [xac] /\
  ascii_bytes (String "240" (String "159" (String "152" (String "128" EmptyString))))
  = [x3d; x00].
Proof. vm_compute. repeat split. Qed.

Lemma info_bytes (base : string) (ctx : bytes) :
  info base ctx = ascii_bytes ("Content-Encoding: " ++ base) ++ [x00] ++ ctx.
Proof.
  unfold info.
  change ("Content-Encoding: " ++ base ++ String zero EmptyString)%string
    with (("Content-Encoding: " ++ base) ++ String zero EmptyString)%string.
  rewrite ascii_bytes_nul_end, <- app_assoc. reflexivity.
Qed.

Lemma ascii_bytes_nul : ascii_bytes (String zero EmptyString) = [x00].
Proof. reflexivity. Qed.

Section KeySchedule.
Context `{Crypto}.

Lemma extract_with_authSecret ks header mode authSecret r ikm :
  header_authSecret header = Some authSecret ->
  extractSecretAndContext ks (clear_authSecret header) mode = Ok r ->
  keyval_bytes (secret r) = Ok ikm ->
  extractSecretAndContext ks header mode
  = (s ← HKDF (base64_decode (Buffer_toString authSecret)) ikm
           (ascii_bytes "Content-Encoding: auth" ++ [x00]) 32;
     Ok {| secret := RawKey s; context := context r |}).
Proof.
  intros Hauth Hr Hikm.
  revert Hr. unfold extractSecretAndContext.
  cbn [clear_authSecret header_key header_dh header_keyid header_authSecret].
  rewrite Hauth.
  generalize (HKDF (base64_decode (Buffer_toString authSecret))).
  intros hk.
  match goal with
  | |- ?resolve ≫= _ = _ -> _ => destruct resolve as [r0|e]
  end; cbn [mbind outcome_bind]; [|discriminate].
  intros [= ->]. rewrite Hikm. cbn [mbind outcome_bind].
  rewrite info_bytes, app_nil_r. reflexivity.
Qed.


Lemma derive_with_authSecret ks header mode salt authSecret r ikm s :
  header_salt header = Some salt ->
  header_authSecret header = Some authSecret ->
  extractSecretAndContext ks (clear_authSecret header) mode = Ok r ->
  keyval_bytes (secret r) = Ok ikm ->
  HKDF (base64_decode (Buffer_toString authSecret)) ikm
       (ascii_bytes "Content-Encoding: auth" ++ [x00]) 32 = Ok s ->
     deriveKeyAndNonce ks header mode
     = (let prk := HMAC_SHA256 salt s in
        let '(keyInfo, nonceInfo) :=
          match header_type header with
          | aesgcm128 =>
              (ascii_bytes "Content-Encoding: aesgcm128",
               ascii_bytes "Content-Encoding: nonce")
          | aesgcm =>
              (ascii_bytes "Content-Encoding: aesgcm" ++ [x00] ++ context r,
               ascii_bytes "Content-Encoding: nonce" ++ [x00] ++ context r)
          | aes128gcm =>
              (ascii_bytes "Content-Encoding: aesgcm128" ++ [x00],
               ascii_bytes "Content-Encoding: nonce" ++ [x00])
          end in
        key ← HKDF_expand prk keyInfo 16;
        nonce ← HKDF_expand prk nonceInfo 12;
        Ok {| kn_key := key; kn_nonce := nonce |}).
Proof.
  intros Hsalt Hauth Hr Hikm Hs.
  unfold deriveKeyAndNonce.
  rewrite Hsalt, (extract_with_authSecret ks header mode authSecret r ikm Hauth Hr Hikm), Hs.
  cbn [mbind outcome_bind secret context keyval_bytes].
  unfold HKDF_extract, HMAC_hash, KEY_LENGTH, NONCE_LENGTH. cbv zeta.
  generalize (HKDF_expand (HMAC_SHA256 salt s)). intros expand.
  destruct (header_type header).
  - reflexivity.
  - rewrite !info_bytes. reflexivity.
  - reflexivity.
Qed.


(** C1, on the failing path.  Without [params.salt] the variant is
    [aes128gcm]; [decrypt] then hands its arguments to [readHeader] in the
    wrong order and stops with a [TypeError], whatever the ciphertext, so
    it never gives back what [encrypt] took. *)
Theorem decrypt_aes128gcm_fails ks random m params ciphertext :
  truthy (params_salt params) = false ->
  encrypt ks random m params = Ok ciphertext ->
  decrypt ks ciphertext (clear_pad params) = Err TypeError /\
  decrypt ks ciphertext (clear_pad params) <> Ok m.
Proof.
  intros Hsalt _.
  assert (E : decrypt ks ciphertext (clear_pad params) = Err TypeError).
  { unfold decrypt. cbn [clear_pad params_salt]. rewrite Hsalt. reflexivity. }
  split; [exact E|]. rewrite E. discriminate.
Qed.

Hypothesis base64_shrinks : forall s,
  4 * Z.of_nat (length (base64_decode s)) <= 3 * Z.of_nat (String.length s).
Hypothesis toString_length : forall b,
  (String.length (Buffer_toString b) <= length b)%nat.

(** C4, on the failing input.  With an [authSecret] in the header, the
    input keying material is replaced by an HKDF of length 32 with the info
    ["Content-Encoding: auth" NUL], and PRK, key and nonce base follow as
    stated; but the salt of that HKDF is not the (already decoded)
    [authSecret]: it is the base64 decoding of its text, which is shorter
    than any non-empty [authSecret]. *)
Theorem key_schedule_auth_salt ks header mode salt authSecret r ikm :
  header_salt header = Some salt ->
  header_authSecret header = Some authSecret ->
  authSecret <> [] ->
  extractSecretAndContext ks (clear_authSecret header) mode = Ok r ->
  keyval_bytes (secret r) = Ok ikm ->
  base64_decode (Buffer_toString authSecret) <> authSecret /\
  extractSecretAndContext ks header mode
  = (s ← HKDF (base64_decode (Buffer_toString authSecret)) ikm
           (ascii_bytes "Content-Encoding: auth" ++ [x00]) 32;
     Ok {| secret := RawKey s; context := context r |}) /\
  (forall s,
     HKDF (base64_decode (Buffer_toString authSecret)) ikm
       (ascii_bytes "Content-Encoding: auth" ++ [x00]) 32 = Ok s ->
     deriveKeyAndNonce ks header mode
     = (let prk := HMAC_SHA256 salt s in
        let '(keyInfo, nonceInfo) :=
          match header_type header with
          | aesgcm128 =>
              (ascii_bytes "Content-Encoding: aesgcm128",
               ascii_bytes "Content-Encoding: nonce")
          | aesgcm =>
              (ascii_bytes "Content-Encoding: aesgcm" ++ [x00] ++ context r,
               ascii_bytes "Content-Encoding: nonce" ++ [x00] ++ context r)
          | aes128gcm =>
              (ascii_bytes "Content-Encoding: aesgcm128" ++ [x00],
               ascii_bytes "Content-Encoding: nonce" ++ [x00])
          end in
        key ← HKDF_expand prk keyInfo 16;
        nonce ← HKDF_expand prk nonceInfo 12;
        Ok {| kn_key := key; kn_nonce := nonce |})).
Proof using base64_shrinks toString_length.
  intros Hsalt Hauth Hne Hr Hikm.
  split; [|split].
  - intros E.
    pose proof (base64_shrinks (Buffer_toString authSecret)) as H1.
    pose proof (toString_length authSecret) as H2.
    rewrite E in H1. destruct authSecret; [contradiction|]. cbn [length] in *. lia.
  - exact (extract_with_authSecret ks header mode authSecret r ikm Hauth Hr Hikm).
  - intros s Hs.
    exact (derive_with_authSecret ks header mode salt authSecret r ikm s
             Hsalt Hauth Hr Hikm Hs).
Qed.


(** ** The key store as an object *)

Lemma property_own {V : Type} (value : V -> keyval) (o : gmap string V)
    (name : string) (v : V) :
  o !! name = Some v -> property value o name = Ok (Some (value v)).
Proof. intros E. unfold property. now rewrite E. Qed.

Lemma property_plain {V : Type} (value : V -> keyval) (o : gmap string V)
    (name : string) :
  o !! name = None -> o !! "__proto__" = None ->
  property value o name
  = Ok (if inherits_from_Object name then Some Foreign else None).
Proof. intros E P. unfold property. now rewrite E, P. Qed.

Lemma property_reparented {V : Type} (value : V -> keyval) (o : gmap string V)
    (name : string) (p : V) :
  o !! name = None -> o !! "__proto__" = Some p ->
  property value o name = inherited (value p) name.
Proof. intros E P. unfold property. now rewrite E, P. Qed.

Lemma property_insert_ne {V : Type} (value : V -> keyval) (o : gmap string V)
    (name name' : string) (v : V) :
  name' <> name -> name <> "__proto__" ->
  property value (<[name := v]> o) name' = property value o name'.
Proof.
  intros Hne Hproto. unfold property.
  rewrite (lookup_insert_ne o name name' v) by congruence.
  rewrite (lookup_insert_ne o name "__proto__" v) by congruence.
  reflexivity.
Qed.

Lemma assign_plain {V : Type} (value : V -> keyval) (element : bytes -> V)
    (o : gmap string V) (name : string) (v : V) :
  o !! "__proto__" = None ->
  assign value element o name v = (<[name := v]> o, None).
Proof. intros P. unfold assign. rewrite P. now destruct (o !! name). Qed.

(** On stores that still have their initial prototype, [saveKey] writes
    both entries and does not throw. *)
Lemma saveKey_plain (ks : keystore) (id : string) (key : keyval)
    (dhLabel : option string) :
  savedKeys ks !! "__proto__" = None ->
  keyLabels ks !! "__proto__" = None ->
  saveKey ks id key dhLabel
  = ({| savedKeys := <[id := key]> (savedKeys ks);
        keyLabels :=
          if truthy dhLabel
          then <[id := ascii_bytes (prop_key dhLabel ++ String zero EmptyString)]>
                 (keyLabels ks)
          else keyLabels ks |}, None).
Proof.
  intros Pk Pl. unfold saveKey.
  rewrite (assign_plain (fun v => v) RawKey _ id key Pk).
  destruct (truthy dhLabel); [|reflexivity].
  now rewrite (assign_plain RawKey (fun b => b) _ id _ Pl).
Qed.

(** C10, with the failing identifier.  On a store whose objects have their
    initial prototype, and for an identifier other than ["__proto__"],
    [saveKey] without a label (absent or empty) replaces what is read under
    [id], leaves every label as it was, including the one of [id], and
    leaves what is read under every other identifier alone; an ECDH
    operation under [id] then runs with the new key and the old label.
    With a label, the label is stored with a NUL byte appended, and what is
    read under the other identifiers is unchanged.  For ["__proto__"] the
    key and the label are read back as well, but the key becomes the
    prototype of the store: an identifier that the store does not own was
    read from [Object.prototype] before and is read from the chain of the
    key afterwards. *)
Theorem saveKey_frame (ks : keystore) (id : string) (key : keyval) :
  savedKeys ks !! "__proto__" = None ->
  keyLabels ks !! "__proto__" = None ->
  (forall dhLabel, truthy dhLabel = false ->
     let ks' := fst (saveKey ks id key dhLabel) in
     snd (saveKey ks id key dhLabel) = None /\
     property (fun v => v) (savedKeys ks') id = Ok (Some key) /\
     keyLabels ks' = keyLabels ks /\
     (id <> "__proto__" ->
      forall id', id' <> id ->
        property (fun v => v) (savedKeys ks') id'
        = property (fun v => v) (savedKeys ks) id') /\
     (id = "__proto__" ->
      forall id', id' <> id -> savedKeys ks !! id' = None ->
        property (fun v => v) (savedKeys ks) id'
        = Ok (if inherits_from_Object id' then Some Foreign else None) /\
        property (fun v => v) (savedKeys ks') id' = inherited key id')) /\
  (forall dhLabel k label share mode,
     truthy dhLabel = false -> key = ECDHKey k ->
     keyLabels ks !! id = Some label ->
     extractDH (fst (saveKey ks id key dhLabel)) (Some id) share mode
     = match computeSecret k share with
       | None => Err CryptoError
       | Some sec =>
           let '(senderPubKey, receiverPubKey) :=
             match mode with
             | MODE_ENCRYPT => (getPublicKey k, share)
             | MODE_DECRYPT => (share, getPublicKey k)
             end in
           r ← lengthPrefix receiverPubKey;
           s ← lengthPrefix senderPubKey;
           Ok {| secret := RawKey sec; context := label ++ r ++ s |}
       end) /\
  (forall dhLabel, truthy (Some dhLabel) = true ->
     let ks' := fst (saveKey ks id key (Some dhLabel)) in
     snd (saveKey ks id key (Some dhLabel)) = None /\
     property (fun v => v) (savedKeys ks') id = Ok (Some key) /\
     property RawKey (keyLabels ks') id
     = Ok (Some (RawKey (ascii_bytes dhLabel ++ [x00]))) /\
     (id <> "__proto__" ->
      forall id', id' <> id ->
        property (fun v => v) (savedKeys ks') id'
        = property (fun v => v) (savedKeys ks) id' /\
        property RawKey (keyLabels ks') id' = property RawKey (keyLabels ks) id')).
Proof.
  intros Pk Pl. split; [|split].
  - intros dhLabel Hl. rewrite (saveKey_plain ks id key dhLabel Pk Pl), Hl.
    cbn [fst snd savedKeys keyLabels]. split; [reflexivity|].
    split; [apply (property_own (fun v => v)), lookup_insert_eq|]. split; [reflexivity|]. split.
    + intros Hid id' Hne. now apply property_insert_ne.
    + intros -> id' Hne Hown. split; [now apply property_plain|].
      apply (property_reparented (fun v => v) _ id' key).
      * rewrite lookup_insert_ne by congruence. exact Hown.
      * apply lookup_insert_eq.
  - intros dhLabel k label share mode Hl -> Hlabel.
    rewrite (saveKey_plain ks id (ECDHKey k) dhLabel Pk Pl), Hl.
    cbn [fst savedKeys keyLabels]. unfold extractDH. cbn [savedKeys keyLabels prop_key].
    rewrite (property_own (fun v => v) _ id (ECDHKey k)) by apply lookup_insert_eq.
    rewrite (property_own RawKey _ id label Hlabel). cbn [mbind outcome_bind].
    destruct mode; destruct (computeSecret k share); reflexivity.
  - intros dhLabel Hl. rewrite (saveKey_plain ks id key (Some dhLabel) Pk Pl), Hl.
    cbn [fst snd savedKeys keyLabels prop_key]. split; [reflexivity|].
    split; [apply (property_own (fun v => v)), lookup_insert_eq|]. split.
    + rewrite (property_own RawKey _ id _ (lookup_insert_eq _ _ _)).
      now rewrite ascii_bytes_nul_end.
    + intros Hid id' Hne. split; now apply property_insert_ne.
Qed.

End KeySchedule.

(** ** Further properties of the nonce generator *)

(** X6.  Under one 12-byte nonce base, two record counters below 2^48 get
    the same nonce only if they are the same counter: no nonce is used for
    two records of a message. *)
Theorem generateNonce_injective (base : bytes) (i j : Z) :
  length base = 12%nat ->
  0 <= i < 2 ^ 48 -> 0 <= j < 2 ^ 48 ->
  generateNonce base i = generateNonce base j ->
  i = j.
Proof.
  intros Hlen Hi Hj. rewrite !generateNonce_lxor by assumption.
  intros E.
  assert (E' : take 6 base ++ be_encode 6 (Z.lxor (be_decode (drop 6 base)) i)
               = take 6 base ++ be_encode 6 (Z.lxor (be_decode (drop 6 base)) j))
    by congruence.
  clear E. rename E' into E. apply app_inv_head in E.
  pose proof (be_decode_range (drop 6 base)) as Hm.
  rewrite length_drop, Hlen in Hm. change (8 * Z.of_nat (12 - 6)) with 48 in Hm.
  set (m := be_decode (drop 6 base)) in *.
  apply (f_equal be_decode) in E.
  rewrite !be_decode_encode_mod in E. change (8 * Z.of_nat 6) with 48 in E.
  rewrite !Z.mod_small in E by (apply (lxor_range _ _ 48); lia).
  apply (f_equal (Z.lxor m)) in E.
  now rewrite <- !Z.lxor_assoc, Z.lxor_nilpotent, !Z.lxor_0_l in E.
Qed.

(** X7.  On a nonce base of at least six bytes [generateNonce] succeeds for
    every counter, also one of 2^48 or more; the nonce is as long as the
    base and differs from it in the last six bytes at most.  On a shorter
    base it throws. *)
Theorem generateNonce_shape (base : bytes) (i : Z) :
  (6 <= blen base ->
   exists nonce, generateNonce base i = Ok nonce /\
     length nonce = length base /\
     take (length base - 6) nonce = take (length base - 6) base) /\
  (blen base < 6 -> generateNonce base i = Err RangeError).
Proof.
  split.
  - intros Hlen. unfold generateNonce.
    rewrite readUIntBE_ok by lia. cbn [mbind outcome_bind].
    set (m := be_decode _).
    assert (Hand : forall a, 0 <= js_and a 0xffffff < 2 ^ 24).
    { intros a. unfold js_and.
      replace (toInt32 0xffffff) with (Z.ones 24) by reflexivity.
      rewrite Z.land_ones by lia. apply Z.mod_pos_bound. lia. }
    pose proof (Hand (js_xor m i)).
    pose proof (Hand (js_xor (js_div_trunc m 16777216) (js_div_trunc i 16777216))).
    rewrite writeUIntBE_ok; [| |lia|lia]; [|change (8 * 6) with 48; lia].
    eexists. split; [reflexivity|]. unfold blen in *.
    replace (Z.to_nat (Z.of_nat (length base) - 6)) with (length base - 6)%nat by lia.
    split.
    + rewrite !length_app, length_take, be_encode_length, length_drop. lia.
    + rewrite take_app_length'; [reflexivity|]. rewrite length_take. lia.
  - intros Hshort. unfold generateNonce, readUIntBE.
    destruct (Z.ltb_spec (blen base - 6) 0); [reflexivity|lia].
Qed.


(** ** Bounds of the key derivation and key resolution *)

Section HKDFBounds.
Context `{Crypto}.
Hypothesis HMAC_length : forall key input, length (HMAC_SHA256 key input) = 32%nat.

Lemma HKDF_expand_loop_overflow prk info l k :
  255 * 32 < l ->
  forall c fuel, (c + k = 255)%nat -> (k < fuel)%nat ->
  HKDF_expand_loop fuel prk info l (spec_T_concat prk info c) (spec_T prk info c)
    (Z.of_nat c) = Err RangeError.
Proof using HMAC_length.
  intros Hl. induction k as [|k IH]; intros c fuel Hc Hfuel;
    (destruct fuel as [|fuel]; [lia|]); cbn [HKDF_expand_loop];
    unfold blen at 1; rewrite (spec_T_concat_length HMAC_length);
    (destruct (Z.ltb_spec (Z.of_nat (32 * c)) l); [|lia]).
  - rewrite writeUIntBE_overflow by (change (2 ^ (8 * 1)) with 256; lia). reflexivity.
  - rewrite writeUIntBE_ok by (unfold blen; simpl; lia).
    cbn [mbind outcome_bind].
    change (Z.to_nat 0) with 0%nat. change (Z.to_nat 1) with 1%nat.
    change (Z.to_nat (0 + 1)) with 1%nat.
    cbn [take drop be_encode app].
    change (8 * Z.of_nat 0) with 0. rewrite Z.shiftr_0_r.
    replace (Z.of_nat c + 1) with (Z.of_nat (S c)) by lia.
    apply (IH (S c) fuel); lia.
Qed.

Lemma HKDF_expand_loop_done fuel prk info l output T counter :
  l <= blen output ->
  HKDF_expand_loop fuel prk info l output T counter = Ok output.
Proof.
  intros Hl. destruct fuel; cbn [HKDF_expand_loop];
    (destruct (Z.ltb_spec (blen output) l); [lia|reflexivity]).
Qed.

(** X8.  With a 32-byte HMAC, [HKDF_expand] returns exactly [l] bytes for
    every [l] from 0 to 255 * 32, returns the empty buffer for a negative
    [l], and throws for a larger [l], when the block counter no longer fits
    its byte. *)
Theorem HKDF_expand_bounds prk info l :
  (0 <= l <= 255 * 32 ->
     exists out, HKDF_expand prk info l = Ok out /\ blen out = l) /\
  (l < 0 -> HKDF_expand prk info l = Ok []) /\
  (255 * 32 < l -> HKDF_expand prk info l = Err RangeError).
Proof using HMAC_length.
  split; [|split].
  - intros Hl. destruct (blocks_needed l Hl) as [Hn1 Hn2].
    eexists. split.
    + apply (HKDF_expand_blocks HMAC_length prk info l _ ltac:(lia) Hn1 Hn2).
    + unfold blen. rewrite length_take, (spec_T_concat_length HMAC_length).
      set (n := Z.to_nat ((l + 31) / 32)) in *. clearbody n. lia.
  - intros Hl. unfold HKDF_expand.
    rewrite HKDF_expand_loop_done by (change (blen []) with 0; lia).
    cbn [mbind outcome_bind]. f_equal. unfold Buffer_slice.
    rewrite drop_nil. apply take_nil.
  - intros Hl. unfold HKDF_expand.
    pose proof (HKDF_expand_loop_overflow prk info l 255 Hl 0 256
                  ltac:(reflexivity) ltac:(lia)) as E.
    change (HKDF_expand_loop 256 prk info l [] [] 0 = Err RangeError) in E.
    rewrite E. reflexivity.
Qed.

(** X9.  The key schedule needs a salt, and what it returns is a 16-byte
    key with a 12-byte nonce base. *)
Theorem key_schedule_lengths ks header mode :
  (header_salt header = None ->
     deriveKeyAndNonce ks header mode = Err MissingSaltFor) /\
  (forall key, deriveKeyAndNonce ks header mode = Ok key ->
     blen (kn_key key) = 16 /\ blen (kn_nonce key) = 12).
Proof using HMAC_length.
  split.
  - intros Hsalt. unfold deriveKeyAndNonce. now rewrite Hsalt.
  - intros key Hkey. exact (deriveKeyAndNonce_lengths HMAC_length ks header mode key Hkey).
Qed.

End HKDFBounds.

Section Resolution.
Context `{Crypto}.

(** X10.  [lengthPrefix] puts the length of a buffer in front of it, in two
    big-endian bytes that read back as that length, and throws for a buffer
    of 65536 bytes or more. *)
Theorem lengthPrefix_bounds (buffer : bytes) :
  (blen buffer < 65536 ->
     lengthPrefix buffer = Ok (be_encode 2 (blen buffer) ++ buffer) /\
     be_decode (be_encode 2 (blen buffer)) = blen buffer) /\
  (65536 <= blen buffer -> lengthPrefix buffer = Err RangeError).
Proof.
  pose proof (blen_nonneg buffer) as Hb. unfold lengthPrefix. split.
  - intros Hlen. split.
    + rewrite writeUIntBE_ok;
        [|change (2 ^ (8 * 2)) with 65536; lia|lia
         |rewrite blen_app; unfold blen at 1; cbn; lia].
      reflexivity.
    + apply (be_decode_encode 2); [lia|change (2 ^ (8 * 2)) with 65536; lia].
  - intros Hlen. apply writeUIntBE_overflow. change (2 ^ (8 * 2)) with 65536. lia.
Qed.

(** X11.  An explicit key decides alone: with a 16-byte [key] in the header
    (and no [authSecret]) the secret is that key and the context is empty,
    whatever the key store, [keyid], [dh] and mode are; with a key of
    another length the header is rejected, whatever else it holds. *)
Theorem explicit_key_first ks header mode key :
  header_key header = Some key ->
  (blen key <> 16 -> extractSecretAndContext ks header mode = Err BadKeyLength) /\
  (blen key = 16 -> header_authSecret header = None ->
     extractSecretAndContext ks header mode
     = Ok {| secret := RawKey key; context := [] |}).
Proof.
  intros Hkey. unfold extractSecretAndContext. rewrite Hkey. unfold KEY_LENGTH. split.
  - intros Hlen. destruct (Z.eqb_spec (blen key) 16); [contradiction|reflexivity].
  - intros Hlen Hauth. rewrite Hauth.
    destruct (Z.eqb_spec (blen key) 16); [reflexivity|contradiction].
Qed.

(** X12.  A key saved under a non-empty identifier, on a store that has
    its initial prototype, is the secret of every later header that names
    the identifier and carries neither [key] nor [dh] (nor [authSecret]).
    An identifier under which the store reads nothing gives
    [UnableToDetermineKey]; on a store with its initial prototype that is
    an identifier that was never saved and that is no property of
    [Object.prototype].  One that is, such as ["constructor"], is taken for
    a key without having been saved. *)
Theorem saved_key_resolves ks id key dhLabel header mode :
  truthy (Some id) = true ->
  header_key header = None -> header_dh header = None ->
  header_authSecret header = None ->
  header_keyid header = Some id ->
  (savedKeys ks !! "__proto__" = None ->
   extractSecretAndContext (fst (saveKey ks id key dhLabel)) header mode
   = Ok {| secret := key; context := [] |}) /\
  (property (fun v => v) (savedKeys ks) id = Ok None ->
   extractSecretAndContext ks header mode = Err UnableToDetermineKey) /\
  (savedKeys ks !! id = None -> savedKeys ks !! "__proto__" = None ->
   extractSecretAndContext ks header mode
   = if inherits_from_Object id
     then Ok {| secret := Foreign; context := [] |}
     else Err UnableToDetermineKey).
Proof.
  intros Hid Hkey Hdh Hauth Hkeyid. unfold extractSecretAndContext.
  rewrite Hkey, Hdh, Hauth, Hkeyid, Hid. cbn [prop_key]. split; [|split].
  - intros Pk.
    assert (E : savedKeys (fst (saveKey ks id key dhLabel)) !! id = Some key).
    { unfold saveKey. rewrite (assign_plain (fun v => v) RawKey _ id key Pk).
      destruct (truthy dhLabel); [destruct (assign RawKey _ _ _ _)|];
        cbn [fst savedKeys]; apply lookup_insert_eq. }
    rewrite (property_own (fun v => v) _ id key E). reflexivity.
  - intros Hnone. rewrite Hnone. reflexivity.
  - intros Hown Pk. rewrite (property_plain (fun v => v) _ id Hown Pk).
    destruct (inherits_from_Object id); reflexivity.
Qed.

(** X13.  An ECDH key pair saved without a label cannot be used: when the
    label store reads nothing under the identifier, [extractDH] fails with
    [NoKnownDHKeyLabel]; and it fails with [NoKnownDHKey] when the key store
    reads nothing under it.  On stores with their initial prototype an
    identifier that was never saved passes both tests if it names a
    property of [Object.prototype], such as ["toString"], and the call then
    fails with a [TypeError] on the function it took for a key pair. *)
Theorem dh_needs_key_and_label ks id key share mode :
  (savedKeys ks !! "__proto__" = None ->
   property RawKey (keyLabels ks) id = Ok None ->
     extractDH (fst (saveKey ks id key None)) (Some id) share mode
     = Err (NoKnownDHKeyLabel id)) /\
  (property (fun v => v) (savedKeys ks) id = Ok None ->
     extractDH ks (Some id) share mode = Err (NoKnownDHKey id)) /\
  (savedKeys ks !! id = None -> savedKeys ks !! "__proto__" = None ->
   keyLabels ks !! id = None -> keyLabels ks !! "__proto__" = None ->
     extractDH ks (Some id) share mode
     = if inherits_from_Object id then Err TypeError else Err (NoKnownDHKey id)).
Proof.
  split; [|split].
  - intros Pk Hl. unfold extractDH, saveKey. change (truthy None) with false.
    rewrite (assign_plain (fun v => v) RawKey _ id key Pk).
    cbn [fst savedKeys keyLabels prop_key].
    rewrite (property_own (fun v => v) _ id key) by apply lookup_insert_eq.
    cbn [mbind outcome_bind]. rewrite Hl. reflexivity.
  - intros Hk. unfold extractDH. cbn [prop_key]. rewrite Hk. reflexivity.
  - intros Hk Pk Hl Pl. unfold extractDH. cbn [prop_key].
    rewrite (property_plain (fun v => v) _ id Hk Pk), (property_plain RawKey _ id Hl Pl).
    cbn [mbind outcome_bind]. destruct (inherits_from_Object id); reflexivity.
Qed.

Lemma parseParams_fields params header :
  parseParams params = Ok header ->
  header_type header
  = match params_padSize params with JNumber 1 => aesgcm128 | _ => aesgcm end /\
  determineRecordSize (params_rs params) (header_type header) = Ok (header_rs header) /\
  header_salt header
  = (if truthy (params_salt params)
     then Some (base64_decode (prop_key (params_salt params))) else None) /\
  (truthy (params_salt params) = true ->
     blen (base64_decode (prop_key (params_salt params))) = 16) /\
  header_keyid header = params_keyid params /\
  header_key header = decode_opt (params_key params) /\
  header_dh header = decode_opt (params_dh params) /\
  header_authSecret header = decode_opt (params_authSecret params).
Proof.
  unfold parseParams, extractSalt.
  destruct (truthy (params_salt params)) eqn:Hsalt; cbn [negb].
  - unfold KEY_LENGTH.
    destruct (Z.eqb_spec (blen (base64_decode (prop_key (params_salt params)))) 16)
      as [Hlen|Hlen]; cbn [negb fmap outcome_fmap mbind outcome_bind]; [|discriminate].
    destruct (determineRecordSize _ _) as [rs|] eqn:E;
      cbn [mbind outcome_bind]; [|discriminate].
    intros [= <-]. cbn. rewrite E. tauto.
  - cbn [mbind outcome_bind].
    destruct (determineRecordSize _ _) as [rs|] eqn:E;
      cbn [mbind outcome_bind]; [|discriminate].
    intros [= <-]. cbn. rewrite E. repeat split; try reflexivity. discriminate.
Qed.

(** X14.  A header that [parseParams] returns is well formed: its record
    size exceeds the pad-length field of its variant (so each record has
    room for data), its salt, when there is one, has 16 bytes, and its
    variant is [aesgcm128] exactly when [params.padSize] is the number 1. *)
Theorem parseParams_invariant params header :
  parseParams params = Ok header ->
  PAD_SIZE (header_type header) < header_rs header /\
  (forall salt, header_salt header = Some salt -> blen salt = 16) /\
  (header_type header = aesgcm128 <-> params_padSize params = JNumber 1) /\
  header_type header <> aes128gcm.
Proof.
  intros Hp.
  destruct (parseParams_fields params header Hp)
    as (Htype & Hrs & Hsalt & Hlen & _).
  split; [exact (determineRecordSize_above _ _ _ Hrs)|]. split; [|split].
  - intros salt. rewrite Hsalt.
    destruct (truthy (params_salt params)); [|discriminate].
    intros [= <-]. now apply Hlen.
  - rewrite Htype. destruct (params_padSize params) as [|[|[p|p|]|]|];
      split; congruence.
  - rewrite Htype. destruct (params_padSize params) as [|[|[p|p|]|]|]; discriminate.
Qed.

End Resolution.

(** ** Two sides of an exchange *)

Section Agreement.
Context `{Crypto}.

Lemma extractDH_sides ksE ksD idE idD a b label :
  savedKeys ksE !! prop_key idE = Some (ECDHKey a) ->
  keyLabels ksE !! prop_key idE = Some label ->
  savedKeys ksD !! prop_key idD = Some (ECDHKey b) ->
  keyLabels ksD !! prop_key idD = Some label ->
  computeSecret a (getPublicKey b) = computeSecret b (getPublicKey a) ->
  extractDH ksE idE (getPublicKey b) MODE_ENCRYPT
  = extractDH ksD idD (getPublicKey a) MODE_DECRYPT.
Proof.
  intros HkE HlE HkD HlD Hdh. unfold extractDH.
  rewrite (property_own (fun v => v) _ _ _ HkE), (property_own RawKey _ _ _ HlE).
  rewrite (property_own (fun v => v) _ _ _ HkD), (property_own RawKey _ _ _ HlD).
  cbn [mbind outcome_bind]. rewrite Hdh. reflexivity.
Qed.

Lemma deriveKeyAndNonce_sides ksE ksD hE hD a b label :
  header_type hE = header_type hD ->
  header_salt hE = header_salt hD ->
  header_authSecret hE = header_authSecret hD ->
  header_key hE = None -> header_key hD = None ->
  header_dh hE = Some (getPublicKey b) ->
  header_dh hD = Some (getPublicKey a) ->
  savedKeys ksE !! prop_key (header_keyid hE) = Some (ECDHKey a) ->
  keyLabels ksE !! prop_key (header_keyid hE) = Some label ->
  savedKeys ksD !! prop_key (header_keyid hD) = Some (ECDHKey b) ->
  keyLabels ksD !! prop_key (header_keyid hD) = Some label ->
  computeSecret a (getPublicKey b) = computeSecret b (getPublicKey a) ->
  deriveKeyAndNonce ksE hE MODE_ENCRYPT = deriveKeyAndNonce ksD hD MODE_DECRYPT.
Proof.
  intros Htype Hsalt Hauth HkeyE HkeyD HdhE HdhD HkE HlE HkD HlD Hdh.
  assert (Hx : extractSecretAndContext ksE hE MODE_ENCRYPT
               = extractSecretAndContext ksD hD MODE_DECRYPT).
  { unfold extractSecretAndContext.
    rewrite HkeyE, HkeyD, HdhE, HdhD, Hauth.
    rewrite (extractDH_sides ksE ksD _ _ a b label HkE HlE HkD HlD Hdh).
    reflexivity. }
  unfold deriveKeyAndNonce. rewrite Hx, Hsalt, Htype. reflexivity.
Qed.

(** X2.  Key agreement.  A sender holding the key pair [a] and the
    receiver's public key, and a receiver holding the key pair [b] and the
    sender's public key, with the same label on both sides and an ECDH
    backend on which the two shared secrets agree, build the same DH
    context and derive the same key and nonce base. *)
Theorem dh_key_agreement ksE ksD hE hD a b label :
  header_type hE = header_type hD ->
  header_salt hE = header_salt hD ->
  header_authSecret hE = header_authSecret hD ->
  header_key hE = None -> header_key hD = None ->
  header_dh hE = Some (getPublicKey b) ->
  header_dh hD = Some (getPublicKey a) ->
  savedKeys ksE !! prop_key (header_keyid hE) = Some (ECDHKey a) ->
  keyLabels ksE !! prop_key (header_keyid hE) = Some label ->
  savedKeys ksD !! prop_key (header_keyid hD) = Some (ECDHKey b) ->
  keyLabels ksD !! prop_key (header_keyid hD) = Some label ->
  computeSecret a (getPublicKey b) = computeSecret b (getPublicKey a) ->
  extractDH ksE (header_keyid hE) (getPublicKey b) MODE_ENCRYPT
  = extractDH ksD (header_keyid hD) (getPublicKey a) MODE_DECRYPT /\
  deriveKeyAndNonce ksE hE MODE_ENCRYPT = deriveKeyAndNonce ksD hD MODE_DECRYPT.
Proof.
  intros Htype Hsalt Hauth HkeyE HkeyD HdhE HdhD HkE HlE HkD HlD Hdh. split.
  - exact (extractDH_sides ksE ksD _ _ a b label HkE HlE HkD HlD Hdh).
  - exact (deriveKeyAndNonce_sides ksE ksD hE hD a b label Htype Hsalt Hauth
             HkeyE HkeyD HdhE HdhD HkE HlE HkD HlD Hdh).
Qed.

(** Without [dh], or with an explicit key, the key schedule does not look
    at the mode. *)
Lemma deriveKeyAndNonce_mode_free ks header mode mode' :
  header_dh header = None \/ header_key header <> None ->
  deriveKeyAndNonce ks header mode = deriveKeyAndNonce ks header mode'.
Proof.
  intros Hk.
  assert (Hx : extractSecretAndContext ks header mode
               = extractSecretAndContext ks header mode').
  { unfold extractSecretAndContext.
    destruct (header_key header) as [k|]; [reflexivity|].
    destruct Hk as [-> | Hk]; [reflexivity|contradiction]. }
  unfold deriveKeyAndNonce. rewrite Hx. reflexivity.
Qed.

End Agreement.

Section RoundTrips.
Context `{Crypto}.
Hypothesis HMAC_length : forall key input, length (HMAC_SHA256 key input) = 32%nat.
Hypothesis gcm_correct : forall key nonce plaintext body tag,
  gcm_encrypt key nonce plaintext = (body, tag) ->
  gcm_decrypt key nonce body tag = Some plaintext.
Hypothesis gcm_tag_length : forall key nonce plaintext,
  length (snd (gcm_encrypt key nonce plaintext)) = 16%nat.
Hypothesis gcm_body_length : forall key nonce plaintext,
  length (fst (gcm_encrypt key nonce plaintext)) = length plaintext.

(** X1.  Round trip of the legacy variants ([aesgcm], [aesgcm128]).  With
    an explicit key or a stored raw key (no [dh]), whenever the key schedule
    succeeds and the requested pad can be placed, [encrypt] succeeds and
    [decrypt], given the same parameters without [pad], returns the
    plaintext. *)
Theorem legacy_round_trip ks random m params header key records :
  truthy (params_salt params) = true ->
  parseParams params = Ok header ->
  header_dh header = None \/ header_key header <> None ->
  deriveKeyAndNonce ks header MODE_ENCRYPT = Ok key ->
  0 <= match parseInt (params_pad params) with Some p => p | None => 0 end ->
  spec_records (header_rs header) (PAD_SIZE (header_type header)) (blen m) 0
    (match parseInt (params_pad params) with Some p => p | None => 0 end) records 0 ->
  exists ciphertext,
    encrypt ks random m params = Ok ciphertext /\
    decrypt ks ciphertext (clear_pad params) = Ok m.
Proof using HMAC_length gcm_correct gcm_tag_length gcm_body_length.
  intros Hsalt Hparse Hmode Hkey Hpad Hrec.
  apply (round_trip_two_sides HMAC_length gcm_correct gcm_tag_length gcm_body_length
           ks ks random m params (clear_pad params) header header key records);
    try assumption; try reflexivity.
  now rewrite <- (deriveKeyAndNonce_mode_free ks header MODE_ENCRYPT MODE_DECRYPT Hmode).
Qed.

(** X3.  Round trip over ECDH ([aesgcm], [aesgcm128]).  A sender with key
    pair [a] who names the receiver's public key in [dh], and a receiver
    with key pair [b] who names the sender's public key, with the same
    salt, record size, variant, [authSecret] and label: what the sender
    encrypts, the receiver decrypts to the plaintext. *)
Theorem dh_round_trip ksE ksD random m paramsE paramsD hE hD a b label key records :
  truthy (params_salt paramsE) = true ->
  params_salt paramsD = params_salt paramsE ->
  params_rs paramsD = params_rs paramsE ->
  params_padSize paramsD = params_padSize paramsE ->
  params_authSecret paramsD = params_authSecret paramsE ->
  parseParams paramsE = Ok hE ->
  parseParams paramsD = Ok hD ->
  header_key hE = None -> header_key hD = None ->
  header_dh hE = Some (getPublicKey b) ->
  header_dh hD = Some (getPublicKey a) ->
  savedKeys ksE !! prop_key (params_keyid paramsE) = Some (ECDHKey a) ->
  keyLabels ksE !! prop_key (params_keyid paramsE) = Some label ->
  savedKeys ksD !! prop_key (params_keyid paramsD) = Some (ECDHKey b) ->
  keyLabels ksD !! prop_key (params_keyid paramsD) = Some label ->
  computeSecret a (getPublicKey b) = computeSecret b (getPublicKey a) ->
  deriveKeyAndNonce ksE hE MODE_ENCRYPT = Ok key ->
  0 <= match parseInt (params_pad paramsE) with Some p => p | None => 0 end ->
  spec_records (header_rs hE) (PAD_SIZE (header_type hE)) (blen m) 0
    (match parseInt (params_pad paramsE) with Some p => p | None => 0 end) records 0 ->
  exists ciphertext,
    encrypt ksE random m paramsE = Ok ciphertext /\
    decrypt ksD ciphertext paramsD = Ok m.
Proof using HMAC_length gcm_correct gcm_tag_length gcm_body_length.
  intros HsaltE HsaltD Hrs HpadSize Hauth HparseE HparseD HkeyE HkeyD HdhE HdhD
    HkE HlE HkD HlD Hdh Hkey Hpad Hrec.
  destruct (parseParams_fields paramsE hE HparseE)
    as (HtE & HrE & HsE & _ & HidE & _ & _ & HaE).
  destruct (parseParams_fields paramsD hD HparseD)
    as (HtD & HrD & HsD & _ & HidD & _ & _ & HaD).
  assert (Htype : header_type hE = header_type hD) by (rewrite HtE, HtD, HpadSize; reflexivity).
  assert (Hrseq : header_rs hE = header_rs hD).
  { rewrite Hrs, <- Htype in HrD. rewrite HrE in HrD. now injection HrD. }
  assert (Hsalt : header_salt hE = header_salt hD) by (rewrite HsE, HsD, HsaltD; reflexivity).
  assert (Hau : header_authSecret hE = header_authSecret hD)
    by (rewrite HaE, HaD, Hauth; reflexivity).
  rewrite <- HidE in HkE, HlE. rewrite <- HidD in HkD, HlD.
  apply (round_trip_two_sides HMAC_length gcm_correct gcm_tag_length gcm_body_length
           ksE ksD random m paramsE paramsD hE hD key records);
    try assumption.
  - now rewrite HsaltD.
  - rewrite <- (deriveKeyAndNonce_sides ksE ksD hE hD a b label Htype Hsalt Hau
                  HkeyE HkeyD HdhE HdhD HkE HlE HkD HlD Hdh).
    exact Hkey.
Qed.

Lemma encryptRecord_tagged key counter buffer pad padSize block :
  encryptRecord key counter buffer pad padSize = Ok block -> 16 <= blen block.
Proof.
  unfold encryptRecord. intros Henc.
  apply bind_Ok_inv in Henc as (nonce & _ & Henc).
  apply bind_Ok_inv in Henc as (padding & _ & Henc).
  destruct (gcm_encrypt _ _ _) as [body tag]. unfold TAG_LENGTH in Henc.
  destruct (Z.eqb_spec (blen tag) 16) as [Htag|]; cbn [negb] in Henc; [|discriminate].
  injection Henc as <-. rewrite blen_app. pose proof (blen_nonneg body). lia.
Qed.

Lemma encrypt_loop_extends fuel key rs padSize buffer :
  forall i start pad result pad' out,
  encrypt_loop fuel key rs padSize buffer i start pad result = Ok (pad', out) ->
  exists rest, out = result ++ rest.
Proof.
  induction fuel as [|fuel IH]; intros i start pad result pad' out;
    cbn [encrypt_loop]; destruct (start <=? blen buffer); try discriminate.
  - intros [= <- <-]. exists []. now rewrite app_nil_r.
  - intros Hloop. apply bind_Ok_inv in Hloop as (block & _ & Hloop).
    apply IH in Hloop as [rest ->]. exists (block ++ rest). now rewrite app_assoc.
  - intros [= <- <-]. exists []. now rewrite app_nil_r.
Qed.

Lemma encrypt_records_extends key rs padSize buffer pad result out :
  encrypt_records key rs padSize buffer pad result = Ok out ->
  exists block rest, out = result ++ block ++ rest /\ 16 <= blen block.
Proof.
  unfold encrypt_records. intros Hrec.
  apply bind_Ok_inv in Hrec as ([pad' out'] & Hloop & Hrec).
  destruct (negb (pad' =? 0)); [discriminate|]. injection Hrec as <-.
  revert Hloop. generalize (S (length buffer)). intros fuel Hloop.
  cbn [encrypt_loop] in Hloop. pose proof (blen_nonneg buffer).
  destruct (Z.leb_spec 0 (blen buffer)); [|lia].
  apply bind_Ok_inv in Hloop as (block & Hblock & Hloop).
  apply encryptRecord_tagged in Hblock.
  apply encrypt_loop_extends in Hloop as [rest ->].
  exists block, rest. split; [now rewrite <- app_assoc|exact Hblock].
Qed.

(** X5.  The legacy [decrypt] takes the empty buffer for a complete
    message: with parameters on which the key schedule succeeds, it returns
    the empty plaintext.  [encrypt] never writes such a ciphertext: whatever
    it returns holds a record with its 16-byte tag. *)
Theorem decrypt_empty ks params header key :
  truthy (params_salt params) = true ->
  parseParams params = Ok header ->
  deriveKeyAndNonce ks header MODE_DECRYPT = Ok key ->
  decrypt ks [] params = Ok [] /\
  forall random m ciphertext,
    encrypt ks random m params = Ok ciphertext -> 16 <= blen ciphertext.
Proof.
  intros Hsalt Hparse Hkey. split.
  - rewrite (decrypt_legacy ks [] params header key Hsalt Hparse Hkey). reflexivity.
  - intros random m ciphertext. unfold encrypt. intros Henc.
    apply bind_Ok_inv in Henc as (h & _ & Henc).
    apply bind_Ok_inv in Henc as ([h' result] & _ & Henc).
    apply bind_Ok_inv in Henc as (rs & _ & Henc).
    apply bind_Ok_inv in Henc as (k & _ & Henc).
    apply encrypt_records_extends in Henc as (block & rest & -> & Hblock).
    rewrite !blen_app. pose proof (blen_nonneg result). pose proof (blen_nonneg rest). lia.
Qed.

End RoundTrips.

(** ** The header of [aes128gcm] *)

Lemma writeUIntBE_negative (b : bytes) (value offset byteLength : Z) :
  value < 0 -> writeUIntBE b value offset byteLength = Err RangeError.
Proof.
  intros Hv. unfold writeUIntBE. destruct (Z.ltb_spec value 0); [reflexivity|lia].
Qed.

Lemma encodeHeader_inv (h : header) (hdr : bytes) :
  encodeHeader h = Ok hdr <->
  exists salt, header_salt h = Some salt /\
    0 <= header_rs h < 2 ^ 32 /\ blen (keyid_bytes h) <= 255 /\
    hdr = salt ++ be_encode 4 (header_rs h) ++ [byte_of_Z (blen (keyid_bytes h))]
            ++ keyid_bytes h.
Proof.
  unfold encodeHeader. fold (keyid_bytes h).
  pose proof (blen_nonneg (keyid_bytes h)) as Hk.
  destruct (Z.ltb_spec 255 (blen (keyid_bytes h))) as [Hbig|Hfit].
  { split; [discriminate|]. intros (salt & _ & _ & Hle & _). lia. }
  destruct (Z.lt_ge_cases (header_rs h) 0) as [Hneg|Hpos].
  { rewrite writeUIntBE_negative by exact Hneg.
    split; [discriminate|]. intros (salt & _ & Hr & _). lia. }
  destruct (Z.le_gt_cases (2 ^ 32) (header_rs h)) as [Hbig|Hsmall].
  { rewrite writeUIntBE_overflow by exact Hbig.
    split; [discriminate|]. intros (salt & _ & Hr & _). lia. }
  rewrite writeUIntBE_ok by (change (8 * 4) with 32; unfold blen; cbn; lia).
  cbn [mbind outcome_bind].
  change (Z.to_nat 0) with 0%nat. change (Z.to_nat (0 + 4)) with 4%nat.
  change (take 0 (repeat x00 5)) with (@nil byte).
  change (drop 4 (repeat x00 5)) with [x00]. cbn [app].
  change (Z.to_nat 4) with 4%nat.
  rewrite writeUIntBE_ok;
    [|change (2 ^ (8 * 1)) with 256; lia|lia
     |rewrite blen_app; unfold blen; rewrite be_encode_length; cbn; lia].
  cbn [mbind outcome_bind].
  change (Z.to_nat 4) with 4%nat. change (Z.to_nat (4 + 1)) with 5%nat.
  change (Z.to_nat 1) with 1%nat.
  rewrite take_app_length' by (now rewrite be_encode_length).
  rewrite drop_ge by (rewrite length_app, be_encode_length; cbn; lia).
  cbn [be_encode]. change (8 * Z.of_nat 0) with 0. rewrite Z.shiftr_0_r, app_nil_r.
  destruct (header_salt h) as [salt|].
  - split.
    + intros [= <-]. exists salt. split; [reflexivity|]. split; [lia|]. split; [lia|].
      now rewrite <- ?app_assoc.
    + intros (salt' & [= <-] & _ & _ & ->). now rewrite <- ?app_assoc.
  - split; [discriminate|]. intros (salt & Hs & _). discriminate.
Qed.

Section HeaderCodec.
Context `{Crypto}.

(** X15.  The [aes128gcm] header.  For a 16-byte salt, a record size below
    2^32 and a key identifier of at most 255 bytes, [encodeHeader] writes
    salt, record size (4 bytes, big-endian), identifier length (1 byte) and
    identifier, 21 bytes plus the identifier; and [readHeader], given its
    arguments in the order of its declaration, reads salt, record size and
    identifier back from any buffer that starts with that header. *)
Theorem header_round_trip (h : header) (salt : bytes) (p : params) (rest : bytes) :
  header_salt h = Some salt -> blen salt = 16 ->
  0 <= header_rs h < 2 ^ 32 -> blen (keyid_bytes h) <= 255 ->
  exists hdr,
    encodeHeader h = Ok hdr /\
    blen hdr = 21 + blen (keyid_bytes h) /\
    readHeader (OParams p) (OBuffer (hdr ++ rest))
    = Ok {| header_type := aes128gcm;
            header_salt := Some salt;
            header_rs := header_rs h;
            header_keyid := Some (Buffer_toString (keyid_bytes h));
            header_key := decode_opt (params_key p);
            header_dh := decode_opt (params_dh p);
            header_authSecret := decode_opt (params_authSecret p) |}.
Proof.
  intros Hsalt Hslen Hrs Hkid.
  pose proof (blen_nonneg (keyid_bytes h)) as Hk0.
  set (hdr := salt ++ be_encode 4 (header_rs h) ++ [byte_of_Z (blen (keyid_bytes h))]
                ++ keyid_bytes h).
  assert (Henc : encodeHeader h = Ok hdr).
  { apply encodeHeader_inv. exists salt. repeat split; try assumption; lia. }
  assert (Hlen : blen hdr = 21 + blen (keyid_bytes h)).
  { unfold hdr. rewrite !blen_app, Hslen. unfold blen at 1 2.
    rewrite be_encode_length. cbn [length]. lia. }
  exists hdr. split; [exact Henc|]. split; [exact Hlen|].
  assert (Hsl : length salt = 16%nat) by (unfold blen in Hslen; lia).
  unfold readHeader, KEY_LENGTH.
  pose proof (blen_nonneg rest) as Hrest.
  rewrite !readUIntBE_ok by (rewrite ?blen_app; lia). cbn [mbind outcome_bind].
  change (Z.to_nat 20) with (16 + 4)%nat. change (Z.to_nat 16) with 16%nat.
  change (Z.to_nat 1) with 1%nat. change (Z.to_nat 4) with 4%nat.
  assert (Hd16 : drop 16 (hdr ++ rest)
                 = be_encode 4 (header_rs h) ++ [byte_of_Z (blen (keyid_bytes h))]
                     ++ keyid_bytes h ++ rest).
  { unfold hdr. rewrite <- !app_assoc. rewrite drop_app_length' by (now rewrite Hsl).
    reflexivity. }
  assert (Hd20 : drop (16 + 4) (hdr ++ rest)
                 = [byte_of_Z (blen (keyid_bytes h))] ++ keyid_bytes h ++ rest).
  { rewrite <- drop_drop, Hd16. now rewrite drop_app_length' by (now rewrite be_encode_length). }
  rewrite Hd16, Hd20.
  rewrite (take_app_length' (be_encode 4 (header_rs h))) by (now rewrite be_encode_length).
  cbn [take app].
  rewrite take_0.
  change (be_decode [byte_of_Z (blen (keyid_bytes h))])
    with (0 * 256 + Z_of_byte (byte_of_Z (blen (keyid_bytes h)))).
  rewrite Z_of_byte_of_Z, Z.mod_small by lia. rewrite Z.mul_0_l, Z.add_0_l.
  change 4%nat with (Z.to_nat 4).
  rewrite be_decode_encode by (change (8 * 4) with 32; lia).
  f_equal. f_equal.
  - f_equal. rewrite Buffer_slice_range by lia.
    change (Z.to_nat 0) with 0%nat. rewrite drop_0.
    replace (Z.to_nat (16 - 0)) with (length salt) by lia.
    unfold hdr. rewrite <- !app_assoc. apply take_app_length.
  - f_equal. f_equal. rewrite Buffer_slice_range by lia.
    change (Z.to_nat 21) with (16 + 4 + 1)%nat.
    rewrite <- (drop_drop (hdr ++ rest) 1 (16 + 4)), Hd20.
    change (drop 1 ([byte_of_Z (blen (keyid_bytes h))] ++ keyid_bytes h ++ rest))
      with (keyid_bytes h ++ rest).
    replace (Z.to_nat (21 + blen (keyid_bytes h) - 21)) with (length (keyid_bytes h))
      by (unfold blen; lia).
    apply take_app_length.
Qed.

(** X16.  What [encrypt] writes for [aes128gcm] (no [params.salt]): the
    16 random bytes as salt, the record size in 4 bytes, the length of the
    key identifier in 1 byte, the identifier, and then at least one record.
    The identifier is the UTF-8 encoding of [params.keyid], empty when that
    is absent or empty, and has at most 255 bytes; the record size is the
    validated [rs], which is above 2 and below 2^32. *)
Theorem aes128gcm_layout ks random m params ciphertext :
  truthy (params_salt params) = false ->
  encrypt ks random m params = Ok ciphertext ->
  let keyid := utf8_bytes (if truthy (params_keyid params)
                           then prop_key (params_keyid params) else "") in
  exists rs records,
    determineRecordSize (params_rs params) aes128gcm = Ok rs /\
    2 < rs < 2 ^ 32 /\
    blen keyid <= 255 /\
    16 <= blen records /\
    ciphertext = random ++ be_encode 4 rs ++ [byte_of_Z (blen keyid)] ++ keyid ++ records.
Proof.
  intros Hsalt Henc keyid. unfold encrypt in Henc. rewrite Hsalt in Henc.
  apply bind_Ok_inv in Henc as (h & Hparse & Henc).
  apply bind_Ok_inv in Henc as ([h' result] & Hhdr & Henc).
  apply bind_Ok_inv in Hhdr as (hdr & Hhdr & Hh').
  injection Hh' as <- <-. cbn [header_type header_salt header_keyid header_key
    header_dh header_authSecret header_rs] in Henc.
  apply bind_Ok_inv in Henc as (rs & Hrs & Henc).
  apply bind_Ok_inv in Henc as (k & _ & Henc).
  apply encrypt_records_extends in Henc as (block & rest & -> & Hblock).
  apply encodeHeader_inv in Hhdr as (salt & Hs & Hr & Hk & ->).
  cbn [header_salt header_rs] in Hs, Hr. injection Hs as <-.
  pose proof (parseParams_rs _ _ Hparse) as Hrs0.
  destruct (parseParams_fields params h Hparse) as (_ & _ & _ & _ & Hid & _).
  unfold keyid_bytes in *. cbn [header_keyid] in *. rewrite Hid in *. fold keyid in Hk |- *.
  assert (Heq : header_rs h = rs).
  { revert Hrs0 Hrs. unfold determineRecordSize.
    destruct (parseInt (params_rs params)) as [n|].
    - destruct (n <=? PAD_SIZE (header_type h)); [discriminate|].
      destruct (n <=? PAD_SIZE aes128gcm); [discriminate|]. congruence.
    - congruence. }
  pose proof (determineRecordSize_above _ _ _ Hrs) as Habove. cbn in Habove.
  exists rs, (block ++ rest).
  split; [exact Hrs|]. split; [lia|]. split; [exact Hk|]. split.
  - rewrite blen_app. pose proof (blen_nonneg rest). lia.
  - rewrite Heq. now rewrite <- !app_assoc.
Qed.

End HeaderCodec.

(** ** The pad budget *)

Lemma max_pad_positive (padSize : Z) :
  padSize = 1 \/ padSize = 2 -> 255 <= 2 ^ (8 * padSize) - 1.
Proof. intros [-> | ->]; cbn; lia. Qed.

Lemma spec_records_spent rs padSize len start records leftover :
  spec_records rs padSize len start 0 records leftover ->
  padSize = 1 \/ padSize = 2 -> padSize < rs -> leftover = 0.
Proof.
  intros Hrec HpS Hrs. pose proof (max_pad_positive padSize HpS) as Hmax.
  remember 0 as remaining eqn:Hrem in Hrec.
  induction Hrec as [|start remaining recordPad records leftover Hin HrP _ IH];
    [exact Hrem|].
  apply IH. subst remaining. set (top := 2 ^ (8 * padSize)) in *. clearbody top. lia.
Qed.

Section PadBudget.
Context `{Crypto}.
Hypothesis gcm_tag_length : forall key nonce plaintext,
  length (snd (gcm_encrypt key nonce plaintext)) = 16%nat.

(** X17.  The pad budget.  A request that fits the first record, that is
    at most [min (2^(8 padSize) - 1) (rs - padSize - 1)], is always placed:
    the records are sealed and [encrypt] does not fail on the budget.  On an
    empty plaintext there is one record only, and a larger request fails
    with [UnableToPad], reporting what did not fit. *)
Theorem pad_budget key rs padSize buffer pad result :
  6 <= blen (kn_nonce key) ->
  padSize = 1 \/ padSize = 2 -> padSize < rs -> 0 <= pad ->
  let capacity := Z.min (2 ^ (8 * padSize) - 1) (rs - padSize - 1) in
  (pad <= capacity ->
     exists out, encrypt_records key rs padSize buffer pad result = Ok out) /\
  (capacity < pad ->
     encrypt_records key rs padSize [] pad result = Err (UnableToPad (pad - capacity))).
Proof using gcm_tag_length.
  intros Hnonce HpS Hrs Hpad capacity.
  pose proof (max_pad_positive padSize HpS) as Hmax.
  assert (Hcap : 0 <= capacity)
    by (unfold capacity; set (top := 2 ^ (8 * padSize)) in *; clearbody top; lia).
  split.
  - intros Hfit.
    destruct (spec_records_total rs padSize (blen buffer) Hrs
                (S (length buffer)) 0 pad ltac:(unfold blen; lia))
      as (records & leftover & Hrec).
    assert (Hleft : leftover = 0).
    { inversion Hrec as [? ? Hout|? ? recordPad records' ? Hin HrP Hrec']; subst.
      - pose proof (blen_nonneg buffer). lia.
      - assert (HrP : Z.min (2 ^ (8 * padSize) - 1) (Z.min (rs - padSize - 1) pad) = pad).
        { fold capacity in Hfit. unfold capacity in Hfit.
          set (top := 2 ^ (8 * padSize)) in *. clearbody top. lia. }
        rewrite HrP, Z.sub_diag in Hrec'.
        exact (spec_records_spent _ _ _ _ _ _ Hrec' HpS Hrs). }
    subst leftover.
    destruct (seal_records_ok gcm_tag_length key rs padSize buffer 0 pad records 0
                Hrec Hnonce HpS Hrs Hpad 0) as [tail Hseal].
    exists (result ++ tail). unfold encrypt_records.
    rewrite (encrypt_loop_records key rs padSize buffer 0 pad records 0 HpS Hrs Hrec)
      by (unfold blen; lia).
    rewrite seal_records_acc, Hseal. reflexivity.
  - intros Hover.
    assert (Hrec : spec_records rs padSize (blen []) 0 pad [(0, capacity)] (pad - capacity)).
    { apply spec_records_next.
      - change (blen []) with 0. lia.
      - unfold capacity. set (top := 2 ^ (8 * padSize)) in *. clearbody top. lia.
      - apply spec_records_done. change (blen []) with 0.
        unfold capacity. set (top := 2 ^ (8 * padSize)) in *. clearbody top. lia. }
    destruct (seal_records_ok gcm_tag_length key rs padSize [] 0 pad [(0, capacity)]
                (pad - capacity) Hrec Hnonce HpS Hrs Hpad 0) as [tail Hseal].
    unfold encrypt_records.
    rewrite (encrypt_loop_records key rs padSize [] 0 pad _ _ HpS Hrs Hrec)
      by (change (blen []) with 0; change (Z.of_nat (S (S (length (@nil byte))))) with 2; lia).
    rewrite seal_records_acc, Hseal. cbn [mbind outcome_bind].
    destruct (Z.eqb_spec (pad - capacity) 0); [lia|reflexivity].
Qed.

End PadBudget.

(** ** Truncated messages *)

Section Truncation.
Context `{Crypto}.
Hypothesis HMAC_length : forall key input, length (HMAC_SHA256 key input) = 32%nat.
Hypothesis gcm_correct : forall key nonce plaintext body tag,
  gcm_encrypt key nonce plaintext = (body, tag) ->
  gcm_decrypt key nonce body tag = Some plaintext.
Hypothesis gcm_tag_length : forall key nonce plaintext,
  length (snd (gcm_encrypt key nonce plaintext)) = 16%nat.
Hypothesis gcm_body_length : forall key nonce plaintext,
  length (fst (gcm_encrypt key nonce plaintext)) = length plaintext.

Lemma seal_records_app key rs padSize buffer r1 r2 :
  forall i result,
  seal_records key rs padSize buffer i (r1 ++ r2) result
  = (x ← seal_records key rs padSize buffer i r1 result;
     seal_records key rs padSize buffer (i + Z.of_nat (length r1)) r2 x).
Proof.
  induction r1 as [|[start recordPad] r1 IH]; intros i result.
  - cbn [app seal_records mbind outcome_bind length]. now rewrite Z.add_0_r.
  - cbn [app seal_records length].
    destruct (encryptRecord key i _ recordPad padSize) as [block|e];
      cbn [mbind outcome_bind]; [|reflexivity].
    rewrite IH. replace (i + 1 + Z.of_nat (length r1)) with (i + Z.of_nat (S (length r1)))
      by lia. reflexivity.
Qed.

Lemma seal_records_tagged key rs padSize buffer i r records body :
  seal_records key rs padSize buffer i (r :: records) [] = Ok body -> 16 <= blen body.
Proof.
  destruct r as [start recordPad]. cbn [seal_records]. intros Hseal.
  apply bind_Ok_inv in Hseal as (block & Hblock & Hseal).
  rewrite seal_records_acc in Hseal.
  apply bind_Ok_inv in Hseal as (tail & _ & Hseal). injection Hseal as <-.
  apply encryptRecord_tagged in Hblock. cbn [app]. rewrite blen_app.
  pose proof (blen_nonneg tail). lia.
Qed.

Lemma truncated_stream key header m start remaining records leftover :
  spec_records (header_rs header) (PAD_SIZE (header_type header)) (blen m)
    start remaining records leftover ->
  6 <= blen (kn_nonce key) ->
  PAD_SIZE (header_type header) < header_rs header ->
  0 <= start -> 0 <= remaining ->
  forall init last, records = init ++ [last] -> init <> [] ->
  forall i body,
    seal_records key (header_rs header) (PAD_SIZE (header_type header)) m i init []
    = Ok body ->
  forall pre acc fuel,
    blen body < Z.of_nat fuel ->
    decrypt_loop fuel key header (pre ++ body) i (blen pre) acc = Err TruncatedPayload.
Proof using gcm_correct gcm_tag_length gcm_body_length.
  intros Hrec Hnonce Hrs.
  pose proof (PAD_SIZE_range (header_type header)) as HpS.
  set (rs := header_rs header) in *. set (padSize := PAD_SIZE (header_type header)) in *.
  induction Hrec as [start remaining Hdone
                    |start remaining recordPad records leftover Hin HrP Hrec IH];
    intros Hstart Hrem init last Hsplit Hinit i body Hseal pre acc fuel Hfuel.
  - destruct init; discriminate.
  - destruct init as [|r init]; [contradiction|].
    injection Hsplit as <- Hrecords.
    assert (HmaxPad : 2 ^ (8 * padSize) - 1 >= 255).
    { destruct HpS as [? ?]. assert (padSize = 1 \/ padSize = 2) as [-> | ->] by lia;
        cbn; lia. }
    assert (HrP0 : 0 <= recordPad < 2 ^ (8 * padSize)).
    { clearbody rs padSize. set (top := 2 ^ (8 * padSize)) in *. clearbody top. lia. }
    assert (Hstep : 1 <= rs - padSize - recordPad) by lia.
    assert (Hmore : start + (rs - padSize - recordPad) <= blen m).
    { inversion Hrec; subst; [destruct init; discriminate|assumption]. }
    cbn [seal_records] in Hseal. fold rs padSize in Hseal.
    set (e := Z.min (start + rs - padSize - recordPad) (blen m)) in *.
    set (data := Buffer_slice m (Some start) (Some e)) in *.
    destruct (encryptRecord key i data recordPad padSize) as [block|err] eqn:Henc;
      cbn [mbind outcome_bind] in Hseal; [|discriminate].
    rewrite seal_records_acc in Hseal.
    destruct (seal_records key rs padSize m (i + 1) init []) as [body'|err] eqn:Hseal';
      cbn [mbind outcome_bind] in Hseal; [|discriminate].
    injection Hseal as <-. cbn [app] in *.
    assert (HpS0 : 0 <= padSize) by lia.
    pose proof (encryptRecord_length gcm_tag_length gcm_body_length _ _ _ _ _ _
                  Hnonce HpS0 HrP0 Henc) as Hblen.
    assert (He : e = start + (rs - padSize - recordPad)) by (unfold e; lia).
    assert (Hdlen : blen data = e - start).
    { unfold data. rewrite Buffer_slice_range by lia.
      unfold blen. rewrite length_take, length_drop. unfold blen in Hmore. lia. }
    rewrite Hdlen in Hblen.
    destruct fuel as [|fuel];
      [rewrite !blen_app in Hfuel; pose proof (blen_nonneg body'); lia|].
    cbn [decrypt_loop]. fold rs. unfold TAG_LENGTH. rewrite !blen_app.
    pose proof (blen_nonneg body') as Hb'. pose proof (blen_nonneg pre) as Hpre.
    destruct (Z.ltb_spec (blen pre) (blen pre + (blen block + blen body'))); [|lia].
    destruct init as [|r' init'].
    + cbn in Hseal'. injection Hseal' as <-. change (blen []) with 0.
      destruct (Z.eqb_spec (blen pre + rs + 16) (blen pre + (blen block + 0)));
        [reflexivity|lia].
    + pose proof (seal_records_tagged _ _ _ _ _ _ _ _ Hseal') as Htag.
      destruct (Z.eqb_spec (blen pre + rs + 16) (blen pre + (blen block + blen body')));
        [lia|].
      rewrite Z.min_l by lia.
      destruct (Z.leb_spec (blen pre + rs + 16 - blen pre) 16); [lia|].
      assert (Hslice : Buffer_slice (pre ++ block ++ body') (Some (blen pre))
                         (Some (blen pre + rs + 16)) = block).
      { rewrite Buffer_slice_range by lia.
        replace (Z.to_nat (blen pre)) with (length pre) by (unfold blen; lia).
        rewrite drop_app_length.
        replace (Z.to_nat (blen pre + rs + 16 - blen pre)) with (length block)
          by (unfold blen in *; lia).
        now rewrite take_app_length. }
      rewrite Hslice.
      destruct (generateNonce_ok (kn_nonce key) i Hnonce) as [nonce Hn].
      rewrite (decryptRecord_sealed gcm_tag_length gcm_correct key i data recordPad
                 header nonce block Hn HrP0 Henc).
      cbn [mbind outcome_bind].
      replace (blen pre + rs + 16) with (blen (pre ++ block)) by (rewrite blen_app; lia).
      rewrite (app_assoc pre block body').
      apply (IH ltac:(lia) ltac:(lia) (r' :: init') last Hrecords ltac:(discriminate)
               (i + 1) body' Hseal' (pre ++ block) (acc ++ data) fuel).
      rewrite blen_app in Hfuel. lia.
Qed.

(** X4.  A lost last record is noticed.  When a legacy encryption has
    more than one record, the ciphertext is the sealed records before the
    last followed by the sealed last record, and that ciphertext without
    its last record is not accepted as a shorter message: [decrypt] fails
    on it with [TruncatedPayload]. *)
Theorem truncation_detected ks random m params header key init last :
  truthy (params_salt params) = true ->
  parseParams params = Ok header ->
  header_dh header = None \/ header_key header <> None ->
  deriveKeyAndNonce ks header MODE_ENCRYPT = Ok key ->
  0 <= match parseInt (params_pad params) with Some p => p | None => 0 end ->
  spec_records (header_rs header) (PAD_SIZE (header_type header)) (blen m) 0
    (match parseInt (params_pad params) with Some p => p | None => 0 end)
    (init ++ [last]) 0 ->
  init <> [] ->
  exists body lastRecord,
    seal_records key (header_rs header) (PAD_SIZE (header_type header)) m 0 init []
    = Ok body /\
    seal_records key (header_rs header) (PAD_SIZE (header_type header)) m
      (Z.of_nat (length init)) [last] [] = Ok lastRecord /\
    encrypt ks random m params = Ok (body ++ lastRecord) /\
    16 <= blen lastRecord /\
    decrypt ks body (clear_pad params) = Err TruncatedPayload.
Proof using HMAC_length gcm_correct gcm_tag_length gcm_body_length.
  intros Hsalt Hparse Hmode Hkey Hpad Hrec Hinit.
  set (pad := match parseInt (params_pad params) with Some p => p | None => 0 end) in *.
  pose proof (parseParams_rs _ _ Hparse) as Hrs.
  pose proof (determineRecordSize_above _ _ _ Hrs) as Hrs'.
  destruct (deriveKeyAndNonce_lengths HMAC_length _ _ _ _ Hkey) as [_ Hnonce].
  assert (Hnonce6 : 6 <= blen (kn_nonce key)) by lia.
  assert (HpS : PAD_SIZE (header_type header) = 1 \/ PAD_SIZE (header_type header) = 2)
    by (destruct (header_type header); cbn; lia).
  destruct (seal_records_ok gcm_tag_length key _ _ m 0 pad (init ++ [last]) 0 Hrec
              Hnonce6 HpS Hrs' Hpad 0) as [ct Hseal].
  pose proof Hseal as Hsplit. rewrite seal_records_app in Hsplit.
  apply bind_Ok_inv in Hsplit as (body & Hbody & Hlast).
  destruct last as [lstart lpad]. cbn [seal_records] in Hlast.
  apply bind_Ok_inv in Hlast as (lastRecord & Hblock & Hlast). injection Hlast as <-.
  exists body, lastRecord. split; [exact Hbody|]. split.
  { cbn [seal_records]. rewrite Z.add_0_l in Hblock. now rewrite Hblock. }
  split; [|split].
  - unfold encrypt. rewrite Hparse. cbn [mbind outcome_bind]. rewrite Hsalt.
    cbn [mbind outcome_bind]. rewrite Hrs. cbn [mbind outcome_bind].
    rewrite header_eta, Hkey. cbn [mbind outcome_bind]. fold pad.
    unfold encrypt_records.
    rewrite (encrypt_loop_records key _ _ m 0 pad _ 0 HpS Hrs' Hrec)
      by (unfold blen; lia).
    rewrite Hseal. reflexivity.
  - exact (encryptRecord_tagged _ _ _ _ _ _ Hblock).
  - assert (HkeyD : deriveKeyAndNonce ks header MODE_DECRYPT = Ok key)
      by (now rewrite <- (deriveKeyAndNonce_mode_free ks header MODE_ENCRYPT MODE_DECRYPT Hmode)).
    rewrite (decrypt_legacy ks body (clear_pad params) header key Hsalt Hparse HkeyD).
    apply (truncated_stream key header m 0 pad (init ++ [(lstart, lpad)]) 0 Hrec Hnonce6
             Hrs' ltac:(lia) Hpad init (lstart, lpad) eq_refl Hinit 0 body Hbody
             [] [] (S (length body))).
    unfold blen. lia.
Qed.

End Truncation.

(** ** The small instance meets the assumptions made on the collaborators *)

Lemma demo_hmac_length key input : length (demo_hmac key input) = 32%nat.
Proof.
  unfold demo_hmac. rewrite length_take, !length_app, repeat_length. lia.
Qed.

Lemma demo_tag_length key nonce : length (demo_tag key nonce) = 16%nat.
Proof.
  unfold demo_tag. rewrite length_take, !length_app, repeat_length. lia.
Qed.

Lemma xor_byte_2a_involutive (b : byte) : xor_byte x2a (xor_byte x2a b) = b.
Proof. destruct b; reflexivity. Qed.

Lemma demo_gcm_correct key nonce plaintext body tag :
  demo_gcm_encrypt key nonce plaintext = (body, tag) ->
  demo_gcm_decrypt key nonce body tag = Some plaintext.
Proof.
  unfold demo_gcm_encrypt, demo_gcm_decrypt. intros [= <- <-].
  destruct (Z.eqb_spec (Buffer_compare (demo_tag key nonce) (demo_tag key nonce)) 0)
    as [_|E]; [|exfalso; apply E; now apply Buffer_compare_eq].
  f_equal. induction plaintext as [|b l IH]; [reflexivity|].
  cbn [map]. now rewrite xor_byte_2a_involutive, IH.
Qed.

Lemma demo_gcm_tag_length key nonce plaintext :
  length (snd (demo_gcm_encrypt key nonce plaintext)) = 16%nat.
Proof. apply demo_tag_length. Qed.

Lemma demo_gcm_body_length key nonce plaintext :
  length (fst (demo_gcm_encrypt key nonce plaintext)) = length plaintext.
Proof. cbn. apply length_map. Qed.

Lemma base64_sextets_length (s : string) :
  (length (base64_sextets s) <= String.length s)%nat.
Proof.
  induction s as [|c s IH]; cbn [base64_sextets String.length length]; [lia|].
  destruct (base64_value c); cbn [length]; lia.
Qed.

Lemma base64_groups_length (l : list Z) :
  4 * Z.of_nat (length (base64_groups l)) <= 3 * Z.of_nat (length l).
Proof.
  assert (Hall : forall n l, (length l <= n)%nat ->
            4 * Z.of_nat (length (base64_groups l)) <= 3 * Z.of_nat (length l)).
  { induction n as [n IH] using lt_wf_ind. intros [|a [|b [|c [|d l']]]] Hn;
      cbn [base64_groups length be_encode app]; try lia.
    specialize (IH (length l') ltac:(cbn [length] in Hn; lia) l' ltac:(lia)).
    cbn [length]. lia. }
  apply (Hall (length l)). lia.
Qed.

Lemma demo_base64_shrinks (s : string) :
  4 * Z.of_nat (length (demo_base64_decode s)) <= 3 * Z.of_nat (String.length s).
Proof.
  unfold demo_base64_decode.
  pose proof (base64_groups_length (base64_sextets s)).
  pose proof (base64_sextets_length s). lia.
Qed.

Lemma string_of_list_byte_length (b : bytes) :
  (String.length (string_of_list_byte b) <= length b)%nat.
Proof.
  unfold string_of_list_byte.
  induction b as [|x b IH]; cbn [map string_of_list_ascii String.length length]; lia.
Qed.

(** ** The theorems at concrete inputs *)

Lemma HKDF_expand_spec_witness :
  (forall key input, length (demo_hmac key input) = 32%nat) /\
  0 <= 40 <= 255 * 32 /\
  HKDF_expand (H := demo_crypto) [x01] [x02] 40
  = Ok (take 40 (spec_T_concat (H := demo_crypto) [x01] [x02] 2)).
Proof.
  split; [exact demo_hmac_length|]. split; [lia|].
  apply (HKDF_expand_spec (H := demo_crypto) demo_hmac_length [x01] [x02] 40); lia.
Defined.

Lemma decryptRecord_padding_witness :
  decryptRecord (H := demo_crypto) demo_kn 0 demo_record (demo_header aesgcm 4096)
  = Ok [x41].
Proof.
  refine (proj2 (proj2 (proj2
    (decryptRecord_padding (H := demo_crypto) demo_kn 0 demo_record
       (demo_header aesgcm 4096) (repeat x02 12) [x00; x01; x00; x41] _ _))) _ _).
  - reflexivity.
  - reflexivity.
  - vm_compute. discriminate.
  - vm_compute. repeat constructor.
Defined.

Lemma decrypt_legacy_framing_witness :
  truthy (params_salt demo_legacy) = true /\
  parseParams (H := demo_crypto) demo_legacy = Ok (demo_parsed demo_legacy) /\
  deriveKeyAndNonce (H := demo_crypto) demo_store (demo_parsed demo_legacy) MODE_DECRYPT
  = Ok (demo_derived demo_legacy MODE_DECRYPT) /\
  decrypt (H := demo_crypto) demo_store (repeat x00 20) demo_legacy
  = Err TruncatedPayload.
Proof.
  assert (Hp : parseParams (H := demo_crypto) demo_legacy = Ok (demo_parsed demo_legacy))
    by (vm_compute; reflexivity).
  assert (Hk : deriveKeyAndNonce (H := demo_crypto) demo_store (demo_parsed demo_legacy)
                 MODE_DECRYPT = Ok (demo_derived demo_legacy MODE_DECRYPT))
    by (vm_compute; reflexivity).
  split; [reflexivity|]. split; [exact Hp|]. split; [exact Hk|].
  apply (proj1 (decrypt_legacy_framing (H := demo_crypto) demo_store (repeat x00 20)
            demo_legacy (demo_parsed demo_legacy) (demo_derived demo_legacy MODE_DECRYPT)
            0 0 [] eq_refl Hp Hk (walks_here _ _ _ 0 0 []) ltac:(vm_compute; reflexivity))).
  vm_compute. reflexivity.
Defined.


Lemma decrypt_aes128gcm_fails_witness :
  truthy (params_salt demo_modern) = false /\
  encrypt (H := demo_crypto) demo_store (repeat x07 16) [x41; x42] demo_modern
  = Ok demo_modern_ciphertext /\
  decrypt (H := demo_crypto) demo_store demo_modern_ciphertext (clear_pad demo_modern)
  = Err TypeError.
Proof.
  assert (He : encrypt (H := demo_crypto) demo_store (repeat x07 16) [x41; x42] demo_modern
               = Ok demo_modern_ciphertext) by (vm_compute; reflexivity).
  split; [reflexivity|]. split; [exact He|].
  exact (proj1 (decrypt_aes128gcm_fails (H := demo_crypto) demo_store (repeat x07 16)
                  [x41; x42] demo_modern demo_modern_ciphertext eq_refl He)).
Defined.

Lemma aes128gcm_last_record_without_delimiter :
  spec_records 4096 (PAD_SIZE aes128gcm) (blen []) 0 0 [(0, 0)] 0 /\
  record_padding 0 (PAD_SIZE aes128gcm) = Ok [x00; x00] /\
  delimiter_set [x00; x00] = false /\
  exists body tag nonce,
    encrypt_records (H := demo_crypto) demo_kn 4096 (PAD_SIZE aes128gcm) [] 0 []
    = Ok (body ++ tag) /\
    generateNonce (kn_nonce demo_kn) 0 = Ok nonce /\
    gcm_decrypt (Crypto := demo_crypto) (kn_key demo_kn) nonce body tag = Some [x00; x00].
Proof.
  split.
  { apply spec_records_next; [vm_compute; discriminate|reflexivity|].
    apply spec_records_done. vm_compute. reflexivity. }
  split; [reflexivity|]. split; [reflexivity|].
  exists (map (xor_byte x2a) [x00; x00]), (demo_tag (repeat x01 16) (repeat x02 12)),
    (repeat x02 12).
  split; [vm_compute; reflexivity|]. split; vm_compute; reflexivity.
Qed.

Lemma aes128gcm_no_delimiter_witness :
  generateNonce (kn_nonce demo_kn) 1 = Ok (repeat x02 11 ++ [x03]) /\
  0 <= 40000 <= 65535 /\
  delimiter_set (be_encode 2 40000 ++ repeat x00 (Z.to_nat 40000)) = true.
Proof.
  assert (Hn : generateNonce (kn_nonce demo_kn) 1 = Ok (repeat x02 11 ++ [x03]))
    by (vm_compute; reflexivity).
  split; [exact Hn|]. split; [lia|].
  exact (proj1 (proj2 (aes128gcm_no_delimiter (H := demo_crypto)
           demo_gcm_correct demo_gcm_tag_length demo_kn 1 [x41] 40000
           (repeat x02 11 ++ [x03]) Hn ltac:(lia)))).
Defined.

Lemma key_schedule_auth_salt_witness :
  header_salt demo_auth_header = Some (repeat x03 16) /\
  header_authSecret demo_auth_header = Some (repeat x41 16) /\
  repeat x41 16 <> [] /\
  base64_decode (Crypto := demo_crypto) (Buffer_toString (Crypto := demo_crypto) (repeat x41 16))
  <> repeat x41 16.
Proof.
  split; [reflexivity|]. split; [reflexivity|]. split; [discriminate|].
  exact (proj1 (key_schedule_auth_salt (H := demo_crypto)
           demo_base64_shrinks string_of_list_byte_length
           demo_store demo_auth_header MODE_ENCRYPT (repeat x03 16) (repeat x41 16)
           {| secret := RawKey (repeat x01 16); context := [] |} (repeat x01 16)
           eq_refl eq_refl ltac:(discriminate) eq_refl eq_refl)).
Defined.



Lemma saveKey_frame_witness :
  savedKeys demo_store !! "__proto__" = None /\
  keyLabels demo_store !! "__proto__" = None /\
  truthy None = false /\
  let ks' := fst (saveKey (H := demo_crypto) demo_store "__proto__" (ECDHKey [x05]) None) in
  property (H := demo_crypto) (fun v => v) (savedKeys demo_store) "getPublicKey" = Ok None /\
  property (H := demo_crypto) (fun v => v) (savedKeys ks') "getPublicKey"
  = Ok (Some Foreign) /\
  extractSecretAndContext (H := demo_crypto) demo_store demo_method_header MODE_DECRYPT
  = Err UnableToDetermineKey /\
  extractSecretAndContext (H := demo_crypto) ks' demo_method_header MODE_DECRYPT
  = Ok {| secret := Foreign; context := [] |}.
Proof.
  split; [reflexivity|]. split; [reflexivity|]. split; [reflexivity|].
  destruct (saveKey_frame (H := demo_crypto) demo_store "__proto__" (ECDHKey [x05])
              eq_refl eq_refl) as (Hplain & _).
  destruct (Hplain None eq_refl) as (_ & _ & _ & _ & Hproto).
  destruct (Hproto eq_refl "getPublicKey" ltac:(discriminate) eq_refl)
    as [Hbefore Hafter].
  split; [exact Hbefore|]. split; [exact Hafter|].
  unfold extractSecretAndContext.
  cbn [demo_method_header header_key header_dh header_keyid header_authSecret
       truthy prop_key].
  rewrite Hbefore, Hafter. split; reflexivity.
Defined.

Lemma generateNonce_injective_witness :
  length (repeat x10 12) = 12%nat /\ 0 <= 7 < 2 ^ 48 /\
  forall j, 0 <= j < 2 ^ 48 ->
    generateNonce (repeat x10 12) 7 = generateNonce (repeat x10 12) j -> 7 = j.
Proof.
  split; [reflexivity|]. split; [lia|]. intros j Hj.
  apply generateNonce_injective; [reflexivity|lia|exact Hj].
Defined.

Lemma generateNonce_shape_witness :
  6 <= blen (repeat x10 12) /\
  exists nonce, generateNonce (repeat x10 12) (2 ^ 50 + 3) = Ok nonce /\
    length nonce = 12%nat.
Proof.
  split; [vm_compute; discriminate|].
  destruct (proj1 (generateNonce_shape (repeat x10 12) (2 ^ 50 + 3))
              ltac:(vm_compute; discriminate)) as (nonce & E & Hl & _).
  exists nonce. split; [exact E|exact Hl].
Defined.

Lemma demo_legacy_parsed :
  parseParams (H := demo_crypto) demo_legacy = Ok (demo_parsed demo_legacy).
Proof. vm_compute. reflexivity. Qed.

Lemma demo_legacy_derived mode :
  deriveKeyAndNonce (H := demo_crypto) demo_store (demo_parsed demo_legacy) mode
  = Ok (demo_derived demo_legacy mode).
Proof. destruct mode; vm_compute; reflexivity. Qed.

Lemma demo_legacy_records :
  spec_records (header_rs (demo_parsed demo_legacy))
    (PAD_SIZE (header_type (demo_parsed demo_legacy))) (blen demo_message) 0
    (match parseInt (params_pad demo_legacy) with Some p => p | None => 0 end)
    ([(0, 1); (1, 0)] ++ [(3, 0)]) 0.
Proof.
  change (spec_records 4 2 3 0 1 [(0, 1); (1, 0); (3, 0)] 0).
  apply spec_records_next; [lia|reflexivity|].
  apply (spec_records_next 4 2 3 1 0 0); [lia|reflexivity|].
  apply (spec_records_next 4 2 3 3 0 0); [lia|reflexivity|].
  apply spec_records_done. lia.
Qed.

Lemma legacy_round_trip_witness :
  exists ciphertext,
    encrypt (H := demo_crypto) demo_store [] demo_message demo_legacy = Ok ciphertext /\
    decrypt (H := demo_crypto) demo_store ciphertext (clear_pad demo_legacy)
    = Ok demo_message.
Proof.
  apply (legacy_round_trip (H := demo_crypto) demo_hmac_length demo_gcm_correct
           demo_gcm_tag_length demo_gcm_body_length demo_store [] demo_message
           demo_legacy (demo_parsed demo_legacy) (demo_derived demo_legacy MODE_ENCRYPT)
           ([(0, 1); (1, 0)] ++ [(3, 0)])
           eq_refl demo_legacy_parsed (or_introl eq_refl)
           (demo_legacy_derived MODE_ENCRYPT)).
  - vm_compute. discriminate.
  - exact demo_legacy_records.
Defined.

Lemma truncation_detected_witness :
  exists body lastRecord,
    seal_records (H := demo_crypto) (demo_derived demo_legacy MODE_ENCRYPT) 4 2
      demo_message 0 [(0, 1); (1, 0)] [] = Ok body /\
    seal_records (H := demo_crypto) (demo_derived demo_legacy MODE_ENCRYPT) 4 2
      demo_message 2 [(3, 0)] [] = Ok lastRecord /\
    encrypt (H := demo_crypto) demo_store [] demo_message demo_legacy
    = Ok (body ++ lastRecord) /\
    16 <= blen lastRecord /\
    decrypt (H := demo_crypto) demo_store body (clear_pad demo_legacy)
    = Err TruncatedPayload.
Proof.
  apply (truncation_detected (H := demo_crypto) demo_hmac_length demo_gcm_correct
           demo_gcm_tag_length demo_gcm_body_length demo_store [] demo_message
           demo_legacy (demo_parsed demo_legacy) (demo_derived demo_legacy MODE_ENCRYPT)
           [(0, 1); (1, 0)] (3, 0)
           eq_refl demo_legacy_parsed (or_introl eq_refl)
           (demo_legacy_derived MODE_ENCRYPT)).
  - vm_compute. discriminate.
  - exact demo_legacy_records.
  - discriminate.
Defined.

Lemma decrypt_empty_witness :
  decrypt (H := demo_crypto) demo_store [] demo_legacy = Ok [].
Proof.
  exact (proj1 (decrypt_empty (H := demo_crypto) demo_store demo_legacy
                  (demo_parsed demo_legacy) (demo_derived demo_legacy MODE_DECRYPT)
                  eq_refl demo_legacy_parsed (demo_legacy_derived MODE_DECRYPT))).
Defined.

Lemma demo_to_bob_parsed :
  parseParams (H := demo_crypto) demo_to_bob = Ok (demo_parsed demo_to_bob).
Proof. vm_compute. reflexivity. Qed.

Lemma demo_from_alice_parsed :
  parseParams (H := demo_crypto) demo_from_alice = Ok (demo_parsed demo_from_alice).
Proof. vm_compute. reflexivity. Qed.

Lemma dh_key_agreement_witness :
  deriveKeyAndNonce (H := demo_crypto) demo_alice (demo_parsed demo_to_bob) MODE_ENCRYPT
  = deriveKeyAndNonce (H := demo_crypto) demo_bob (demo_parsed demo_from_alice) MODE_DECRYPT.
Proof.
  refine (proj2 (dh_key_agreement (H := demo_crypto) demo_alice demo_bob
            (demo_parsed demo_to_bob) (demo_parsed demo_from_alice)
            [x01; x02; x03] [x04; x05; x06] (ascii_bytes "P-256" ++ [x00])
            _ _ _ _ _ _ _ _ _ _ _ _)); vm_compute; reflexivity.
Defined.

Lemma dh_round_trip_witness :
  exists ciphertext,
    encrypt (H := demo_crypto) demo_alice [] demo_message demo_to_bob = Ok ciphertext /\
    decrypt (H := demo_crypto) demo_bob ciphertext demo_from_alice = Ok demo_message.
Proof.
  refine (dh_round_trip (H := demo_crypto) demo_hmac_length demo_gcm_correct
            demo_gcm_tag_length demo_gcm_body_length demo_alice demo_bob []
            demo_message demo_to_bob demo_from_alice
            (demo_parsed demo_to_bob) (demo_parsed demo_from_alice)
            [x01; x02; x03] [x04; x05; x06] (ascii_bytes "P-256" ++ [x00])
            demo_dh_key ([(0, 1); (1, 0)] ++ [(3, 0)])
            eq_refl eq_refl eq_refl eq_refl eq_refl
            demo_to_bob_parsed demo_from_alice_parsed
            _ _ _ _ _ _ _ _ _ _ _ _).
  1-10: vm_compute; reflexivity.
  - vm_compute. discriminate.
  - change (spec_records 4 2 3 0 1 [(0, 1); (1, 0); (3, 0)] 0).
    apply spec_records_next; [lia|reflexivity|].
    apply (spec_records_next 4 2 3 1 0 0); [lia|reflexivity|].
    apply (spec_records_next 4 2 3 3 0 0); [lia|reflexivity|].
    apply spec_records_done. lia.
Defined.

Lemma HKDF_expand_bounds_witness :
  0 <= 12 <= 255 * 32 /\ 255 * 32 < 8161 /\
  (exists out, HKDF_expand (H := demo_crypto) [x01] [x02] 12 = Ok out /\ blen out = 12) /\
  HKDF_expand (H := demo_crypto) [x01] [x02] 8161 = Err RangeError.
Proof.
  split; [lia|]. split; [lia|].
  pose proof (HKDF_expand_bounds (H := demo_crypto) demo_hmac_length [x01] [x02] 12) as H12.
  pose proof (HKDF_expand_bounds (H := demo_crypto) demo_hmac_length [x01] [x02] 8161) as Hbig.
  split; [apply (proj1 H12); lia|apply (proj2 (proj2 Hbig)); lia].
Defined.

Lemma key_schedule_lengths_witness :
  blen (kn_key (demo_derived demo_legacy MODE_ENCRYPT)) = 16 /\
  blen (kn_nonce (demo_derived demo_legacy MODE_ENCRYPT)) = 12.
Proof.
  exact (proj2 (key_schedule_lengths (H := demo_crypto) demo_hmac_length demo_store
                  (demo_parsed demo_legacy) MODE_ENCRYPT)
           (demo_derived demo_legacy MODE_ENCRYPT) (demo_legacy_derived MODE_ENCRYPT)).
Defined.

Lemma lengthPrefix_bounds_witness :
  blen [x0a; x0b; x0c] < 65536 /\
  lengthPrefix [x0a; x0b; x0c] = Ok (be_encode 2 (blen [x0a; x0b; x0c]) ++ [x0a; x0b; x0c]).
Proof.
  split; [vm_compute; reflexivity|].
  apply (proj1 (lengthPrefix_bounds [x0a; x0b; x0c]) ltac:(vm_compute; reflexivity)).
Defined.

Lemma explicit_key_first_witness :
  header_key demo_auth_header = Some (repeat x01 16) /\
  blen (repeat x01 16) = 16 /\
  extractSecretAndContext (H := demo_crypto) demo_labelled
    (clear_authSecret demo_auth_header) MODE_DECRYPT
  = Ok {| secret := RawKey (repeat x01 16); context := [] |}.
Proof.
  split; [reflexivity|]. split; [reflexivity|].
  exact (proj2 (explicit_key_first (H := demo_crypto) demo_labelled
                  (clear_authSecret demo_auth_header) MODE_DECRYPT (repeat x01 16) eq_refl)
           eq_refl eq_refl).
Defined.

Lemma saved_key_resolves_witness :
  truthy (Some "k1") = true /\
  savedKeys demo_store !! "__proto__" = None /\
  extractSecretAndContext (H := demo_crypto)
    (fst (saveKey (H := demo_crypto) demo_store "k1" (RawKey (repeat x09 16)) None))
    demo_keyid_header MODE_ENCRYPT
  = Ok {| secret := RawKey (repeat x09 16); context := [] |} /\
  savedKeys demo_store !! "constructor" = None /\
  extractSecretAndContext (H := demo_crypto) demo_store demo_inherited_header MODE_ENCRYPT
  = Ok {| secret := Foreign; context := [] |}.
Proof.
  split; [reflexivity|]. split; [reflexivity|]. split.
  - exact (proj1 (saved_key_resolves (H := demo_crypto) demo_store "k1"
                    (RawKey (repeat x09 16)) None demo_keyid_header MODE_ENCRYPT
                    eq_refl eq_refl eq_refl eq_refl eq_refl) eq_refl).
  - split; [reflexivity|].
    exact (proj2 (proj2 (saved_key_resolves (H := demo_crypto) demo_store "constructor"
                    (RawKey []) None demo_inherited_header MODE_ENCRYPT
                    eq_refl eq_refl eq_refl eq_refl eq_refl)) eq_refl eq_refl).
Defined.

Lemma dh_needs_key_and_label_witness :
  savedKeys demo_store !! "__proto__" = None /\
  property (H := demo_crypto) RawKey (keyLabels demo_store) "k1" = Ok None /\
  extractDH (H := demo_crypto)
    (fst (saveKey (H := demo_crypto) demo_store "k1" (ECDHKey [x05]) None))
    (Some "k1") [x06] MODE_ENCRYPT
  = Err (NoKnownDHKeyLabel "k1") /\
  savedKeys demo_store !! "toString" = None /\
  keyLabels demo_store !! "toString" = None /\
  keyLabels demo_store !! "__proto__" = None /\
  extractDH (H := demo_crypto) demo_store (Some "toString") [x06] MODE_ENCRYPT
  = Err TypeError.
Proof.
  split; [reflexivity|]. split; [reflexivity|]. split.
  - exact (proj1 (dh_needs_key_and_label (H := demo_crypto) demo_store "k1"
                    (ECDHKey [x05]) [x06] MODE_ENCRYPT) eq_refl eq_refl).
  - do 3 (split; [reflexivity|]).
    exact (proj2 (proj2 (dh_needs_key_and_label (H := demo_crypto) demo_store "toString"
                    (ECDHKey [x05]) [x06] MODE_ENCRYPT))
             eq_refl eq_refl eq_refl eq_refl).
Defined.

Lemma parseParams_invariant_witness :
  PAD_SIZE (header_type (demo_parsed demo_legacy)) < header_rs (demo_parsed demo_legacy).
Proof.
  exact (proj1 (parseParams_invariant (H := demo_crypto) demo_legacy
                  (demo_parsed demo_legacy) demo_legacy_parsed)).
Defined.

Lemma header_round_trip_witness :
  header_salt demo_keyid_header = Some (repeat x03 16) /\
  blen (repeat x03 16) = 16 /\
  0 <= header_rs demo_keyid_header < 2 ^ 32 /\
  blen (keyid_bytes demo_keyid_header) <= 255 /\
  exists hdr,
    encodeHeader demo_keyid_header = Ok hdr /\
    header_rs <$> readHeader (H := demo_crypto) (OParams demo_modern) (OBuffer (hdr ++ [xff]))
    = Ok 4096.
Proof.
  split; [reflexivity|]. split; [reflexivity|].
  split; [vm_compute; split; [discriminate|reflexivity]|].
  split; [vm_compute; discriminate|].
  destruct (header_round_trip (H := demo_crypto) demo_keyid_header (repeat x03 16)
              demo_modern [xff] eq_refl eq_refl
              ltac:(vm_compute; split; [discriminate|reflexivity])
              ltac:(vm_compute; discriminate)) as (hdr & Henc & _ & Hread).
  exists hdr. split; [exact Henc|]. rewrite Hread. reflexivity.
Defined.

Lemma aes128gcm_layout_witness :
  truthy (params_salt demo_named) = false /\
  exists rs records,
    determineRecordSize (params_rs demo_named) aes128gcm = Ok rs /\
    demo_named_ciphertext
    = repeat x07 16 ++ be_encode 4 rs ++ [x02] ++ [x61; x31] ++ records.
Proof.
  split; [reflexivity|].
  destruct (aes128gcm_layout (H := demo_crypto) demo_store (repeat x07 16) [x41; x42]
              demo_named demo_named_ciphertext eq_refl
              ltac:(vm_compute; reflexivity))
    as (rs & records & Hrs & _ & _ & _ & Hct).
  exists rs, records. split; [exact Hrs|exact Hct].
Defined.

Lemma pad_budget_witness :
  6 <= blen (kn_nonce demo_kn) /\
  encrypt_records (H := demo_crypto) demo_kn 10 2 [] 9 [] = Err (UnableToPad 2).
Proof.
  split; [vm_compute; discriminate|].
  exact (proj2 (pad_budget (H := demo_crypto) demo_gcm_tag_length demo_kn 10 2 [] 9 []
                  ltac:(vm_compute; discriminate) (or_intror eq_refl)
                  ltac:(lia) ltac:(lia)) ltac:(vm_compute; reflexivity)).
Defined.
